(** * Changelog Weaver: the work-item aggregation engine

    A shallow embedding of [changelog_weaver/work.py] (class [Work]) and of
    the data classes of [changelog_weaver/typings/base_types.py] it
    manipulates, followed by the properties of the engine stated in the
    design document.

    Modelling conventions.
    - Python [int] is [Z]; [str] is [string] (a byte string; [str.lower] is
      modelled on the ASCII letters, which decides every comparison with
      the ASCII literals ["commit"] and ["true"] made by the code).
    - Python objects live in a heap (a list indexed by address); variables,
      dict values and list elements hold addresses, so that two names for
      one object see each other's writes ([_create_other_parent] relies on
      this).
    - [self.all] is a [dict]: an association list in insertion order, since
      [dict.values()] enumerates in that order.
    - The platform client, the language model and the Python runtime are
      external: they are type-class parameters, each call threading an
      opaque environment state and being recorded in a ghost trace.
    - A coroutine that is awaited alone runs to its end before the
      awaiting code goes on.  The tasks of an [asyncio.gather] have one
      [await] each (the call of a collaborator), so each of them completes
      in one step; the event loop completes them in an order of its
      choosing (a parameter, [EventLoop]), every one of them, also after
      one has raised: the first exception in that order is what [gather]
      raises.  Logging and [time.time()] are left out. *)

From Stdlib Require Import ZArith List String Ascii Bool Lia.
From stdpp Require Import base list strings gmap.

Local Open Scope Z_scope.
Local Open Scope string_scope.
Local Open Scope list_scope.

(** ** [typings/base_types.py] *)

(** Object references: addresses in the heap. *)
Abbreviation ref := nat (only parsing).

Inductive Platform := AZURE_DEVOPS | GITHUB.

Definition Platform_eqb (a b : Platform) : bool :=
  match a, b with
  | AZURE_DEVOPS, AZURE_DEVOPS | GITHUB, GITHUB => true
  | _, _ => false
  end.

Record CommitInfo := mkCommitInfo {
  commit_sha : string;
  commit_message : string;
  commit_author : string;
  commit_date : string;
  commit_url : string
}.

(** [@dataclass class WorkItem], fields in declaration order.  [parent] is
    a reference the engine copies but never follows. *)
Record WorkItem := mkWorkItem {
  id : Z;
  type : string;
  state : string;
  title : string;
  icon : string;
  root : bool;
  orphan : bool;
  parent_id : Z;
  parent : option ref;
  comment_count : Z;
  story_points : option Z;
  summary : option string;
  priority : option Z;
  description : option string;
  repro_steps : option string;
  acceptance_criteria : option string;
  tags : list string;
  url : string;
  sha : option string;
  author : option string;
  date : option string;
  comments : list string
}.

(** [HierarchicalWorkItem(WorkItem)]: the subclass adds the ordered child
    list, empty unless given.  The coercion plays the role of inheritance. *)
Record HierarchicalWorkItem := mkHierarchicalWorkItem {
  base :> WorkItem;
  children : list ref
}.

(** [WorkItemGroup(type, icon, items)]. *)
Record WorkItemGroup := mkWorkItemGroup {
  group_type : string;
  group_icon : string;
  group_items : list ref
}.

(** The dataclass defaults of [WorkItem], for constructor calls that give
    only some keywords. *)
Definition WorkItem_new (id0 : Z) (type0 state0 title0 icon0 : string)
    (root0 orphan0 : bool) : WorkItem :=
  {| id := id0; type := type0; state := state0; title := title0;
     icon := icon0; root := root0; orphan := orphan0;
     parent_id := 0; parent := None; comment_count := 0;
     story_points := None; summary := None; priority := None;
     description := None; repro_steps := None;
     acceptance_criteria := None; tags := []; url := "";
     sha := None; author := None; date := None; comments := [] |}.

(** Attribute assignments [wi.parent_id = p], [wi.summary = s] and
    [wi.children = l]: every other attribute keeps its value. *)
Definition set_parent_id (p : Z) (w : WorkItem) : WorkItem :=
  {| id := id w; type := type w; state := state w; title := title w;
     icon := icon w; root := root w; orphan := orphan w;
     parent_id := p; parent := parent w; comment_count := comment_count w;
     story_points := story_points w; summary := summary w;
     priority := priority w; description := description w;
     repro_steps := repro_steps w;
     acceptance_criteria := acceptance_criteria w; tags := tags w;
     url := url w; sha := sha w; author := author w; date := date w;
     comments := comments w |}.

Definition set_summary (s : option string) (w : WorkItem) : WorkItem :=
  {| id := id w; type := type w; state := state w; title := title w;
     icon := icon w; root := root w; orphan := orphan w;
     parent_id := parent_id w; parent := parent w;
     comment_count := comment_count w;
     story_points := story_points w; summary := s;
     priority := priority w; description := description w;
     repro_steps := repro_steps w;
     acceptance_criteria := acceptance_criteria w; tags := tags w;
     url := url w; sha := sha w; author := author w; date := date w;
     comments := comments w |}.

Definition with_parent_id (p : Z) (o : HierarchicalWorkItem) :
    HierarchicalWorkItem :=
  {| base := set_parent_id p o; children := children o |}.

Definition with_summary (s : option string) (o : HierarchicalWorkItem) :
    HierarchicalWorkItem :=
  {| base := set_summary s o; children := children o |}.

Definition with_children (l : list ref) (o : HierarchicalWorkItem) :
    HierarchicalWorkItem :=
  {| base := base o; children := l |}.

(** A flat [WorkItem] passed to the [HierarchicalWorkItem] constructor as
    keywords (its [__dict__]): no [children] keyword, hence the default
    empty list. *)
Definition flat (wi : WorkItem) : HierarchicalWorkItem :=
  {| base := wi; children := [] |}.

(** ** Strings *)

(** [str.lower] on ASCII. *)
Definition lower_ascii (c : ascii) : ascii :=
  let n := nat_of_ascii c in
  if (Nat.leb 65 n && Nat.leb n 90)%bool then ascii_of_nat (n + 32) else c.

Fixpoint lower (s : string) : string :=
  match s with
  | EmptyString => EmptyString
  | String c s' => String (lower_ascii c) (lower s')
  end.

(** ** Python [dict] with integer keys, in insertion order *)

Definition dict (V : Type) := list (Z * V).

Fixpoint dict_get {V} (d : dict V) (k : Z) : option V :=
  match d with
  | [] => None
  | (k', v) :: d' => if Z.eqb k' k then Some v else dict_get d' k
  end.

(** [k in d] *)
Definition dict_mem {V} (d : dict V) (k : Z) : bool :=
  match dict_get d k with Some _ => true | None => false end.

(** [d[k] = v]: an existing key keeps its position, a new one goes last. *)
Fixpoint dict_set {V} (d : dict V) (k : Z) (v : V) : dict V :=
  match d with
  | [] => [(k, v)]
  | (k', v') :: d' =>
      if Z.eqb k' k then (k', v) :: d' else (k', v') :: dict_set d' k v
  end.

(** [d.values()] *)
Definition dict_values {V} (d : dict V) : list V := map snd d.

(** ** Exceptions, outcomes and the external collaborators *)

Inductive PyExn :=
| KeyError (k : Z)
| External (what : string).

(** Why a run of the model stops without a Python result: the fuel given
    to a [while] loop ran out, or an address is not in the heap (which no
    Python program can observe). *)
Inductive halt := OutOfFuel | BadRef.

Inductive outcome (A : Type) :=
| Ok (a : A)
| Raise (e : PyExn)
| Halt (h : halt).
Arguments Ok {A} a.
Arguments Raise {A} e.
Arguments Halt {A} h.

(** What [client.get_work_items_with_details] returns: items with their
    children already nested (only the identities are used on Azure DevOps). *)
#[warnings="-register-all"]
Inductive ItemTree := Node (item : WorkItem) (kids : list ItemTree).

Definition tree_item (t : ItemTree) : WorkItem :=
  match t with Node wi _ => wi end.
Definition tree_kids (t : ItemTree) : list ItemTree :=
  match t with Node _ kids => kids end.

(** The abstract class [PlatformClient], as far as [Work] calls it. *)
Class PlatformClient (Env : Type) := {
  get_work_item_by_id : Z → Env → (PyExn + WorkItem) * Env;
  get_work_items_with_details : Env → (PyExn + list ItemTree) * Env;
  get_commits : Env → (PyExn + list CommitInfo) * Env
}.

(** [config.model.summarise]. *)
Class Model (Env : Type) := {
  summarise : string → Env → (PyExn + string) * Env
}.

(** Python built-ins used by the engine: [hash] on [str] (salted per
    process, a function within one run) and the text of a list of strings
    inside an f-string. *)
Class Builtins := {
  py_hash : string → Z;
  py_str_list : list string → string
}.

(** The calls made to the collaborators, newest last. *)
(** The event loop: the order in which the [n] tasks of a batch complete,
    a permutation of their positions that the outside world chooses. *)
Class EventLoop (Env : Type) := {
  completion_order : Env → nat → list nat;
  completion_order_perm : ∀ e n, completion_order e n ≡ₚ seq 0 n
}.

Inductive call :=
| CallGetWorkItemById (k : Z) (failed : option PyExn)
| CallGetWorkItemsWithDetails (failed : option PyExn)
| CallGetCommits (failed : option PyExn)
| CallSummarise (prompt : string) (failed : option PyExn).

Definition failure {A} (r : PyExn + A) : option PyExn :=
  match r with inl e => Some e | inr _ => None end.

(** The part of [Config] that [Work] reads: [config.project.platform.platform],
    [config.include_commits], [config.model.item_summary] and
    [config.prompts.item]. *)
Record Config := mkConfig {
  platform : Platform;
  include_commits : bool;
  item_summary : bool;
  prompts_item : string
}.

(** [Config.__init__]: [env.get(INCLUDE_COMMITS, "True").lower() == "true"],
    and the same for [GET_ITEM_SUMMARY]. *)
Definition env_flag (v : option string) : bool :=
  String.eqb (lower (default "True" v)) "true".

(** ** State and exceptions *)

(** A computation over a state [S]: it ends with a value, an exception or
    a halt, and the state it leaves. *)
Definition ST (S A : Type) : Type := S → outcome A * S.

Definition ret {S A} (a : A) : ST S A := λ s, (Ok a, s).

Definition bind {S A B} (m : ST S A) (f : A → ST S B) : ST S B := λ s,
  match m s with
  | (Ok a, s') => f a s'
  | (Raise e, s') => (Raise e, s')
  | (Halt h, s') => (Halt h, s')
  end.

Notation "x <- m ;; k" := (bind m (fun x => k))
  (at level 100, m at level 99, k at level 200, right associativity).
Notation "'do' m ;; k" := (bind m (fun _ => k))
  (at level 100, m at level 99, k at level 200, right associativity).

Definition raise {S A} (e : PyExn) : ST S A := λ s, (Raise e, s).
Definition halt_with {S A} (h : halt) : ST S A := λ s, (Halt h, s).

(** Reading the state, and changing it. *)
Definition gets {S A} (f : S → A) : ST S A := λ s, (Ok (f s), s).
Definition modify {S} (f : S → S) : ST S unit := λ s, (Ok tt, f s).

(** [for x in l: body(x)]; a loop that carries a local variable; list
    comprehensions with effects. *)
Fixpoint for_each {S A} (l : list A) (body : A → ST S unit) : ST S unit :=
  match l with
  | [] => ret tt
  | x :: l' => do body x ;; for_each l' body
  end.

Fixpoint fold_m {S A B} (f : B → A → ST S B) (b : B) (l : list A) : ST S B :=
  match l with
  | [] => ret b
  | x :: l' => b' <- f b x ;; fold_m f b' l'
  end.

Fixpoint map_m {S A B} (f : A → ST S B) (l : list A) : ST S (list B) :=
  match l with
  | [] => ret []
  | x :: l' => y <- f x ;; ys <- map_m f l' ;; ret (y :: ys)
  end.

Fixpoint filter_m {S A} (p : A → ST S bool) (l : list A) : ST S (list A) :=
  match l with
  | [] => ret []
  | x :: l' =>
      b <- p x ;; ys <- filter_m p l' ;; ret (if b then x :: ys else ys)
  end.

(** The tasks of a batch complete one after the other, all of them: a
    task that raises does not stop the others, and none is cancelled. *)
Fixpoint complete_all {S A} (tasks : list (ST S A)) :
    ST S (list (PyExn + A)) :=
  match tasks with
  | [] => ret []
  | t :: tasks' => λ s,
      match t s with
      | (Ok a, s1) => (rs <- complete_all tasks' ;; ret (inr a :: rs)) s1
      | (Raise e, s1) => (rs <- complete_all tasks' ;; ret (inl e :: rs)) s1
      | (Halt h, s1) => (Halt h, s1)
      end
  end.

(** The first exception among the results, in the order of completion. *)
Fixpoint first_error {A} (rs : list (PyExn + A)) : option PyExn :=
  match rs with
  | [] => None
  | inl e :: _ => Some e
  | inr _ :: rs' => first_error rs'
  end.

(** The tasks at the positions [order]. *)
Definition in_completion_order {T} (order : list nat) (tasks : list T) :
    list T :=
  omap (λ i, tasks !! i) order.

(** The results in the order of the tasks, where [order] lists the tasks
    in the order in which they completed. *)
Definition in_task_order {A} (order : list nat) (rs : list (PyExn + A)) :
    list A :=
  omap (λ i, match List.find (λ p, Nat.eqb (fst p) i) (zip order rs) with
             | Some (_, inr a) => Some a
             | _ => None
             end)
       (seq 0 (length order)).

(** [range(start, stop, step)] for a positive step, and [l[i:j]]. *)
Definition py_range (start stop step : nat) : list nat :=
  map (λ j, start + j * step)%nat
      (seq 0 ((stop - start + step - 1) / step)%nat).

Definition slice {A} (l : list A) (i j : nat) : list A :=
  take (j - i)%nat (drop i l).

(** ** The [Work] class *)

Definition commit_icon : string :=
  "https://raw.githubusercontent.com/Hankanman/Changelog-Weaver/refs/heads/main/assets/commit-icon.svg".

Definition other_icon : string :=
  "https://tfsproduks1.visualstudio.com/_apis/wit/workItemIcons/icon_review?color=333333&v=2".

Section Engine.
Context {Env : Type} {client : PlatformClient Env} {model : Model Env}
        {builtins : Builtins} {loop : EventLoop Env}.
Variable config : Config.

(** The attributes of [Work] set by [__init__] ([all], [root_items],
    [by_type], [item_ids]), the heap of the objects they refer to, the
    state of the outside world and the calls made so far. *)
Record Work := mkWork {
  heap : list HierarchicalWorkItem;
  all : dict ref;
  root_items : list ref;
  by_type : list WorkItemGroup;
  item_ids : list Z;
  env : Env;
  calls : list call
}.

Definition M : Type → Type := ST Work.

Definition put_heap (h : list HierarchicalWorkItem) (w : Work) : Work :=
  mkWork h (all w) (root_items w) (by_type w) (item_ids w) (env w) (calls w).
Definition put_all (d : dict ref) (w : Work) : Work :=
  mkWork (heap w) d (root_items w) (by_type w) (item_ids w) (env w) (calls w).
Definition put_root_items (l : list ref) (w : Work) : Work :=
  mkWork (heap w) (all w) l (by_type w) (item_ids w) (env w) (calls w).
Definition put_by_type (l : list WorkItemGroup) (w : Work) : Work :=
  mkWork (heap w) (all w) (root_items w) l (item_ids w) (env w) (calls w).
Definition put_item_ids (l : list Z) (w : Work) : Work :=
  mkWork (heap w) (all w) (root_items w) (by_type w) l (env w) (calls w).
Definition put_env (e : Env) (c : list call) (w : Work) : Work :=
  mkWork (heap w) (all w) (root_items w) (by_type w) (item_ids w) e c.

(** Following a reference; creating an object; writing to one. *)
Definition deref (a : ref) : M HierarchicalWorkItem := λ w,
  match heap w !! a with
  | Some o => (Ok o, w)
  | None => (Halt BadRef, w)
  end.

Definition alloc (o : HierarchicalWorkItem) : M ref := λ w,
  (Ok (length (heap w)), put_heap (heap w ++ [o]) w).

Definition update (a : ref) (f : HierarchicalWorkItem → HierarchicalWorkItem) :
    M unit :=
  o <- deref a ;; modify (λ w, put_heap (<[a := f o]> (heap w)) w).

(** A call to a collaborator: the environment moves on, the call is
    recorded, a failure is raised. *)
Definition external {A} (f : Env → (PyExn + A) * Env)
    (record : option PyExn → call) : M A := λ w,
  let '(r, e') := f (env w) in
  let w' := put_env e' (calls w ++ [record (failure r)]) w in
  match r with
  | inl e => (Raise e, w')
  | inr a => (Ok a, w')
  end.

(** [await asyncio.gather] of a list of tasks.  Every task is started and
    none is cancelled: they complete in the order the event loop chooses,
    also after one of them has raised.  The awaiting code receives the
    first exception in that order or, without one, the results in the
    order of the tasks. *)
Definition gather {A} (tasks : list (M A)) : M (list A) := λ w,
  let order := completion_order (env w) (length tasks) in
  (rs <- complete_all (in_completion_order order tasks) ;;
   match first_error rs with
   | Some e => raise e
   | None => ret (in_task_order order rs)
   end) w.

(** *** [add], [get_item_by_id] *)

(** [self.all[k]] *)
Definition all_getitem (k : Z) : M ref :=
  d <- gets all ;;
  match dict_get d k with
  | Some a => ret a
  | None => raise (KeyError k)
  end.

Definition add (work_item : HierarchicalWorkItem) : M ref :=
  d <- gets all ;;
  do (if negb (dict_mem d (id work_item)) then
        hierarchical_item <- alloc work_item ;;
        modify (λ w,
          put_all (dict_set (all w) (id work_item) hierarchical_item) w)
      else ret tt) ;;
  all_getitem (id work_item).

Definition get_item_by_id (item_id : Z) : M ref :=
  item <- external (get_work_item_by_id item_id)
                   (CallGetWorkItemById item_id) ;;
  add (flat item).

(** *** [summarize_work_item] *)

(** The f-string of the prompt; [None] prints as the word. *)
Definition item_prompt (wi : WorkItem) : string :=
  prompts_item config +:+ ": " +:+ title wi +:+ " item type: " +:+ type wi
  +:+ " " +:+ default "None" (description wi)
  +:+ " " +:+ py_str_list (comments wi).

Definition summarize_work_item (wi : ref) : M ref :=
  o <- deref wi ;;
  if String.eqb (lower (type o)) "commit" then ret wi
  else if negb (item_summary config) then ret wi
  else
    let prompt := item_prompt o in
    s <- external (summarise prompt) (CallSummarise prompt) ;;
    do update wi (with_summary (Some s)) ;;
    ret wi.

(** *** [_convert_commit_to_work_item] *)

Definition commit_work_item (commit : CommitInfo) : HierarchicalWorkItem :=
  {| base :=
       {| id := py_hash (commit_sha commit); type := "Commit";
          state := "N/A"; title := commit_message commit;
          icon := commit_icon; root := false; orphan := true;
          parent_id := 0; parent := None; comment_count := 0;
          story_points := None; summary := None; priority := None;
          description := None; repro_steps := None;
          acceptance_criteria := None; tags := [];
          url := commit_url commit; sha := Some (commit_sha commit);
          author := Some (commit_author commit);
          date := Some (commit_date commit); comments := [] |};
     children := [] |}.

Definition _convert_commit_to_work_item (commit : CommitInfo) : M ref :=
  alloc (commit_work_item commit).

(** *** [_fetch_parents] *)

(** The [while] loop that climbs from [current_item]; each turn takes one
    unit of fuel. *)
Fixpoint walk_parents (fuel : nat) (current_item : ref)
    (items_to_fetch : gset Z) : M (gset Z) :=
  match fuel with
  | O => halt_with OutOfFuel
  | S fuel' =>
      cur <- deref current_item ;;
      d <- gets all ;;
      if negb (Z.eqb (parent_id cur) 0) && negb (dict_mem d (parent_id cur))
      then
        nxt <- get_item_by_id (parent_id cur) ;;
        walk_parents fuel' nxt (items_to_fetch ∪ {[parent_id cur]})
      else ret items_to_fetch
  end.

Definition batch_size : nat := 10.

Definition _fetch_parents (fuel : nat) : M unit :=
  if negb (Platform_eqb (platform config) AZURE_DEVOPS) then ret tt
  else
    items_list <- gets (λ w, dict_values (all w)) ;;
    items_to_fetch <-
      fold_m (λ to_fetch item, walk_parents fuel item to_fetch) ∅ items_list ;;
    let ids := elements items_to_fetch in
    for_each (py_range 0 (length ids) batch_size) (λ i,
      let batch := slice ids i (i + batch_size) in
      do gather (map get_item_by_id batch) ;; ret tt).

(** *** [_create_other_parent] *)

Definition other_work_item : HierarchicalWorkItem :=
  flat (WorkItem_new 0 "Other" "Other" "Other" other_icon true false).

Definition orphaned (a : ref) : M bool :=
  item <- deref a ;; ret (orphan item && negb (Z.eqb (id item) 0)).

Definition _create_other_parent : M unit :=
  if Platform_eqb (platform config) GITHUB then ret tt
  else
    values <- gets (λ w, dict_values (all w)) ;;
    orphaned_items <- filter_m orphaned values ;;
    match orphaned_items with
    | [] => ret tt
    | _ :: _ =>
        other_parent <- alloc other_work_item ;;
        do update other_parent (with_children orphaned_items) ;;
        do modify (λ w, put_all (dict_set (all w) 0 other_parent) w) ;;
        for_each orphaned_items (λ item, update item (with_parent_id 0))
    end.

(** *** [Hierarchy] *)

(** Modelled from the spec: the class [Hierarchy] of
    [changelog_weaver/utilities], which is not among the sources.  Design
    section 4.4: every stored item with a non-zero parent identity present
    in the Store joins the child list of that parent; the roots are the
    stored items with [root = true] or whose parent is the orphan bucket;
    the groups are one per type value seen among the roots, in first-seen
    order, each with the icon of the first root of that type and that
    type's roots in encounter order. *)
Definition Hierarchy_attach (a : ref) : M unit :=
  item <- deref a ;;
  d <- gets all ;;
  match dict_get d (parent_id item) with
  | Some p =>
      if negb (Z.eqb (parent_id item) 0)
      then update p (λ o, with_children (children o ++ [a]) o)
      else ret tt
  | None => ret tt
  end.

(** Modelled from the spec: the test for a root, [root = true] or a parent
    that is the orphan bucket (parent identity 0 with the bucket stored). *)
Definition Hierarchy_is_root (a : ref) : M bool :=
  item <- deref a ;;
  d <- gets all ;;
  ret (root item || (Z.eqb (parent_id item) 0 && dict_mem d 0)).

(** Modelled from the spec: a root joins the group of its type, or opens
    a new group after the others if its type is seen for the first time. *)
Fixpoint group_insert (groups : list WorkItemGroup) (ty ic : string)
    (a : ref) : list WorkItemGroup :=
  match groups with
  | [] => [mkWorkItemGroup ty ic [a]]
  | g :: groups' =>
      if String.eqb (group_type g) ty
      then mkWorkItemGroup (group_type g) (group_icon g) (group_items g ++ [a])
           :: groups'
      else g :: group_insert groups' ty ic a
  end.

(** Modelled from the spec: the grouping step for one root. *)
Definition Hierarchy_group (groups : list WorkItemGroup) (a : ref) :
    M (list WorkItemGroup) :=
  item <- deref a ;; ret (group_insert groups (type item) (icon item) a).

(** Modelled from the spec: [Hierarchy(self.all)], giving [root_items]
    and [by_type]. *)
Definition Hierarchy : M (list ref * list WorkItemGroup) :=
  values <- gets (λ w, dict_values (all w)) ;;
  do for_each values Hierarchy_attach ;;
  roots <- filter_m Hierarchy_is_root values ;;
  groups <- fold_m Hierarchy_group [] roots ;;
  ret (roots, groups).

(** *** [get_items_with_details] *)

(** The objects of a reply of the client enter the heap. *)
Fixpoint alloc_tree (t : ItemTree) : M ref :=
  match t with
  | Node wi kids =>
      cs <- (fix alloc_kids (l : list ItemTree) : M (list ref) :=
               match l with
               | [] => ret []
               | k :: l' =>
                   a <- alloc_tree k ;; r <- alloc_kids l' ;; ret (a :: r)
               end) kids ;;
      alloc (mkHierarchicalWorkItem wi cs)
  end.

(** A returned root item, as the value [add] copies. *)
Definition receive (t : ItemTree) : M HierarchicalWorkItem :=
  cs <- map_m alloc_tree (tree_kids t) ;;
  ret (mkHierarchicalWorkItem (tree_item t) cs).

Definition is_candidate (a : ref) : M bool :=
  item <- deref a ;;
  ids <- gets item_ids ;;
  ret (existsb (Z.eqb (id item)) ids
       && negb (String.eqb (lower (type item)) "commit")).

(** The items of the list comprehension [summary_tasks]. *)
Definition summary_candidates : M (list ref) :=
  values <- gets (λ w, dict_values (all w)) ;;
  filter_m is_candidate values.

Definition index_child (child : ref) : M unit :=
  c <- deref child ;;
  do modify (λ w, put_all (dict_set (all w) (id c) child) w) ;;
  modify (λ w, put_item_ids (item_ids w ++ [id c]) w).

Definition root_group (a : ref) : M WorkItemGroup :=
  root_item <- deref a ;;
  ret (mkWorkItemGroup (type root_item) (icon root_item) (children root_item)).

(** The branch for GitHub: the returned roots are stored and their
    children indexed. *)
Definition load_github (items : list ItemTree) : M unit :=
  payloads <- map_m receive items ;;
  roots <- map_m add payloads ;;
  do modify (put_root_items roots) ;;
  for_each roots (λ a,
    root_item <- deref a ;;
    for_each (children root_item) index_child).

(** The branch for Azure DevOps: every returned identity is fetched, then
    the parents, then the orphans are bucketed. *)
Definition load_devops (fuel : nat) (items : list ItemTree) : M unit :=
  do modify (put_item_ids (map (λ t, id (tree_item t)) items)) ;;
  do gather (map (λ t, get_item_by_id (id (tree_item t))) items) ;;
  do _fetch_parents fuel ;;
  _create_other_parent.

(** [if self.config.model.item_summary: ...] *)
Definition summary_pass : M unit :=
  if item_summary config then
    candidates <- summary_candidates ;;
    do gather (map summarize_work_item candidates) ;; ret tt
  else ret tt.

(** The assignment of [root_items] and [by_type]. *)
Definition build_groups : M unit :=
  if Platform_eqb (platform config) AZURE_DEVOPS then
    hierarchy <- Hierarchy ;;
    do modify (put_root_items (fst hierarchy)) ;;
    modify (put_by_type (snd hierarchy))
  else
    roots <- gets root_items ;;
    groups <- map_m root_group roots ;;
    modify (put_by_type groups).

Definition get_items_with_details (fuel : nat) : M (list ref) :=
  items <- external get_work_items_with_details CallGetWorkItemsWithDetails ;;
  do (if Platform_eqb (platform config) GITHUB then load_github items
      else load_devops fuel items) ;;
  do summary_pass ;;
  do build_groups ;;
  gets root_items.

(** *** [generate_ordered_work_items] *)

Definition has_commit_group (groups : list WorkItemGroup) : bool :=
  existsb (λ group, String.eqb (group_type group) "Commit") groups.

(** The commits are fetched, adapted and appended as one group. *)
Definition append_commits : M unit :=
  commits <- external get_commits CallGetCommits ;;
  commit_items <- map_m _convert_commit_to_work_item commits ;;
  modify (λ w,
    put_by_type
      (by_type w ++ [mkWorkItemGroup "Commit" commit_icon commit_items]) w).

Definition generate_ordered_work_items (fuel : nat) :
    M (list WorkItemGroup) :=
  groups <- gets by_type ;;
  do (match groups with
      | [] => do get_items_with_details fuel ;; ret tt
      | _ :: _ => ret tt
      end) ;;
  groups <- gets by_type ;;
  do (if include_commits config && negb (has_commit_group groups)
      then append_commits else ret tt) ;;
  gets by_type.

End Engine.

Arguments Work : clear implicits.
Arguments M : clear implicits.

(** ** Vocabulary of the properties *)

Definition is_commit_group (g : WorkItemGroup) : bool :=
  String.eqb (group_type g) "Commit".

(** How many groups are labelled ["Commit"]. *)
Definition commit_groups (groups : list WorkItemGroup) : nat :=
  length (List.filter is_commit_group groups).

(** The types in the order in which they are first seen. *)
Definition seen_step (acc : list string) (t : string) : list string :=
  if existsb (String.eqb t) acc then acc else acc ++ [t].

Definition first_seen (l : list string) : list string :=
  fold_left seen_step l [].

(** The items of the group labelled [t], if there is one. *)
Definition group_lookup (t : string) (groups : list WorkItemGroup) :
    list ref :=
  match List.find (λ g, String.eqb (group_type g) t) groups with
  | Some g => group_items g
  | None => []
  end.

(** Grouping a list of addresses whose types and icons are given. *)
Definition grouped (ty ic : nat → string) (roots : list ref)
    (groups : list WorkItemGroup) : list WorkItemGroup :=
  fold_left (λ g a, group_insert g (ty a) (ic a) a) roots groups.

Section Vocabulary.
Context {Env : Type} {loop : EventLoop Env}.
Implicit Types (w : Work Env).

(** A test that reads one object and, possibly, attributes of [self]. *)
Definition reads (p : ref → M Env bool)
    (q : Work Env → HierarchicalWorkItem → bool) : Prop :=
  ∀ a w, p a w = match heap w !! a with
                 | Some o => (Ok (q w o), w)
                 | None => (Halt BadRef, w)
                 end.

(** What the test answers on an address, false off the heap. *)
Definition holds (q : Work Env → HierarchicalWorkItem → bool) w (a : ref) :
    bool :=
  match heap w !! a with Some o => q w o | None => false end.

(** Every stored reference points into the heap. *)
Definition store_ok w : Prop :=
  Forall (λ a, is_Some (heap w !! a)) (dict_values (all w)).

(** The stored items flagged orphan, the bucket identity apart. *)
Definition orphan_test w (o : HierarchicalWorkItem) : bool :=
  orphan o && negb (Z.eqb (id o) 0).

Definition orphans w : list ref :=
  List.filter (holds orphan_test w) (dict_values (all w)).

(** The stored items whose identity is in [item_ids] and whose type is
    not ["commit"] in any letter case. *)
Definition candidate_test w (o : HierarchicalWorkItem) : bool :=
  existsb (Z.eqb (id o)) (item_ids w)
  && negb (String.eqb (lower (type o)) "commit").

(** The Store is closed under the parent reference. *)
Definition closed w : Prop :=
  ∀ k a (o : HierarchicalWorkItem), In (k, a) (all w) →
    heap w !! a = Some o →
    parent_id o ≠ 0 → dict_mem (all w) (parent_id o) = true.

(** Every fetch of one item succeeds and returns an item that carries the
    requested identity. *)
Definition always_found {client : PlatformClient Env} : Prop :=
  ∀ k e, ∃ wi e', get_work_item_by_id k e = (inr wi, e') ∧ id wi = k.

(** The object at [a] has no parent or a stored one. *)
Definition resolved w (a : ref) : Prop :=
  ∃ o : HierarchicalWorkItem, heap w !! a = Some o ∧
    (parent_id o = 0 ∨ dict_mem (all w) (parent_id o) = true).

(** From [w] to [w'] objects and Store entries were only added, at the
    end, and the objects of [w] are as they were. *)
Definition grows w w' : Prop :=
  (∃ h, heap w' = heap w ++ h) ∧ (∃ d, all w' = all w ++ d).

(** Every Store entry of [w'] that [w] does not have is resolved. *)
Definition new_resolved w w' : Prop :=
  ∀ k a, In (k, a) (all w') → In (k, a) (all w) ∨ resolved w' a.

(** Only the outside world and the list of calls differ. *)
Definition same_engine w w' : Prop :=
  ∃ e c, w' = put_env e c w.

(** The parents of the items the client returns lie in the finite list
    [U] of identities. *)
Definition parents_within {client : PlatformClient Env} (U : list Z) : Prop :=
  ∀ k e wi e', get_work_item_by_id k e = (inr wi, e') →
    parent_id wi = 0 ∨ In (parent_id wi) U.

(** How many identities of [U] the Store lacks. *)
Definition missing (U : list Z) w : nat :=
  length (List.filter (λ u, negb (dict_mem (all w) u)) U).


(** The exception a recorded call ended with. *)
Definition call_failure (c : call) : option PyExn :=
  match c with
  | CallGetWorkItemById _ f | CallGetWorkItemsWithDetails f
  | CallGetCommits f | CallSummarise _ f => f
  end.

Definition clean (evs : list call) : Prop :=
  Forall (λ c, call_failure c = None) evs.

(** A property of every run of a computation: of the state before, the
    outcome and the state after. *)
Definition post {A} (m : M Env A)
    (Q : ∀ A, Work Env → outcome A → Work Env → Prop) : Prop :=
  ∀ w r w', m w = (r, w') → Q A w r w'.

(** The fetches of one item among a list of calls. *)
Definition is_fetch (c : call) : bool :=
  match c with CallGetWorkItemById _ _ => true | _ => false end.

Definition fetch_calls (l : list call) : nat :=
  length (List.filter is_fetch l).

(** The calls a run added are all of an allowed kind. *)
Definition calls_within (allowed : call → bool) (A : Type) w
    (r : outcome A) w' : Prop :=
  ∃ evs, calls w' = calls w ++ evs ∧ Forall (λ c, allowed c = true) evs.

(** A phase of fetches: the calls made are fetches of one item; either
    all of them succeeded, or the first that failed gives the exception
    that is the outcome (fetches of the same batch may follow it). *)
Definition fetch_phase (A : Type) w (r : outcome A) w' : Prop :=
  ∃ evs, calls w' = calls w ++ evs ∧
    Forall (λ c, is_fetch c = true) evs ∧
    (clean evs ∨
     ∃ evs0 k e evs1,
       evs = evs0 ++ CallGetWorkItemById k (Some e) :: evs1 ∧
       clean evs0 ∧ r = Raise e).

(** The group list is not assigned. *)
Definition keeps_groups (A : Type) w (r : outcome A) w' : Prop :=
  by_type w' = by_type w.

(** No exception comes out. *)
Definition no_raise (A : Type) w (r : outcome A) w' : Prop :=
  ∀ e, r ≠ Raise e.

(** Properties that compose along a sequence and hold of the steps that
    touch only the heap, the Store, the roots and the identities. *)
Class Compositional (Q : ∀ A, Work Env → outcome A → Work Env → Prop) := {
  comp_ok : ∀ A (a : A) w, Q A w (Ok a) w;
  comp_halt : ∀ A h w, Q A w (Halt h) w;
  comp_seq : ∀ A B (a : A) w w1 (r : outcome B) w2,
    Q A w (Ok a) w1 → Q B w1 r w2 → Q B w r w2;
  comp_raise : ∀ A B e w w1, Q A w (Raise e) w1 → Q B w (Raise e) w1;
  comp_halted : ∀ A B h w w1, Q A w (Halt h) w1 → Q B w (Halt h) w1;
  comp_heap : ∀ A (a : A) h w, Q A w (Ok a) (put_heap h w);
  comp_all : ∀ A (a : A) d w, Q A w (Ok a) (put_all d w);
  comp_root_items : ∀ A (a : A) l w, Q A w (Ok a) (put_root_items l w);
  comp_item_ids : ∀ A (a : A) l w, Q A w (Ok a) (put_item_ids l w)
}.

(** Properties that also hold of the calls to the collaborators and of
    raising. *)
Class Effectful (Q : ∀ A, Work Env → outcome A → Work Env → Prop) := {
  eff_external : ∀ A (f : Env → (PyExn + A) * Env) record,
    (∀ x, call_failure (record x) = x) → post (external f record) Q;
  eff_raise : ∀ A e w, Q A w (Raise e) w
}.

(** Properties that hold of a batch when they hold of its tasks. *)
Class Batchwise (Q : ∀ A, Work Env → outcome A → Work Env → Prop) := {
  batch : ∀ A B (f : A → M Env B) (l : list A),
    (∀ x, post (f x) Q) → post (gather (map f l)) Q
}.

(** Properties that hold of an assignment to [by_type]. *)
Class Regrouping (Q : ∀ A, Work Env → outcome A → Work Env → Prop) := {
  regroup : ∀ A (a : A) l w, Q A w (Ok a) (put_by_type l w)
}.


(** The type of the object at an address, and the group that the GitHub
    branch makes of a root. *)
Definition type_at w (a : ref) : string :=
  match heap w !! a with Some o => type (base o) | None => "" end.

Definition icon_at w (a : ref) : string :=
  match heap w !! a with Some o => icon (base o) | None => "" end.

Definition group_of_root w (a : ref) : WorkItemGroup :=
  match heap w !! a with
  | Some o => mkWorkItemGroup (type (base o)) (icon (base o)) (children o)
  | None => mkWorkItemGroup "" "" []
  end.

(** The number of calls to the summariser. *)
Definition summarise_calls (l : list call) : nat :=
  length (List.filter (λ c, match c with CallSummarise _ _ => true
                            | _ => false end) l).

End Vocabulary.


(** ** Collaborators for the examples *)

Module Fixtures.

(** A client over a table of work items; the environment counts the
    calls, and the call numbered [fail_at] fails. *)
Definition find_item (table : list WorkItem) (k : Z) : option WorkItem :=
  List.find (λ wi, Z.eqb (id wi) k) table.

Definition table_client (table : list WorkItem) (details : list ItemTree)
    (commits : list CommitInfo) (fail_at : nat) : PlatformClient nat :=
  {| get_work_item_by_id k n :=
       (if Nat.eqb n fail_at then inl (External "timeout")
        else match find_item table k with
             | Some wi => inr wi
             | None => inl (External "not found")
             end, S n);
     get_work_items_with_details n := (inr details, S n);
     get_commits n := (inr commits, S n) |}.

Definition echo_model : Model nat :=
  {| summarise prompt n := (inr ("summary"), n) |}.

Definition toy_builtins : Builtins :=
  {| py_hash s := Z.of_nat (String.length s);
     py_str_list l := String.concat ", " l |}.

Definition item (k : Z) (ty : string) (is_root is_orphan : bool) (p : Z) :
    WorkItem :=
  set_parent_id p (WorkItem_new k ty "Active" "t" "i" is_root is_orphan).

Definition start : Work nat := mkWork [] [] [] [] [] 0%nat [].

(** Item 1 has parent 2, whose parent is the root 3; item 4 is an orphan. *)
Definition table : list WorkItem :=
  [item 1 "Bug" false false 2; item 2 "Feature" false false 3;
   item 3 "Epic" true false 0; item 4 "Bug" false true 0].

(** The query returns items 1 and 4. *)
Definition query : list ItemTree :=
  [Node (item 1 "Bug" false false 2) []; Node (item 4 "Bug" false true 0) []].

Definition devops : PlatformClient nat := table_client table query [] 100.

(** The same client, whose call number 3 (the fetch of parent 2) fails. *)
Definition failing : PlatformClient nat := table_client table query [] 3.

(** A client that finds every identity: item [k] has parent [k + 1] below
    [top], and the items from [top] on are roots. *)
Definition chain_client (top : Z) : PlatformClient nat :=
  {| get_work_item_by_id k n :=
       (inr (item k "Task" (Z.leb top k) false
               (if Z.ltb 0 k && Z.ltb k top then k + 1 else 0)), S n);
     get_work_items_with_details n := (inr [], S n);
     get_commits n := (inr [], S n) |}.

(** Item 1 is stored, its parent 2 is not. *)
Definition unresolved : Work nat :=
  mkWork [flat (item 1 "Task" false false 2)] [(1, 0%nat)] [] [] [1] 0%nat [].

(** The state once items 1 and 4 and the parents 2 and 3 are stored. *)
Definition after_resolution : Work nat :=
  mkWork [flat (item 1 "Bug" false false 2); flat (item 4 "Bug" false true 0);
          flat (item 2 "Feature" false false 3);
          flat (item 3 "Epic" true false 0)]
         [(1, 0%nat); (4, 1%nat); (2, 2%nat); (3, 3%nat)]
         [] [] [1; 4] 6%nat [].

(** A GitHub reply: three roots of types Bug, Bug and Feature with their
    children, and one commit. *)
Definition roots3 : list ItemTree :=
  [Node (item 1 "Bug" true false 0) [Node (item 11 "Bug" false false 1) []];
   Node (item 2 "Bug" true false 0) [];
   Node (item 3 "Feature" true false 0)
        [Node (item 31 "Feature" false false 3) []]].

Definition hub : PlatformClient nat :=
  table_client [] roots3
    [mkCommitInfo "abc123" "Fix typo" "ann" "2024-01-01" "http://c/abc123"]
    100.

(** An event loop that completes the tasks of a batch in their order,
    and one that completes them in the opposite order. *)
Definition in_order : EventLoop nat :=
  {| completion_order _ n := seq 0 n;
     completion_order_perm _ n := Permutation_refl (seq 0 n) |}.




Definition azure : Config := mkConfig AZURE_DEVOPS true true "Summarise".
Definition github : Config := mkConfig GITHUB true true "Summarise".

End Fixtures.


(** ** More of [work.py] *)

Section EngineMore.
Context {Env : Type} {client : PlatformClient Env} {model : Model Env}
        {builtins : Builtins} {loop : EventLoop Env}.

(** [client.get_work_items_from_query], the one method of the client that
    the aggregation pipeline does not call; its calls are not recorded. *)
Class QueryClient := {
  get_work_items_from_query : string → Env → (PyExn + list WorkItem) * Env
}.

(** A call to a collaborator that leaves the list of calls alone. *)
Definition consult {A} (f : Env → (PyExn + A) * Env) : M Env A := λ w,
  let '(r, e') := f (env w) in
  let w' := put_env e' (calls w) w in
  match r with
  | inl e => (Raise e, w')
  | inr a => (Ok a, w')
  end.

Definition get_items_from_query {queries : QueryClient} (query_id : string) :
    M Env (list ref) :=
  items <- consult (get_work_items_from_query query_id) ;;
  map_m (λ item, add (flat item)) items.

End EngineMore.

Arguments QueryClient : clear implicits.

(** ** Python [str] methods used by [config.py] *)

(** [s.split(c)] for a separator of one character: never empty. *)
Fixpoint split (c : ascii) (s : string) : list string :=
  match s with
  | EmptyString => [EmptyString]
  | String a s' =>
      if Ascii.eqb a c then EmptyString :: split c s'
      else match split c s' with
           | x :: r => String a x :: r
           | [] => [String a EmptyString]
           end
  end.

(** [s.lstrip(c)], [s.rstrip(c)] and [s.strip(c)] for one character. *)
Fixpoint lstrip (c : ascii) (s : string) : string :=
  match s with
  | EmptyString => EmptyString
  | String a s' => if Ascii.eqb a c then lstrip c s' else s
  end.

Fixpoint rstrip (c : ascii) (s : string) : string :=
  match s with
  | EmptyString => EmptyString
  | String a s' =>
      match rstrip c s' with
      | EmptyString => if Ascii.eqb a c then EmptyString
                       else String a EmptyString
      | r => String a r
      end
  end.

Definition strip (c : ascii) (s : string) : string := rstrip c (lstrip c s).

(** [s.endswith(suffix)] and [sub in s]. *)
Fixpoint endswith (s suffix : string) : bool :=
  String.eqb s suffix ||
  match s with
  | EmptyString => false
  | String _ s' => endswith s' suffix
  end.

Fixpoint contains (sub s : string) : bool :=
  String.prefix sub s ||
  match s with
  | EmptyString => false
  | String _ s' => contains sub s'
  end.

(** [c in s] for one character. *)
Fixpoint has_char (c : ascii) (s : string) : bool :=
  match s with
  | EmptyString => false
  | String a s' => Ascii.eqb a c || has_char c s'
  end.

(** ** [configuration/config.py]: [parse_project] *)

(** [PlatformInfo] of [base_types.py]. *)
Module PlatformInfo.
Record t := mk {
  platform : Platform;
  organization : string;
  base_url : string;
  query : string;
  access_token : string;
  repo_name : string;
  branch : string;
  from_tag : string;
  to_tag : string;
  from_date : option string;
  to_date : option string
}.
End PlatformInfo.

(** [Project], by the keywords [parse_project] builds it with;
    [changelog] is a fresh [Notes()], which carries nothing of the
    arguments. *)
Module Project.
Record t := mk {
  name : string;
  ref_ : string;
  url : string;
  version : string;
  brief : string;
  platform : PlatformInfo.t
}.
End Project.

(** What [urlparse] gives of a URL, as far as [parse_project] reads it. *)
Record ParseResult := mkParseResult {
  netloc : string;
  path : string
}.

(** The arguments of [parse_project]. *)
Record ProjectArgs := mkProjectArgs {
  arg_name : string;
  arg_version : string;
  arg_brief : string;
  arg_url : string;
  arg_query : string;
  arg_access_token : string;
  arg_repo_name : string;
  arg_branch : string;
  arg_from_tag : string;
  arg_to_tag : string;
  arg_from_date : option string;
  arg_to_date : option string
}.

Section ParseProject.
(** [urllib.parse.urlparse] and [urllib.parse.unquote]. *)
Variable urlparse : string → ParseResult.
Variable unquote : string → string.

(** [parsed_url.path.strip("/").split("/")] *)
Definition path_parts (parsed_url : ParseResult) : list string :=
  split "/" (strip "/" (path parsed_url)).

(** The three local functions; a [ValueError] is its message on the left. *)
Definition get_github_info (url : string) (parsed_url : ParseResult) :
    string + string * string * string :=
  match path_parts parsed_url with
  | p0 :: p1 :: _ => inr (p0 +:+ "/" +:+ p1, p0, "https://api.github.com")
  | _ => inl ("Invalid GitHub URL: " +:+ url)
  end.

Definition get_azure_devops_info (url : string) (parsed_url : ParseResult) :
    string + string * string * string :=
  match path_parts parsed_url with
  | p0 :: p1 :: _ => inr (unquote p1, p0, "https://dev.azure.com/")
  | _ => inl ("Invalid Azure DevOps URL: " +:+ url)
  end.

Definition get_old_azure_devops_info (url : string)
    (parsed_url : ParseResult) : string + string * string * string :=
  match split "." (netloc parsed_url) with
  | organization :: _ :: _ =>
      match path_parts parsed_url with
      | [] => inl ("Invalid Azure DevOps URL: " +:+ url)
      | p0 :: _ =>
          inr (unquote p0, organization,
               "https://" +:+ organization +:+ ".visualstudio.com")
      end
  | _ => inl ("Invalid Azure DevOps URL: " +:+ url)
  end.

Definition parse_project (args : ProjectArgs) : string + Project.t :=
  let url := arg_url args in
  let parsed_url := urlparse url in
  let located :=
    if String.eqb (netloc parsed_url) "github.com" then
      match get_github_info url parsed_url with
      | inr info => inr (info, GITHUB)
      | inl e => inl e
      end
    else if endswith (netloc parsed_url) "azure.com"
            && contains "dev.azure.com" (netloc parsed_url) then
      match get_azure_devops_info url parsed_url with
      | inr info => inr (info, AZURE_DEVOPS)
      | inl e => inl e
      end
    else if endswith (netloc parsed_url) "visualstudio.com" then
      match get_old_azure_devops_info url parsed_url with
      | inr info => inr (info, AZURE_DEVOPS)
      | inl e => inl e
      end
    else inl ("Unable to determine platform from URL: " +:+ url) in
  match located with
  | inl e => inl e
  | inr ((project_name, org, base), pf) =>
      inr (Project.mk (arg_name args) project_name url (arg_version args)
             (arg_brief args)
             (PlatformInfo.mk pf org base (arg_query args)
                (arg_access_token args) (arg_repo_name args)
                (arg_branch args) (arg_from_tag args) (arg_to_tag args)
                (arg_from_date args) (arg_to_date args)))
  end.

End ParseProject.

(** The project record built from a located platform. *)
Definition project_of args (ref_ org base : string) (pf : Platform) :
    Project.t :=
  Project.mk (arg_name args) ref_ (arg_url args) (arg_version args)
    (arg_brief args)
    (PlatformInfo.mk pf org base (arg_query args) (arg_access_token args)
       (arg_repo_name args) (arg_branch args) (arg_from_tag args)
       (arg_to_tag args) (arg_from_date args) (arg_to_date args)).

(** ** [Work._create_platform_client] and [platforms/github_client.py] *)

(** [GitHubConfig], without the [Github] handle it opens. *)
Module GitHubConfig.
Record t := mk {
  access_token : string;
  repo_name : string;
  branch : option string;
  from_tag : option string;
  to_tag : option string;
  from_date : option string;
  to_date : option string
}.
End GitHubConfig.

(** [DevOpsConfig], by the keywords it is built with. *)
Module DevOpsConfig.
Record t := mk {
  url : string;
  org : string;
  project : string;
  query : string;
  pat : string;
  repo_name : string
}.
End DevOpsConfig.

(** The client [_create_platform_client] returns, by its class and
    configuration. *)
Inductive ClientSetup :=
| DevOpsPlatformClient (c : DevOpsConfig.t)
| GitHubPlatformClient (c : GitHubConfig.t).

Definition _create_platform_client (project : Project.t) : ClientSetup :=
  let info := Project.platform project in
  match PlatformInfo.platform info with
  | AZURE_DEVOPS =>
      DevOpsPlatformClient
        (DevOpsConfig.mk (PlatformInfo.base_url info)
           (PlatformInfo.organization info) (Project.ref_ project)
           (PlatformInfo.query info) (PlatformInfo.access_token info)
           (PlatformInfo.repo_name info))
  | GITHUB =>
      GitHubPlatformClient
        (GitHubConfig.mk (PlatformInfo.access_token info)
           (Project.ref_ project)
           (Some (PlatformInfo.branch info))
           (Some (PlatformInfo.from_tag info))
           (Some (PlatformInfo.to_tag info))
           (PlatformInfo.from_date info) (PlatformInfo.to_date info))
  end.

(** Truth of an [Optional[str]]: [None] and the empty string are false. *)
Definition truthy (v : option string) : option string :=
  match v with
  | Some EmptyString | None => None
  | Some s => Some s
  end.

(** One of the two [if] statements of [GitHubPlatformClient.get_commits]:
    the key is set from the configuration when the caller did not give it
    and the configured value is true. *)
Definition fill (key : string) (v : option string)
    (kwargs : gmap string string) : gmap string string :=
  match kwargs !! key, truthy v with
  | None, Some s => <[key := s]> kwargs
  | _, _ => kwargs
  end.

(** The keywords [get_commits] passes on to the API. *)
Definition commit_kwargs (config : GitHubConfig.t)
    (kwargs : gmap string string) : gmap string string :=
  fill "to_tag" (GitHubConfig.to_tag config)
    (fill "from_tag" (GitHubConfig.from_tag config) kwargs).

(** [GitHubAPI], as far as the client calls it. *)
Class GitHubAPI (Env : Type) := {
  get_issue_by_number : Z → Env → (PyExn + WorkItem) * Env;
  get_all_work_items : Env → (PyExn + list ItemTree) * Env;
  api_get_commits : gmap string string → Env → (PyExn + list CommitInfo) * Env
}.

(** The class [GitHubPlatformClient] as a [PlatformClient]; [Work] calls
    [get_commits] without keywords. *)
Definition github_client {Env : Type} {api : GitHubAPI Env}
    (config : GitHubConfig.t) : PlatformClient Env :=
  {| get_work_item_by_id := get_issue_by_number;
     get_work_items_with_details := get_all_work_items;
     get_commits := api_get_commits (commit_kwargs config ∅) |}.


(** ** More vocabulary *)

Section VocabularyMore.
Context {Env : Type}.
Implicit Types (w : Work Env).

(** Every key of the Store is the identity of the object it refers to. *)
Definition keyed w : Prop :=
  ∀ k a, In (k, a) (all w) →
    ∃ o : HierarchicalWorkItem, heap w !! a = Some o ∧ id o = k.

(** The relation of a step that keeps the Store keyed. *)
Definition keeps_keyed w w' : Prop := keyed w → keyed w'.

(** Objects and Store entries were only added, at the end; the roots, the
    groups and the listed identities are as they were. *)
Definition only_adds w w' : Prop :=
  grows w w' ∧ root_items w' = root_items w ∧ by_type w' = by_type w ∧
  item_ids w' = item_ids w.

(** The listed identities are as they were. *)
Definition same_item_ids w w' : Prop := item_ids w' = item_ids w.

(** A relation between the state before and the state after every run of
    a computation, whatever its outcome. *)
Definition moves {A} (R : Work Env → Work Env → Prop) (m : M Env A) : Prop :=
  ∀ w r w', m w = (r, w') → R w w'.

End VocabularyMore.

(** The calls a run on GitHub may make: the query for the work items, the
    summariser when item summaries are enabled, the commits when they are
    included; never the fetch of one item. *)
Definition github_call (config : Config) (c : call) : bool :=
  match c with
  | CallGetWorkItemById _ _ => false
  | CallGetWorkItemsWithDetails _ => true
  | CallSummarise _ _ => item_summary config
  | CallGetCommits _ => include_commits config
  end.

(** The successful fetches of the identities [ks], in order. *)
Definition fetches (ks : list Z) : list call :=
  map (λ k, CallGetWorkItemById k None) ks.

(** From [w] to [w'] the identities [ks], none of them stored in [w], were
    fetched one after the other and stored in that order. *)
Definition climbed {Env : Type} (w : Work Env) (ks : list Z) (w' : Work Env) :
    Prop :=
  (∃ d, all w' = all w ++ d ∧ map fst d = ks) ∧
  calls w' = calls w ++ fetches ks ∧
  NoDup ks ∧
  Forall (λ k, dict_mem (all w) k = false) ks.

(** The identities of the children of the object at [a]. *)
Definition child_ids {Env : Type} (w : Work Env) (a : ref) : list Z :=
  match heap w !! a with
  | Some o =>
      omap (λ c, (λ x : HierarchicalWorkItem, id x) <$> heap w !! c)
           (children o)
  | None => []
  end.

(** ** More collaborators for the examples *)

Module Samples.

(** A parser for addresses of the form [scheme://host/path]. *)
Fixpoint after_scheme (s : string) : string :=
  match s with
  | String ":" (String "/" (String "/" r)) => r
  | String _ r => after_scheme r
  | EmptyString => EmptyString
  end.

Fixpoint until_slash (s : string) : string * string :=
  match s with
  | EmptyString => (EmptyString, EmptyString)
  | String c r =>
      if Ascii.eqb c "/" then (EmptyString, s)
      else let '(host, rest) := until_slash r in (String c host, rest)
  end.

Definition urlparse (url : string) : ParseResult :=
  let '(host, rest) := until_slash (after_scheme url) in
  mkParseResult host rest.

(** Unquoting of the escaped space. *)
Fixpoint unquote (s : string) : string :=
  match s with
  | String "%" (String "2" (String "0" r)) => String " " (unquote r)
  | String c r => String c (unquote r)
  | EmptyString => EmptyString
  end.

Definition args (url from_tag to_tag : string) : ProjectArgs :=
  mkProjectArgs "Weaver" "1.0" "A changelog tool" url "query-1" "token"
    "elsewhere" "main" from_tag to_tag None None.

(** A client whose queries all return [reply]. *)
Definition query_client (reply : list WorkItem) : QueryClient nat :=
  {| get_work_items_from_query _ n := (inr reply, S n) |}.

(** Item 7 is stored; the reply has item 7 under another title's type,
    and the new item 8 twice. *)
Definition one_stored : Work nat :=
  mkWork [flat (Fixtures.item 7 "Bug" false false 0)] [(7, 0%nat)] [] [] []
         0%nat [].

Definition reply : list WorkItem :=
  [Fixtures.item 8 "Task" false false 0; Fixtures.item 7 "Epic" true false 0;
   Fixtures.item 8 "Bug" false false 0].

(** An item of identity 0 is stored beside the orphan 4. *)
Definition zero_stored : Work nat :=
  mkWork [flat (Fixtures.item 0 "Task" false false 0);
          flat (Fixtures.item 4 "Bug" false true 0)]
         [(0, 0%nat); (4, 1%nat)] [] [] [0; 4] 0%nat [].

End Samples.


(** * Properties *)

(** ** Dictionaries *)

Lemma dict_mem_get {V} (d : dict V) k :
  dict_mem d k = true ↔ ∃ v, dict_get d k = Some v.
Proof.
  unfold dict_mem. destruct (dict_get d k); split; eauto; try done.
  by intros [? ?].
Qed.

Lemma dict_get_app {V} (d d' : dict V) k :
  dict_get (d ++ d') k =
  match dict_get d k with Some v => Some v | None => dict_get d' k end.
Proof.
  induction d as [|[k' v'] d IH]; simpl; [done|].
  destruct (Z.eqb k' k); [done|apply IH].
Qed.

Lemma dict_set_fresh {V} (d : dict V) k v :
  dict_get d k = None → dict_set d k v = d ++ [(k, v)].
Proof.
  induction d as [|[k' v'] d IH]; simpl; [done|].
  destruct (Z.eqb k' k); [done|]. intros H. by rewrite IH.
Qed.

Lemma dict_get_set {V} (d : dict V) k v k' :
  dict_get (dict_set d k v) k' =
  if Z.eqb k k' then Some v else dict_get d k'.
Proof.
  induction d as [|[k0 v0] d IH]; simpl.
  - done.
  - destruct (Z.eqb_spec k0 k) as [->|Hne]; simpl.
    + by destruct (Z.eqb k k').
    + rewrite IH. destruct (Z.eqb_spec k0 k') as [->|Hne']; [|done].
      by destruct (Z.eqb_spec k k').
Qed.

(** ** Configuration flags *)

Lemma env_flag_values :
  env_flag None = true ∧ env_flag (Some "true") = true ∧
  env_flag (Some "TRUE") = true ∧ env_flag (Some "False") = false ∧
  env_flag (Some "1") = false.
Proof. repeat split. Qed.


(** ** The monad *)

Section Run.
Context {S : Type}.

Lemma bind_Ok {A B} (m : ST S A) (f : A → ST S B) s b s'' :
  bind m f s = (Ok b, s'') ↔ ∃ a s', m s = (Ok a, s') ∧ f a s' = (Ok b, s'').
Proof.
  unfold bind. destruct (m s) as [[a|e|h] s']; split.
  - eauto.
  - by intros (? & ? & [= -> ->] & ?).
  - done.
  - by intros (? & ? & ? & ?).
  - done.
  - by intros (? & ? & ? & ?).
Qed.


Lemma bind_run {A B} (m : ST S A) (f : A → ST S B) s a s' :
  m s = (Ok a, s') → bind m f s = f a s'.
Proof. unfold bind. by intros ->. Qed.

End Run.

(** ** [add] *)

Section Store.
Context {Env : Type}.
Implicit Types (w : Work Env) (p : HierarchicalWorkItem).

Lemma add_present w p a :
  dict_get (all w) (id p) = Some a → add p w = (Ok a, w).
Proof.
  intros Hget. unfold add, bind, gets, all_getitem, dict_mem.
  rewrite Hget. simpl. unfold bind, gets. by rewrite Hget.
Qed.

Lemma add_absent w p :
  dict_get (all w) (id p) = None →
  add p w =
    (Ok (length (heap w)),
     put_all (all w ++ [(id p, length (heap w))]) (put_heap (heap w ++ [p]) w)).
Proof.
  intros Hget. unfold add, bind, gets, all_getitem, dict_mem.
  rewrite Hget. simpl. unfold bind, gets. simpl.
  rewrite dict_get_set, Z.eqb_refl. unfold ret.
  by rewrite (dict_set_fresh _ _ _ Hget).
Qed.

(** [add] always returns, and what it does. *)
Lemma add_run (p : HierarchicalWorkItem) w :
  match dict_get (all w) (id p) with
  | Some a => add p w = (Ok a, w)
  | None =>
      add p w =
        (Ok (length (heap w)),
         put_all (all w ++ [(id p, length (heap w))])
           (put_heap (heap w ++ [p]) w))
  end.
Proof.
  destruct (dict_get (all w) (id p)) eqn:E.
  - by apply add_present.
  - by apply add_absent.
Qed.

Lemma external_put_env {A} (f : Env → (PyExn + A) * Env) record w r w' :
  external f record w = (r, w') →
  w' = put_env (f (env w)).2 (calls w ++ [record (failure (f (env w)).1)]) w.
Proof.
  unfold external. destruct (f (env w)) as [[e|a] e']; by intros [= <- <-].
Qed.

Lemma consult_put_env {A} (f : Env → (PyExn + A) * Env) w r w' :
  consult f w = (r, w') → w' = put_env (f (env w)).2 (calls w) w.
Proof.
  unfold consult. destruct (f (env w)) as [[e|a] e']; by intros [= <- <-].
Qed.

(** C2.  Two calls of [add] with payloads of one identity: the second
    returns the entry the first returned and changes nothing; the Store
    holds that entry under the identity; and when the identity was not
    stored before, the entry is the object built from the first payload. *)
Theorem add_twice_keeps_first w p1 p2 k :
  id p1 = k → id p2 = k →
  ∃ a w1,
    add p1 w = (Ok a, w1) ∧
    add p2 w1 = (Ok a, w1) ∧
    dict_get (all w1) k = Some a ∧
    (dict_mem (all w) k = false → heap w1 !! a = Some p1).
Proof.
  intros <- Hk. destruct (dict_get (all w) (id p1)) as [a|] eqn:Hget.
  - exists a, w. rewrite (add_present _ _ _ Hget).
    split; [done|]. split; [apply add_present; by rewrite Hk|].
    split; [done|]. unfold dict_mem. by rewrite Hget.
  - eexists _, _. rewrite (add_absent _ _ Hget). split; [done|].
    assert (dict_get (all w ++ [(id p1, length (heap w))]) (id p1)
            = Some (length (heap w))) as Hnew.
    { rewrite dict_get_app, Hget. simpl. by rewrite Z.eqb_refl. }
    split; [apply add_present; simpl; by rewrite Hk|].
    split; [done|]. intros _. simpl.
    rewrite lookup_app_r by lia. by rewrite Nat.sub_diag.
Qed.

End Store.

Lemma add_twice_keeps_first_witness :
  ∃ a w1,
    add (flat (Fixtures.item 7 "Bug" false false 0)) Fixtures.start = (Ok a, w1) ∧
    add (flat (Fixtures.item 7 "Task" true false 3)) w1 = (Ok a, w1) ∧
    dict_get (all w1) 7 = Some a ∧
    (dict_mem (all Fixtures.start) 7 = false →
     heap w1 !! a = Some (flat (Fixtures.item 7 "Bug" false false 0))).
Proof.
  apply (add_twice_keeps_first Fixtures.start
           (flat (Fixtures.item 7 "Bug" false false 0))
           (flat (Fixtures.item 7 "Task" true false 3)) 7); reflexivity.
Defined.

(** ** Batches *)

Section Batches.
Context {Env : Type} {loop : EventLoop Env}.
Implicit Types (w : Work Env).

Lemma omap_lookup_seq_from {A} (l : list A) : ∀ l0,
  omap (λ i, (l0 ++ l) !! i) (seq (length l0) (length l)) = l.
Proof.
  induction l as [|x l IH]; intros l0; [done|].
  simpl. rewrite list_lookup_middle by done. f_equal.
  specialize (IH (l0 ++ [x])). rewrite length_app, <- app_assoc in IH.
  simpl in IH. by rewrite Nat.add_1_r in IH.
Qed.

Lemma omap_lookup_seq {A} (l : list A) :
  omap (λ i, l !! i) (seq 0 (length l)) = l.
Proof. apply (omap_lookup_seq_from l []). Qed.

Lemma gather_run {A} (tasks : list (M Env A)) w :
  gather tasks w =
  (rs <- complete_all
           (in_completion_order (completion_order (env w) (length tasks))
              tasks) ;;
   match first_error rs with
   | Some e => raise e
   | None =>
       ret (in_task_order (completion_order (env w) (length tasks)) rs)
   end) w.
Proof. reflexivity. Qed.

(** The tasks of a batch, in the order in which they complete. *)
Lemma batch_tasks {A B} (f : A → M Env B) (l : list A) e :
  ∃ l', l' ≡ₚ l ∧
    in_completion_order (completion_order e (length (map f l))) (map f l)
    = map f l'.
Proof.
  assert (in_completion_order (completion_order e (length (map f l)))
            (map f l) ≡ₚ map f l) as Hperm.
  { unfold in_completion_order. rewrite completion_order_perm.
    by rewrite omap_lookup_seq. }
  apply Permutation_map_inv in Hperm as (l' & Heq & Hperm).
  exists l'. by split.
Qed.

(** A batch whose tasks all return is the sequence of its tasks. *)
Lemma complete_all_of_map_m {A B} (f : A → M Env B) (l : list A) : ∀ w bs w',
  map_m f l w = (Ok bs, w') →
  complete_all (map f l) w = (Ok (map inr bs), w').
Proof.
  induction l as [|x l IH]; intros w bs w'; simpl.
  - by intros [= <- <-].
  - intros H. apply bind_Ok in H as (b & w1 & Hx & H).
    apply bind_Ok in H as (bs' & w2 & Hl & [= <- <-]).
    rewrite Hx. by rewrite (bind_run _ _ _ _ _ (IH _ _ _ Hl)).
Qed.

Lemma map_m_of_complete_all {A B} (f : A → M Env B) (l : list A) :
  ∀ w rs w',
  complete_all (map f l) w = (Ok rs, w') → first_error rs = None →
  ∃ bs, map_m f l w = (Ok bs, w').
Proof.
  induction l as [|x l IH]; intros w rs w'; simpl.
  - intros [= <- <-] _. by exists [].
  - destruct (f x w) as [[b|e|h] w1] eqn:Hx; [| |done].
    + intros H. apply bind_Ok in H as (rs' & w2 & Hl & [= <- <-]).
      simpl. intros Hnone. destruct (IH _ _ _ Hl Hnone) as (bs & Hbs).
      exists (b :: bs). rewrite (bind_run _ _ _ _ _ Hx).
      by rewrite (bind_run _ _ _ _ _ Hbs).
    + intros H. by apply bind_Ok in H as (rs' & w2 & Hl & [= <- <-]).
Qed.

Lemma first_error_map_inr {A} (bs : list A) :
  first_error (map inr bs) = None.
Proof. by induction bs. Qed.

(** A batch that returns has run its tasks, in the order of completion,
    as a sequence; and a sequence in that order that returns is a batch
    that returns. *)
Lemma gather_sequence {A B} (f : A → M Env B) (l : list A) w :
  ∃ l', l' ≡ₚ l ∧
    (∀ bs w', gather (map f l) w = (Ok bs, w') →
       ∃ bs', map_m f l' w = (Ok bs', w')) ∧
    (∀ bs' w', map_m f l' w = (Ok bs', w') →
       ∃ bs, gather (map f l) w = (Ok bs, w')).
Proof.
  destruct (batch_tasks f l (env w)) as (l' & Hperm & Htasks).
  exists l'. split; [done|]. rewrite gather_run, Htasks. split.
  - intros bs w' H. apply bind_Ok in H as (rs & w1 & Hall & H).
    destruct (first_error rs) eqn:Herr; [done|]. injection H as _ <-.
    by apply (map_m_of_complete_all _ _ _ _ _ Hall).
  - intros bs' w' H. apply complete_all_of_map_m in H.
    rewrite (bind_run _ _ _ _ _ H), first_error_map_inr. by eexists.
Qed.

(** A relation that every task keeps is kept by the batch, whatever the
    outcomes. *)
Lemma complete_all_moves {A} (R : Work Env → Work Env → Prop)
    (tasks : list (M Env A)) :
  (∀ w, R w w) → (∀ w1 w2 w3, R w1 w2 → R w2 w3 → R w1 w3) →
  Forall (moves R) tasks → moves R (complete_all tasks).
Proof.
  intros Hrefl Htrans. induction 1 as [|t tasks Ht _ IH]; intros w r w'.
  - intros [= <- <-]. apply Hrefl.
  - simpl. destruct (t w) as [[a|e|h] w1] eqn:E; unfold bind.
    + destruct (complete_all tasks w1) as [[rs|e'|h'] w2] eqn:E2;
        intros [= <- <-];
        (eapply Htrans; [apply (Ht _ _ _ E)|apply (IH _ _ _ E2)]).
    + destruct (complete_all tasks w1) as [[rs|e'|h'] w2] eqn:E2;
        intros [= <- <-];
        (eapply Htrans; [apply (Ht _ _ _ E)|apply (IH _ _ _ E2)]).
    + intros [= <- <-]. apply (Ht _ _ _ E).
Qed.

Lemma gather_moves {A B} (R : Work Env → Work Env → Prop)
    (f : A → M Env B) (l : list A) :
  (∀ w, R w w) → (∀ w1 w2 w3, R w1 w2 → R w2 w3 → R w1 w3) →
  (∀ x, moves R (f x)) → moves R (gather (map f l)).
Proof.
  intros Hrefl Htrans Hf w r w'. rewrite gather_run.
  destruct (batch_tasks f l (env w)) as (l' & _ & ->). unfold bind.
  assert (moves R (complete_all (map f l'))) as Hall.
  { apply complete_all_moves; [done|done|].
    apply List.Forall_forall. intros t Ht.
    apply in_map_iff in Ht as (x & <- & _). apply Hf. }
  destruct (complete_all (map f l') w) as [[rs|e|h] w1] eqn:E.
  - destruct (first_error rs); intros [= <- <-]; apply (Hall _ _ _ E).
  - intros [= <- <-]. apply (Hall _ _ _ E).
  - intros [= <- <-]. apply (Hall _ _ _ E).
Qed.

End Batches.

(** ** Read-only filters *)

Section Filters.
Context {Env : Type}.
Implicit Types (w : Work Env) (o : HierarchicalWorkItem).

Lemma filter_m_reads p q l w r w' :
  reads p q → filter_m p l w = (r, w') →
  w' = w ∧
  (∀ l', r = Ok l' →
     l' = List.filter (holds q w) l ∧ Forall (λ a, is_Some (heap w !! a)) l) ∧
  (∀ e, r ≠ Raise e).
Proof.
  intros Hp. revert r w'. induction l as [|a l IH]; intros r w'.
  - simpl. unfold ret. intros [= <- <-]. split; [done|]. split.
    + by intros ? [= <-].
    + done.
  - simpl. unfold bind at 1. rewrite Hp. unfold holds at 1.
    destruct (heap w !! a) as [o|] eqn:Ho.
    + unfold bind. destruct (filter_m p l w) as [[l1|e|h] w1] eqn:Hl;
        destruct (IH _ _ eq_refl) as (-> & Hok & Hne).
      * unfold ret. intros [= <- <-]. split; [done|]. split; [|done].
        intros ? [= <-]. destruct (Hok _ eq_refl) as [-> Hall].
        split; [|constructor; eauto]. by destruct (q w o).
      * by destruct (Hne e).
      * intros [= <- <-]. done.
    + intros [= <- <-]. done.
Qed.

Lemma filter_m_reads_total p q l w :
  reads p q → Forall (λ a, is_Some (heap w !! a)) l →
  filter_m p l w = (Ok (List.filter (holds q w) l), w).
Proof.
  intros Hp. induction 1 as [|a l [o Ho] _ IH]; [done|].
  simpl. unfold bind at 1. rewrite Hp. unfold holds at 1.
  destruct (heap w !! a) as [o'|]; [|done].
  unfold bind. rewrite IH. unfold ret. by destruct (q w o').
Qed.

End Filters.

(** ** Summaries *)

Section Summaries.
Context {Env : Type} {client : PlatformClient Env} {model : Model Env}
        {builtins : Builtins} {loop : EventLoop Env}.
Variable config : Config.
Implicit Types (w : Work Env) (o : HierarchicalWorkItem).

Lemma is_candidate_reads : reads (is_candidate (Env := Env)) candidate_test.
Proof.
  intros a w. unfold is_candidate, bind, deref.
  by destruct (heap w !! a).
Qed.

Lemma summary_candidates_spec w r w' :
  summary_candidates w = (r, w') →
  w' = w ∧
  (∀ l, r = Ok l →
     l = List.filter (holds candidate_test w) (dict_values (all w))).
Proof.
  unfold summary_candidates, bind, gets. intros H.
  destruct (filter_m_reads _ _ _ _ _ _ is_candidate_reads H) as (-> & Hok & _).
  split; [done|]. intros l ->. by destruct (Hok _ eq_refl).
Qed.

Lemma summary_candidates_total w :
  store_ok w →
  summary_candidates w =
    (Ok (List.filter (holds candidate_test w) (dict_values (all w))), w).
Proof.
  intros Hok. unfold summary_candidates, bind, gets.
  by apply filter_m_reads_total; [apply is_candidate_reads|].
Qed.

(** C7.  An item whose type is ["commit"] in any letter case comes back
    from [summarize_work_item] as it is, the state and the list of calls
    untouched (the summariser is not called); and no candidate of the
    summary pass has such a type. *)
Theorem commit_items_not_summarised w :
  (∀ wi o, heap w !! wi = Some o → lower (type o) = "commit" →
     summarize_work_item config wi w = (Ok wi, w)) ∧
  (∀ l w', summary_candidates w = (Ok l, w') →
     ∀ a, In a l → ∃ o, heap w !! a = Some o ∧ lower (type o) ≠ "commit").
Proof.
  split.
  - intros wi o Ho Hty. unfold summarize_work_item, bind, deref.
    by rewrite Ho, Hty.
  - intros l w' H a Ha.
    destruct (summary_candidates_spec _ _ _ H) as [_ Hl].
    rewrite (Hl _ eq_refl) in Ha. apply filter_In in Ha as [_ Ha].
    unfold holds in Ha. destruct (heap w !! a) as [o|]; [|done].
    exists o. split; [done|]. unfold candidate_test in Ha.
    apply andb_true_iff in Ha as [_ Ha]. intros Heq. by rewrite Heq in Ha.
Qed.

End Summaries.

Lemma commit_items_not_summarised_witness :
  summarize_work_item (builtins := Fixtures.toy_builtins) (model := Fixtures.echo_model)
    Fixtures.azure 0%nat
    (mkWork [flat (Fixtures.item 9 "COMMIT" false true 0)] [(9, 0%nat)] [] []
            [9] 0%nat [])
  = (Ok 0%nat,
     mkWork [flat (Fixtures.item 9 "COMMIT" false true 0)] [(9, 0%nat)] [] []
            [9] 0%nat []).
Proof.
  apply (proj1 (commit_items_not_summarised Fixtures.azure _) 0%nat
           (flat (Fixtures.item 9 "COMMIT" false true 0)));
    reflexivity.
Defined.

(** C5 as stated fails: with item summaries enabled, the run over the
    example table stores item 2 (type ["Feature"], fetched as the parent of
    item 1), which is no candidate of the pass and ends without a summary;
    the summariser was called twice, for items 1 and 4. *)
Lemma summary_pass_skips_fetched_parent :
  ∃ roots w a (o : HierarchicalWorkItem) l,
    get_items_with_details (client := Fixtures.devops)
      (model := Fixtures.echo_model) (builtins := Fixtures.toy_builtins)
      (loop := Fixtures.in_order)
      Fixtures.azure 10 Fixtures.start = (Ok roots, w) ∧
    item_summary Fixtures.azure = true ∧
    In (2, a) (all w) ∧ heap w !! a = Some o ∧
    type o = "Feature" ∧ type o ≠ "Commit" ∧ summary o = None ∧
    summary_candidates w = (Ok l, w) ∧ ¬ In a l ∧
    summarise_calls (calls w) = 2%nat.
Proof.
  eexists _, _, 2%nat, _, _.
  split; [vm_compute; reflexivity|].
  split; [reflexivity|]. split; [vm_compute; tauto|].
  split; [reflexivity|]. split; [reflexivity|]. split; [discriminate|].
  split; [reflexivity|]. split; [vm_compute; reflexivity|].
  split; [|reflexivity]. simpl. intros [|[|[]]]; discriminate.
Qed.

(** ** The commit adapter *)

Section Commits.
Context {Env : Type} {client : PlatformClient Env} {model : Model Env}
        {builtins : Builtins} {loop : EventLoop Env}.
Variable config : Config.
Implicit Types (w : Work Env) (o : HierarchicalWorkItem).

Lemma alloc_run w o :
  alloc o w = (Ok (length (heap w)), put_heap (heap w ++ [o]) w).
Proof. done. Qed.

Lemma lookup_alloc (h : list HierarchicalWorkItem) o :
  (h ++ [o]) !! length h = Some o.
Proof. rewrite lookup_app_r by lia. by rewrite Nat.sub_diag. Qed.

(** C9.  The adapter creates one new object and changes nothing else.  Its
    identity is [hash] of the commit's [sha] (so two commits with one [sha]
    get one identity), its type is ["Commit"], its title the commit
    message, its state ["N/A"]; it is neither root nor parented, it is
    flagged orphan, and it has no children. *)
Theorem convert_commit_to_work_item_fields (commit : CommitInfo) w :
  ∃ a o,
    _convert_commit_to_work_item commit w
      = (Ok a, put_heap (heap w ++ [o]) w) ∧
    a = length (heap w) ∧
    (heap w ++ [o]) !! a = Some o ∧
    id o = py_hash (commit_sha commit) ∧
    type o = "Commit" ∧
    title o = commit_message commit ∧
    state o = "N/A" ∧
    root o = false ∧
    orphan o = true ∧
    children o = [] ∧
    (∀ commit', commit_sha commit' = commit_sha commit →
       id (commit_work_item commit') = id o).
Proof.
  exists (length (heap w)), (commit_work_item commit).
  split; [done|]. split; [done|]. split; [apply lookup_alloc|].
  repeat (split; [done|]). intros commit' Hsha. simpl. by rewrite Hsha.
Qed.

End Commits.

(** ** The orphan bucket *)

Section Orphans.
Context {Env : Type} {client : PlatformClient Env} {model : Model Env}
        {builtins : Builtins} {loop : EventLoop Env}.
Variable config : Config.
Implicit Types (w : Work Env) (o : HierarchicalWorkItem).

Lemma put_heap_same w : put_heap (heap w) w = w.
Proof. by destruct w. Qed.

Lemma update_run a f w o :
  heap w !! a = Some o →
  update a f w = (Ok tt, put_heap (<[a := f o]> (heap w)) w).
Proof. intros Ho. unfold update, bind, deref. by rewrite Ho. Qed.

(** Writing one attribute of each object of a list: an object written
    twice (two references to it) ends as after one write. *)
Lemma for_each_update (f : HierarchicalWorkItem → HierarchicalWorkItem) l w :
  (∀ o, f (f o) = f o) →
  Forall (λ a, is_Some (heap w !! a)) l →
  ∃ h, for_each l (λ a, update a f) w = (Ok tt, put_heap h w) ∧
       length h = length (heap w) ∧
       ∀ a o, heap w !! a = Some o →
         h !! a = Some (if bool_decide (a ∈ l) then f o else o).
Proof.
  intros Hf. revert w. induction l as [|a l IH]; intros w Hall.
  - exists (heap w). simpl. unfold ret. by rewrite put_heap_same.
  - apply Forall_cons in Hall as [[o Ho] Hall].
    destruct (IH (put_heap (<[a := f o]> (heap w)) w)) as (h & Hrun & Hlen & Hh).
    { simpl. eapply Forall_impl; [exact Hall|]. simpl. intros b [ob Hb].
      apply lookup_lt_is_Some. rewrite length_insert.
      by apply lookup_lt_is_Some. }
    exists h. simpl. rewrite (bind_run _ _ _ _ _ (update_run _ _ _ _ Ho)).
    rewrite Hrun. split; [done|]. simpl in Hlen. rewrite length_insert in Hlen.
    split; [done|]. intros b ob Hb. simpl in Hh.
    destruct (decide (b = a)) as [->|Hne].
    + rewrite (Hh a (f o)).
      2:{ apply list_lookup_insert_eq. by apply lookup_lt_is_Some. }
      assert (ob = o) as -> by congruence.
      rewrite (bool_decide_eq_true_2 (a ∈ a :: l)) by set_solver.
      destruct (bool_decide (a ∈ l)); by rewrite ?Hf.
    + rewrite (Hh b ob) by (by rewrite list_lookup_insert_ne).
      rewrite (bool_decide_ext (b ∈ a :: l) (b ∈ l)); [done|set_solver].
Qed.

Lemma orphaned_reads : reads (orphaned (Env := Env)) orphan_test.
Proof.
  intros a w. unfold orphaned, bind, deref. by destruct (heap w !! a).
Qed.

Lemma orphans_valid w a : In a (orphans w) → is_Some (heap w !! a).
Proof.
  unfold orphans. rewrite filter_In. unfold holds. intros [_ H].
  by destruct (heap w !! a).
Qed.

Lemma orphans_spec w a :
  In a (orphans w) ↔
  In a (dict_values (all w)) ∧
  ∃ o, heap w !! a = Some o ∧ orphan o = true ∧ id o ≠ 0.
Proof.
  unfold orphans. rewrite filter_In. unfold holds, orphan_test.
  split.
  - intros [Hin H]. split; [done|]. destruct (heap w !! a) as [o|]; [|done].
    exists o. apply andb_true_iff in H as [H1 H2]. split; [done|].
    split; [done|]. apply negb_true_iff, Z.eqb_neq in H2. done.
  - intros [Hin (o & -> & H1 & H2)]. split; [done|]. rewrite H1. simpl.
    by apply negb_true_iff, Z.eqb_neq.
Qed.

(** What [_create_other_parent] does when it buckets. *)
Lemma create_other_parent_run w :
  platform config ≠ GITHUB → store_ok w → orphans w ≠ [] →
  ∃ h, _create_other_parent config w =
         (Ok tt, put_heap h (put_all (dict_set (all w) 0 (length (heap w))) w)) ∧
       length h = S (length (heap w)) ∧
       h !! length (heap w) = Some (with_children (orphans w) other_work_item) ∧
       ∀ a o, heap w !! a = Some o →
         h !! a = Some (if bool_decide (a ∈ orphans w)
                        then with_parent_id 0 o else o).
Proof.
  intros Hp Hok Hne. unfold _create_other_parent.
  destruct (platform config); [|done]. simpl.
  unfold bind at 1. unfold gets at 1.
  rewrite (bind_run _ _ _ _ _
             (filter_m_reads_total _ _ _ _ orphaned_reads Hok)).
  fold (orphans w). destruct (orphans w) as [|a0 l0] eqn:Hl; [done|].
  rewrite <- Hl in *. clear Hne.
  rewrite (bind_run _ _ _ _ _ (alloc_run _ _)).
  rewrite (bind_run _ _ _ _ _
             (update_run (length (heap w)) (with_children (orphans w))
                (put_heap (heap w ++ [other_work_item]) w) other_work_item
                (lookup_alloc _ _))).
  simpl. unfold bind at 1, modify at 1. simpl.
  set (w2 := put_all _ _).
  destruct (for_each_update (with_parent_id 0) (orphans w) w2)
    as (h & Hrun & Hlen & Hh); [done| |].
  { apply List.Forall_forall. intros a Ha. apply orphans_valid in Ha.
    apply lookup_lt_is_Some. subst w2. simpl. rewrite length_insert, length_app.
    apply lookup_lt_is_Some in Ha. simpl. lia. }
  exists h. rewrite Hrun. subst w2. simpl in *. split; [done|].
  rewrite length_insert, length_app in Hlen. simpl in Hlen.
  split; [lia|].
  assert (<[length (heap w) := with_children (orphans w) other_work_item]>
            (heap w ++ [other_work_item])
          = heap w ++ [with_children (orphans w) other_work_item]) as Hins.
  { rewrite insert_app_r_alt by lia. by rewrite Nat.sub_diag. }
  rewrite Hins in Hh. split.
  - rewrite (Hh _ _ (lookup_alloc _ _)).
    rewrite bool_decide_eq_false_2; [done|].
    intros Hin. apply list_elem_of_In, orphans_valid, lookup_lt_is_Some in Hin.
    lia.
  - intros a o Ho. apply Hh. rewrite lookup_app_l; [done|].
    by eapply lookup_lt_Some.
Qed.

Lemma create_other_parent_idle w :
  store_ok w → platform config = GITHUB ∨ orphans w = [] →
  _create_other_parent config w = (Ok tt, w).
Proof.
  intros Hok H. unfold _create_other_parent.
  destruct (platform config) eqn:Hp; simpl; [|done].
  destruct H as [?|Hnil]; [done|].
  unfold bind at 1. unfold gets at 1.
  rewrite (bind_run _ _ _ _ _
             (filter_m_reads_total _ _ _ _ orphaned_reads Hok)).
  fold (orphans w). by rewrite Hnil.
Qed.

(** C3.  Without native hierarchy and with a non-empty set of stored
    orphans (identity 0 apart), the step stores under identity 0 a new
    node of type and title ["Other"], root and not orphan, whose children
    are those orphans, and every one of them has its parent identity set
    to 0. *)
Theorem create_other_parent_buckets_orphans w :
  platform config ≠ GITHUB → store_ok w → orphans w ≠ [] →
  ∃ w' b (other : HierarchicalWorkItem),
    _create_other_parent config w = (Ok tt, w') ∧
    dict_get (all w') 0 = Some b ∧
    heap w' !! b = Some other ∧
    id other = 0 ∧ type other = "Other" ∧ title other = "Other" ∧
    root other = true ∧ orphan other = false ∧
    children other = orphans w ∧
    (∀ a, In a (children other) ↔
       In a (dict_values (all w)) ∧
       ∃ o, heap w !! a = Some o ∧ orphan o = true ∧ id o ≠ 0) ∧
    (∀ a, In a (orphans w) →
       ∃ o, heap w !! a = Some o ∧ heap w' !! a = Some (with_parent_id 0 o)).
Proof.
  intros Hp Hok Hne.
  destruct (create_other_parent_run w Hp Hok Hne) as (h & Hrun & Hlen & Hb & Hh).
  eexists _, (length (heap w)), _. split; [exact Hrun|]. simpl.
  split; [by rewrite dict_get_set|]. split; [exact Hb|].
  repeat (split; [done|]). split; [apply orphans_spec|].
  intros a Ha. destruct (orphans_valid _ _ Ha) as [o Ho]. exists o.
  split; [done|]. rewrite (Hh _ _ Ho).
  rewrite bool_decide_eq_true_2; [done|]. by apply list_elem_of_In.
Qed.

(** C10.  The step keeps every attribute of every object except, for the
    bucketed orphans, [parent_id], which becomes 0: their orphan flag stays
    set and their type, title, state and children are as before; objects
    that are not bucketed are untouched; and with no orphan to bucket (or
    on GitHub) the whole state is unchanged. *)
Theorem create_other_parent_frame w :
  store_ok w →
  ∃ w',
    _create_other_parent config w = (Ok tt, w') ∧
    (∀ a o, heap w !! a = Some o →
       ∃ o', heap w' !! a = Some o' ∧
             o' = with_parent_id (parent_id o') o ∧
             (platform config ≠ GITHUB → In a (orphans w) →
                parent_id o' = 0 ∧ orphan o' = true ∧ type o' = type o ∧
                title o' = title o ∧ state o' = state o ∧
                children o' = children o) ∧
             (¬ (platform config ≠ GITHUB ∧ In a (orphans w)) → o' = o)) ∧
    (orphans w = [] → w' = w ∧ dict_get (all w') 0 = dict_get (all w) 0).
Proof.
  intros Hok.
  assert (∀ o, o = with_parent_id (parent_id o) o) as Hid.
  { by intros [[] ?]. }
  assert ((platform config ≠ GITHUB ∧ orphans w ≠ []) ∨
          (platform config = GITHUB ∨ orphans w = [])) as [[Hp Hne]|Hn].
  { destruct (platform config); [|by right; left].
    destruct (orphans w); [by right; right|by left]. }
  - destruct (create_other_parent_run w Hp Hok Hne) as (h & Hrun & Hlen & Hb & Hh).
    eexists. split; [exact Hrun|]. split; [|done].
    intros a o Ho. simpl. rewrite (Hh _ _ Ho).
    case_bool_decide as Hin.
    + exists (with_parent_id 0 o). split; [done|]. split; [done|].
      split.
      * intros _ Hin'. apply orphans_spec in Hin' as [_ (o1 & Ho1 & Horph & _)].
        assert (o1 = o) as -> by congruence. done.
      * intros Hnot. destruct Hnot. split; [done|]. by apply list_elem_of_In.
    + exists o. split; [done|]. split; [apply Hid|]. split; [|done].
      intros _ Hin'. destruct Hin. by apply list_elem_of_In.
  - exists w. rewrite create_other_parent_idle by done.
    split; [done|]. split; [|done].
    intros a o Ho. exists o. split; [done|]. split; [apply Hid|].
    split; [|done]. intros Hp Hin. destruct Hn as [?|Hnil]; [done|].
    by rewrite Hnil in Hin.
Qed.

End Orphans.

(** ** Parent resolution *)

Section Parents.
Context {Env : Type} {client : PlatformClient Env} {model : Model Env}
        {builtins : Builtins} {loop : EventLoop Env}.
Variable config : Config.
Implicit Types (w : Work Env) (o : HierarchicalWorkItem).

Lemma dict_mem_app {V} (d d' : dict V) k :
  dict_mem d k = true → dict_mem (d ++ d') k = true.
Proof.
  unfold dict_mem. rewrite dict_get_app. by destruct (dict_get d k).
Qed.

Lemma dict_mem_last {V} (d : dict V) k v : dict_mem (d ++ [(k, v)]) k = true.
Proof.
  unfold dict_mem. rewrite dict_get_app. destruct (dict_get d k); [done|].
  simpl. by rewrite Z.eqb_refl.
Qed.

Lemma grows_refl w : grows w w.
Proof. split; exists []; by rewrite app_nil_r. Qed.

Lemma grows_trans w1 w2 w3 : grows w1 w2 → grows w2 w3 → grows w1 w3.
Proof.
  intros [[h1 H1] [d1 D1]] [[h2 H2] [d2 D2]]. split.
  - exists (h1 ++ h2). by rewrite H2, H1, app_assoc.
  - exists (d1 ++ d2). by rewrite D2, D1, app_assoc.
Qed.

Lemma grows_lookup w w' a o :
  grows w w' → heap w !! a = Some o → heap w' !! a = Some o.
Proof. intros [[h ->] _] Ho. by apply lookup_app_l_Some. Qed.

Lemma grows_mem w w' k :
  grows w w' → dict_mem (all w) k = true → dict_mem (all w') k = true.
Proof. intros [_ [d ->]]. apply dict_mem_app. Qed.

Lemma grows_In w w' k a : grows w w' → In (k, a) (all w) → In (k, a) (all w').
Proof. intros [_ [d ->]] H. apply in_or_app. by left. Qed.

Lemma grows_resolved w w' a : grows w w' → resolved w a → resolved w' a.
Proof.
  intros Hg (o & Ho & Hp). exists o. split; [by eapply grows_lookup|].
  destruct Hp as [?|?]; [by left|right; by eapply grows_mem].
Qed.

Lemma new_resolved_refl w : new_resolved w w.
Proof. intros k a ?. by left. Qed.

Lemma new_resolved_trans w1 w2 w3 :
  grows w2 w3 → new_resolved w1 w2 → new_resolved w2 w3 → new_resolved w1 w3.
Proof.
  intros Hg H12 H23 k a Hin. destruct (H23 _ _ Hin) as [Hin2|?]; [|by right].
  destruct (H12 _ _ Hin2) as [?|Hr]; [by left|right].
  by eapply grows_resolved.
Qed.

Lemma same_engine_refl w : same_engine w w.
Proof. exists (env w), (calls w). by destruct w. Qed.

Lemma same_engine_trans w1 w2 w3 :
  same_engine w1 w2 → same_engine w2 w3 → same_engine w1 w3.
Proof. intros (e & c & ->) (e' & c' & ->). by exists e', c'. Qed.

(** A fetch that succeeds is the [add] of what the client returned. *)
Lemma get_item_by_id_run k w wi e' :
  get_work_item_by_id k (env w) = (inr wi, e') →
  get_item_by_id k w =
    add (flat wi) (put_env e' (calls w ++ [CallGetWorkItemById k None]) w).
Proof.
  intros H. unfold get_item_by_id, bind at 1, external. by rewrite H.
Qed.

Lemma get_item_by_id_known k w :
  always_found → dict_mem (all w) k = true →
  ∃ a w', get_item_by_id k w = (Ok a, w') ∧ same_engine w w'.
Proof.
  intros Hfound Hmem. destruct (Hfound k (env w)) as (wi & e' & Hget & Hid).
  rewrite (get_item_by_id_run _ _ _ _ Hget).
  apply dict_mem_get in Hmem as [a Ha].
  exists a. eexists. split.
  - apply add_present. simpl. by rewrite Hid.
  - by eexists _, _.
Qed.

Lemma get_item_by_id_new k w :
  always_found → dict_mem (all w) k = false →
  ∃ wi w', get_item_by_id k w = (Ok (length (heap w)), w') ∧
    heap w' = heap w ++ [flat wi] ∧
    all w' = all w ++ [(k, length (heap w))] ∧
    get_work_item_by_id k (env w) = (inr wi, env w') ∧ id wi = k.
Proof.
  intros Hfound Hmem. destruct (Hfound k (env w)) as (wi & e' & Hget & Hid).
  rewrite (get_item_by_id_run _ _ _ _ Hget).
  exists wi. eexists. rewrite add_absent.
  2:{ simpl. rewrite Hid. unfold dict_mem in Hmem.
      by destruct (dict_get (all w) k). }
  simpl. rewrite Hid. done.
Qed.

(** The climb from one item: what a completed climb leaves. *)
Lemma walk_parents_Ok fuel : ∀ cur tf w tf' w',
  always_found →
  walk_parents fuel cur tf w = (Ok tf', w') →
  grows w w' ∧ resolved w' cur ∧ new_resolved w w' ∧
  (∀ k, k ∈ tf' → k ∈ tf ∨ dict_mem (all w') k = true).
Proof.
  induction fuel as [|fuel IH]; intros cur tf w tf' w' Hfound; [done|].
  simpl. unfold bind at 1, deref.
  destruct (heap w !! cur) as [o|] eqn:Ho; [|done].
  unfold bind at 1, gets.
  destruct (negb (Z.eqb (parent_id o) 0)
            && negb (dict_mem (all w) (parent_id o)))
    eqn:Hc.
  - apply andb_true_iff in Hc as [Hnz Hmem].
    apply negb_true_iff in Hmem.
    destruct (get_item_by_id_new _ _ Hfound Hmem)
      as (wi & w2 & Hrun & Hheap & Hall & _ & Hid).
    rewrite (bind_run _ _ _ _ _ Hrun). intros Hwalk.
    destruct (IH _ _ _ _ _ Hfound Hwalk) as (Hg & Hres & Hnew & Htf).
    assert (grows w w2) as Hg2.
    { split; eexists; eauto. }
    split; [by eapply grows_trans|]. split; [|split].
    + exists o. split.
      * eapply grows_lookup; [by eapply grows_trans|done].
      * right. eapply grows_mem; [exact Hg|]. rewrite Hall.
        apply dict_mem_last.
    + intros k a Hin. destruct (Hnew _ _ Hin) as [Hin2|?]; [|by right].
      rewrite Hall in Hin2. apply in_app_or in Hin2 as [?|[[= <- <-]|[]]].
      * by left.
      * by right.
    + intros k Hk. destruct (Htf _ Hk) as [Hk'|?]; [|by right].
      apply elem_of_union in Hk' as [?|Hk']; [by left|].
      apply elem_of_singleton in Hk' as ->. right.
      eapply grows_mem; [exact Hg|]. rewrite Hall. apply dict_mem_last.
  - unfold ret. intros [= <- <-].
    split; [apply grows_refl|]. split; [|split].
    + exists o. split; [done|].
      apply andb_false_iff in Hc as [Hc|Hc]; apply negb_false_iff in Hc.
      * left. by apply Z.eqb_eq.
      * by right.
    + apply new_resolved_refl.
    + intros k ?. by left.
Qed.

Lemma fold_walk_Ok fuel : ∀ items tf w tf' w',
  always_found →
  fold_m (λ to_fetch item, walk_parents fuel item to_fetch) tf items w
    = (Ok tf', w') →
  grows w w' ∧ Forall (resolved w') items ∧ new_resolved w w' ∧
  (∀ k, k ∈ tf' → k ∈ tf ∨ dict_mem (all w') k = true).
Proof.
  induction items as [|a items IH]; intros tf w tf' w' Hfound.
  - simpl. unfold ret. intros [= <- <-].
    split; [apply grows_refl|]. split; [done|].
    split; [apply new_resolved_refl|]. intros k ?. by left.
  - simpl. intros Hrun. apply bind_Ok in Hrun as (tf1 & w1 & Hwalk & Hrest).
    destruct (walk_parents_Ok _ _ _ _ _ _ Hfound Hwalk)
      as (Hg1 & Hres1 & Hnew1 & Htf1).
    destruct (IH _ _ _ _ Hfound Hrest) as (Hg2 & Hres2 & Hnew2 & Htf2).
    split; [by eapply grows_trans|]. split; [|split].
    + constructor; [by eapply grows_resolved|done].
    + by eapply new_resolved_trans.
    + intros k Hk. destruct (Htf2 _ Hk) as [Hk1|?]; [|by right].
      destruct (Htf1 _ Hk1) as [?|?]; [by left|right].
      by eapply grows_mem.
Qed.

(** The batches: every identity asked for is stored already, so each
    fetch ends in an [add] that changes nothing. *)
Lemma map_known_ids (batch : list Z) : ∀ w,
  always_found →
  Forall (λ k, dict_mem (all w) k = true) batch →
  ∃ l w', map_m get_item_by_id batch w = (Ok l, w') ∧ same_engine w w'.
Proof.
  induction batch as [|k batch IH]; intros w Hfound Hall.
  - exists [], w. split; [done|apply same_engine_refl].
  - apply Forall_cons in Hall as [Hk Hall].
    destruct (get_item_by_id_known _ _ Hfound Hk) as (a & w1 & Hrun & Hsame).
    destruct (IH w1 Hfound) as (l & w2 & Hrun2 & Hsame2).
    { destruct Hsame as (e & c & ->). done. }
    exists (a :: l), w2. simpl. rewrite (bind_run _ _ _ _ _ Hrun).
    rewrite (bind_run _ _ _ _ _ Hrun2). split; [done|].
    by eapply same_engine_trans.
Qed.

Lemma gather_known_ids (batch : list Z) w :
  always_found →
  Forall (λ k, dict_mem (all w) k = true) batch →
  ∃ l w', gather (map get_item_by_id batch) w = (Ok l, w') ∧ same_engine w w'.
Proof.
  intros Hfound Hall.
  destruct (gather_sequence get_item_by_id batch w) as (l' & Hperm & _ & Hrun).
  destruct (map_known_ids l' w Hfound) as (bs' & w' & Hseq & Hsame).
  { by rewrite Hperm. }
  destruct (Hrun _ _ Hseq) as (bs & Hg). by exists bs, w'.
Qed.

Lemma batches_known_ids (ids : list Z) (starts : list nat) : ∀ w,
  always_found →
  Forall (λ k, dict_mem (all w) k = true) ids →
  ∃ w', for_each starts (λ i,
          let batch := slice ids i (i + batch_size) in
          do gather (map get_item_by_id batch) ;; ret tt) w = (Ok tt, w') ∧
        same_engine w w'.
Proof.
  induction starts as [|i starts IH]; intros w Hfound Hall.
  - exists w. split; [done|apply same_engine_refl].
  - destruct (gather_known_ids (slice ids i (i + batch_size)) w Hfound)
      as (l & w1 & Hrun & Hsame).
    { unfold slice. apply List.Forall_forall. intros k Hk.
      rewrite List.Forall_forall in Hall. apply Hall.
      apply list_elem_of_In. apply list_elem_of_In in Hk.
      by apply subseteq_take, subseteq_drop in Hk. }
    destruct (IH w1 Hfound) as (w2 & Hrun2 & Hsame2).
    { destruct Hsame as (e & c & ->). done. }
    assert ((do gather (map get_item_by_id (slice ids i (i + batch_size))) ;;
             ret tt) w = (Ok tt, w1)) as Hb.
    { by rewrite (bind_run _ _ _ _ _ Hrun). }
    exists w2. cbn [for_each]. rewrite (bind_run _ _ _ _ _ Hb).
    split; [done|]. by eapply same_engine_trans.
Qed.

Lemma same_engine_closed w w' : same_engine w w' → closed w → closed w'.
Proof. by intros (e & c & ->). Qed.

Lemma resolved_closed w :
  (∀ k a, In (k, a) (all w) → resolved w a) → closed w.
Proof.
  intros H k a o Hin Ho Hnz. destruct (H _ _ Hin) as (o' & Ho' & [?|?]).
  - congruence.
  - congruence.
Qed.

(** Partial correctness: a completed resolution leaves a closed Store. *)
Lemma fetch_parents_closed fuel w w' :
  platform config = AZURE_DEVOPS → always_found →
  _fetch_parents config fuel w = (Ok tt, w') → closed w'.
Proof.
  intros Hp Hfound. unfold _fetch_parents. rewrite Hp. simpl.
  unfold bind at 1, gets. intros Hrun.
  apply bind_Ok in Hrun as (tf & w1 & Hfold & Hbatch).
  destruct (fold_walk_Ok _ _ _ _ _ _ Hfound Hfold) as (Hg & Hres & Hnew & Htf).
  destruct (batches_known_ids (elements tf)
              (py_range 0 (length (elements tf)) batch_size) w1 Hfound)
    as (w2 & Hrun2 & Hsame).
  { apply List.Forall_forall. intros k Hk.
    apply list_elem_of_In, elem_of_elements in Hk.
    destruct (Htf _ Hk) as [Hk'|?]; [|done]. set_solver. }
  pose proof (eq_trans (eq_sym Hbatch) Hrun2) as [= ->].
  apply (same_engine_closed w1); [done|]. apply resolved_closed.
  intros k a Hin. destruct (Hnew _ _ Hin) as [Hin0|?]; [|done].
  rewrite List.Forall_forall in Hres. apply Hres.
  unfold dict_values. by apply (in_map snd) in Hin0.
Qed.

(** *** Termination *)

Lemma filter_le_of_imp {A} (P Q : A → bool) (l : list A) :
  (∀ x, Q x = true → P x = true) →
  (length (List.filter Q l) ≤ length (List.filter P l))%nat.
Proof.
  intros HQP. induction l as [|x l IH]; simpl; [done|].
  destruct (Q x) eqn:HQ.
  - rewrite (HQP _ HQ). simpl. lia.
  - destruct (P x); simpl; lia.
Qed.

Lemma filter_lt_of_imp {A} (P Q : A → bool) (l : list A) x :
  (∀ x, Q x = true → P x = true) →
  In x l → P x = true → Q x = false →
  (length (List.filter Q l) < length (List.filter P l))%nat.
Proof.
  intros HQP. induction l as [|y l IH]; simpl; [done|].
  intros [->|Hin] HP HQ.
  - rewrite HP, HQ. simpl.
    pose proof (filter_le_of_imp P Q l HQP). lia.
  - specialize (IH Hin HP HQ). destruct (Q y) eqn:HQy.
    + rewrite (HQP _ HQy). simpl. lia.
    + destruct (P y); simpl; lia.
Qed.

Lemma missing_le_length U w : (missing U w ≤ length U)%nat.
Proof. unfold missing. apply List.filter_length_le. Qed.

Lemma missing_grows U w w' : grows w w' → (missing U w' ≤ missing U w)%nat.
Proof.
  intros Hg. apply filter_le_of_imp. intros u Hu.
  apply negb_true_iff in Hu. apply negb_true_iff.
  destruct (dict_mem (all w) u) eqn:Hm; [|done].
  by rewrite (grows_mem _ _ _ Hg Hm) in Hu.
Qed.

Lemma missing_stored U w w' p a :
  all w' = all w ++ [(p, a)] → In p U → dict_mem (all w) p = false →
  (missing U w' < missing U w)%nat.
Proof.
  intros Hall Hin Hm. apply (filter_lt_of_imp _ _ _ p); [|done|..].
  - intros u Hu. apply negb_true_iff in Hu. apply negb_true_iff.
    destruct (dict_mem (all w) u) eqn:Hmu; [|done].
    rewrite Hall in Hu. by rewrite (dict_mem_app _ _ _ Hmu) in Hu.
  - by rewrite Hm.
  - rewrite Hall, dict_mem_last. done.
Qed.

(** A climb that starts at an item whose parent is within [U]. *)
Lemma walk_parents_total_within U fuel : ∀ cur tf w o,
  always_found → parents_within U →
  heap w !! cur = Some o →
  parent_id o = 0 ∨ In (parent_id o) U →
  (missing U w < fuel)%nat →
  ∃ tf' w', walk_parents fuel cur tf w = (Ok tf', w').
Proof.
  induction fuel as [|fuel IH]; intros cur tf w o Hfound HU Ho Hp Hfuel; [lia|].
  simpl. unfold bind at 1, deref. rewrite Ho.
  unfold bind at 1, gets.
  destruct (negb (Z.eqb (parent_id o) 0)
            && negb (dict_mem (all w) (parent_id o))) eqn:Hc.
  - apply andb_true_iff in Hc as [Hnz Hmem].
    apply negb_true_iff in Hmem. apply negb_true_iff, Z.eqb_neq in Hnz.
    destruct Hp as [?|Hin]; [done|].
    destruct (get_item_by_id_new _ _ Hfound Hmem)
      as (wi & w2 & Hrun & Hheap & Hall & Hget & Hid).
    rewrite (bind_run _ _ _ _ _ Hrun).
    apply (IH _ _ _ (flat wi)); [done|done| | |].
    + rewrite Hheap. apply lookup_alloc.
    + by eapply HU.
    + pose proof (missing_stored U _ _ _ _ Hall Hin Hmem). lia.
  - by eexists _, _.
Qed.

Lemma walk_parents_total U fuel cur tf w :
  always_found → parents_within U →
  is_Some (heap w !! cur) →
  (S (missing U w) < fuel)%nat →
  ∃ tf' w', walk_parents fuel cur tf w = (Ok tf', w').
Proof.
  intros Hfound HU [o Ho] Hfuel. destruct fuel as [|fuel]; [lia|].
  simpl. unfold bind at 1, deref. rewrite Ho.
  unfold bind at 1, gets.
  destruct (negb (Z.eqb (parent_id o) 0)
            && negb (dict_mem (all w) (parent_id o))) eqn:Hc.
  - apply andb_true_iff in Hc as [Hnz Hmem].
    apply negb_true_iff in Hmem.
    destruct (get_item_by_id_new _ _ Hfound Hmem)
      as (wi & w2 & Hrun & Hheap & Hall & Hget & Hid).
    rewrite (bind_run _ _ _ _ _ Hrun).
    apply (walk_parents_total_within U _ _ _ _ (flat wi)); [done|done| | |].
    + rewrite Hheap. apply lookup_alloc.
    + by eapply HU.
    + assert (grows w w2) as Hg by (split; eexists; eauto).
      pose proof (missing_grows U _ _ Hg). lia.
  - by eexists _, _.
Qed.

Lemma fold_walk_total U fuel : ∀ items tf w,
  always_found → parents_within U →
  Forall (λ a, is_Some (heap w !! a)) items →
  (S (length U) < fuel)%nat →
  ∃ tf' w',
    fold_m (λ to_fetch item, walk_parents fuel item to_fetch) tf items w
      = (Ok tf', w').
Proof.
  induction items as [|a items IH]; intros tf w Hfound HU Hall Hfuel.
  - by eexists _, _.
  - apply Forall_cons in Hall as [Ha Hall].
    destruct (walk_parents_total U fuel a tf w Hfound HU Ha) as (tf1 & w1 & Hw).
    { pose proof (missing_le_length U w). lia. }
    destruct (walk_parents_Ok _ _ _ _ _ _ Hfound Hw) as (Hg & _).
    destruct (IH tf1 w1 Hfound HU) as (tf2 & w2 & Hrest); [|done|].
    { eapply Forall_impl; [exact Hall|]. simpl. intros b [o Hb].
      exists o. by eapply grows_lookup. }
    exists tf2, w2. simpl. by rewrite (bind_run _ _ _ _ _ Hw).
Qed.

Lemma fetch_parents_total U fuel w :
  always_found → parents_within U → store_ok w →
  (length U + 2 ≤ fuel)%nat →
  ∃ w', _fetch_parents config fuel w = (Ok tt, w').
Proof.
  intros Hfound HU Hok Hfuel. unfold _fetch_parents.
  destruct (negb (Platform_eqb (platform config) AZURE_DEVOPS));
    [by eexists|].
  unfold bind at 1, gets.
  destruct (fold_walk_total U fuel (dict_values (all w)) ∅ w Hfound HU Hok)
    as (tf & w1 & Hfold); [lia|].
  rewrite (bind_run _ _ _ _ _ Hfold).
  destruct (fold_walk_Ok _ _ _ _ _ _ Hfound Hfold) as (_ & _ & _ & Htf).
  destruct (batches_known_ids (elements tf)
              (py_range 0 (length (elements tf)) batch_size) w1 Hfound)
    as (w2 & Hrun2 & Hsame).
  { apply List.Forall_forall. intros k Hk.
    apply list_elem_of_In, elem_of_elements in Hk.
    destruct (Htf _ Hk) as [Hk'|?]; [|done]. set_solver. }
  exists w2. exact Hrun2.
Qed.

(** C1.  On Azure DevOps, the platform on which the pipeline runs the
    parent resolution, if every fetch of one item succeeds and returns an
    item with the identity asked for, a completed [_fetch_parents] leaves
    the Store closed under the parent reference, whatever the order in
    which the batches complete;
    and it does complete, with fuel for two turns more than there are
    identities in [U], when the parents of all returned items lie in the
    finite list [U]. *)
Theorem fetch_parents_closes_store :
  platform config = AZURE_DEVOPS → always_found →
  (∀ fuel w w', _fetch_parents config fuel w = (Ok tt, w') → closed w') ∧
  (∀ U fuel w, parents_within U → store_ok w → (length U + 2 ≤ fuel)%nat →
     ∃ w', _fetch_parents config fuel w = (Ok tt, w') ∧ closed w').
Proof.
  intros Hp Hfound. split.
  - intros fuel w w'. by apply fetch_parents_closed.
  - intros U fuel w HU Hok Hfuel.
    destruct (fetch_parents_total U fuel w Hfound HU Hok Hfuel) as [w' Hrun].
    exists w'. split; [done|]. by eapply fetch_parents_closed.
Qed.

(** The resolution keeps the stored references valid, so that the orphan
    bucket can be built on the state it leaves. *)
Lemma fetch_parents_store_ok fuel w w' :
  always_found → store_ok w →
  _fetch_parents config fuel w = (Ok tt, w') → store_ok w'.
Proof.
  intros Hfound Hok. unfold _fetch_parents.
  destruct (negb (Platform_eqb (platform config) AZURE_DEVOPS)).
  { by intros [= <-]. }
  unfold bind at 1, gets. intros Hrun.
  apply bind_Ok in Hrun as (tf & w1 & Hfold & Hbatch).
  destruct (fold_walk_Ok _ _ _ _ _ _ Hfound Hfold) as (Hg & Hres & Hnew & Htf).
  destruct (batches_known_ids (elements tf)
              (py_range 0 (length (elements tf)) batch_size) w1 Hfound)
    as (w2 & Hrun2 & (e & c & ->)).
  { apply List.Forall_forall. intros k Hk.
    apply list_elem_of_In, elem_of_elements in Hk.
    destruct (Htf _ Hk) as [Hk'|?]; [|done]. set_solver. }
  pose proof (eq_trans (eq_sym Hbatch) Hrun2) as [= ->].
  unfold store_ok, dict_values in *. simpl.
  apply List.Forall_forall. intros a Ha.
  apply in_map_iff in Ha as ([k a'] & <- & Hin). simpl.
  destruct (Hnew _ _ Hin) as [Hin0|(o & Ho & _)]; [|by exists o].
  rewrite List.Forall_forall in Hok.
  destruct (Hok a') as [o Ho]; [by apply (in_map snd) in Hin0|].
  exists o. by eapply grows_lookup.
Qed.


End Parents.


(** ** Properties of every run *)

Section Posts.
Context {Env : Type} {client : PlatformClient Env} {model : Model Env}
        {builtins : Builtins} {loop : EventLoop Env}.
Variable config : Config.
Variable Q : ∀ A, Work Env → outcome A → Work Env → Prop.
Context {compositional : Compositional Q} {batchwise : Batchwise Q}.
Implicit Types (w : Work Env) (o : HierarchicalWorkItem).

Lemma post_ret {A} (a : A) : post (ret a) Q.
Proof. intros w r w' [= <- <-]. apply comp_ok. Qed.

Lemma post_halt {A} h : post (halt_with (A := A) h) Q.
Proof. intros w r w' [= <- <-]. apply comp_halt. Qed.

Lemma post_gets {A} (f : Work Env → A) : post (gets f) Q.
Proof. intros w r w' [= <- <-]. apply comp_ok. Qed.

Lemma post_bind {A B} (m : M Env A) (f : A → M Env B) :
  post m Q → (∀ a, post (f a) Q) → post (bind m f) Q.
Proof.
  intros Hm Hf w r w'. unfold bind.
  destruct (m w) as [[a|e|h] w1] eqn:E.
  - intros H. eapply comp_seq; [apply (Hm _ _ _ E)|apply (Hf _ _ _ _ H)].
  - intros [= <- <-]. eapply comp_raise, (Hm _ _ _ E).
  - intros [= <- <-]. eapply comp_halted, (Hm _ _ _ E).
Qed.

Lemma post_deref a : post (deref a) Q.
Proof.
  intros w r w'. unfold deref. destruct (heap w !! a).
  - intros [= <- <-]. apply comp_ok.
  - intros [= <- <-]. apply comp_halt.
Qed.

Lemma post_alloc o : post (alloc o) Q.
Proof. intros w r w' [= <- <-]. apply comp_heap. Qed.

Lemma post_put_heap (g : Work Env → list HierarchicalWorkItem) :
  post (modify (λ w, put_heap (g w) w)) Q.
Proof. intros w r w' [= <- <-]. apply comp_heap. Qed.

Lemma post_put_all (g : Work Env → dict ref) :
  post (modify (λ w, put_all (g w) w)) Q.
Proof. intros w r w' [= <- <-]. apply comp_all. Qed.

Lemma post_put_root_items (l : list ref) : post (modify (put_root_items l)) Q.
Proof. intros w r w' [= <- <-]. apply comp_root_items. Qed.

Lemma post_put_item_ids (g : Work Env → list Z) :
  post (modify (λ w, put_item_ids (g w) w)) Q.
Proof. intros w r w' [= <- <-]. apply comp_item_ids. Qed.

Lemma post_update a f : post (update a f) Q.
Proof.
  unfold update. apply post_bind; [apply post_deref|].
  intros o. apply post_put_heap.
Qed.

Lemma post_for_each {A} (l : list A) (body : A → M Env unit) :
  (∀ x, post (body x) Q) → post (for_each l body) Q.
Proof.
  intros Hb. induction l as [|x l IH]; simpl; [apply post_ret|].
  apply post_bind; [apply Hb|]. intros _. apply IH.
Qed.

Lemma post_fold_m {A B} (f : B → A → M Env B) (l : list A) :
  (∀ b x, post (f b x) Q) → ∀ b, post (fold_m f b l) Q.
Proof.
  intros Hf. induction l as [|x l IH]; intros b; simpl; [apply post_ret|].
  apply post_bind; [apply Hf|]. apply IH.
Qed.

Lemma post_map_m {A B} (f : A → M Env B) (l : list A) :
  (∀ x, post (f x) Q) → post (map_m f l) Q.
Proof.
  intros Hf. induction l as [|x l IH]; simpl; [apply post_ret|].
  apply post_bind; [apply Hf|]. intros y.
  apply post_bind; [apply IH|]. intros ys. apply post_ret.
Qed.

Lemma post_filter_m {A} (p : A → M Env bool) (l : list A) :
  (∀ x, post (p x) Q) → post (filter_m p l) Q.
Proof.
  intros Hp. induction l as [|x l IH]; simpl; [apply post_ret|].
  apply post_bind; [apply Hp|]. intros b.
  apply post_bind; [apply IH|]. intros ys. apply post_ret.
Qed.

Lemma post_gather_map {A B} (f : A → M Env B) (l : list A) :
  (∀ x, post (f x) Q) → post (gather (map f l)) Q.
Proof. apply batch. Qed.

(** One step of a proof that a method has the property: split a
    sequence, decide a test, or use what is known of a step. *)
Ltac post_step :=
  lazymatch goal with
  | |- ∀ _, _ => intro
  | |- post (bind _ _) _ => apply post_bind
  | |- post (ret _) _ => apply post_ret
  | |- post (gets _) _ => apply post_gets
  | |- post (halt_with _) _ => apply post_halt
  | |- post (deref _) _ => apply post_deref
  | |- post (alloc _) _ => apply post_alloc
  | |- post (update _ _) _ => apply post_update
  | |- post (for_each _ _) _ => apply post_for_each
  | |- post (fold_m _ _ _) _ => apply post_fold_m
  | |- post (map_m _ _) _ => apply post_map_m
  | |- post (filter_m _ _) _ => apply post_filter_m
  | |- post (gather (map _ _)) _ => apply post_gather_map
  | |- post (modify (put_root_items _)) _ => apply post_put_root_items
  | |- post (modify (λ w, put_heap _ w)) _ => apply post_put_heap
  | |- post (modify (λ w, put_all _ w)) _ => apply post_put_all
  | |- post (modify (λ w, put_item_ids _ w)) _ => apply post_put_item_ids
  | |- post (modify (put_item_ids ?l)) _ =>
      apply (post_put_item_ids (λ _, l))
  | |- post (if ?b then _ else _) _ => destruct b
  | |- post (match ?x with _ => _ end) _ => destruct x
  | |- post (let _ := _ in _) _ => cbv zeta
  end.

Ltac post_auto :=
  repeat first
    [ assumption
    | post_step
    | match goal with H : _ |- post _ _ => apply H end ].

Lemma post_orphaned a : post (orphaned a) Q.
Proof. unfold orphaned. post_auto. Qed.

Lemma post_create_other_parent : post (_create_other_parent config) Q.
Proof. unfold _create_other_parent. pose proof post_orphaned. post_auto. Qed.

Lemma post_is_candidate a : post (is_candidate a) Q.
Proof. unfold is_candidate. post_auto. Qed.

Lemma post_summary_candidates : post summary_candidates Q.
Proof. unfold summary_candidates. pose proof post_is_candidate. post_auto. Qed.

Lemma post_alloc_tree : ∀ t, post (alloc_tree t) Q.
Proof.
  fix IH 1. intros [wi kids]. simpl. apply post_bind.
  - induction kids as [|k kids IHk]; [apply post_ret|].
    apply post_bind; [apply IH|]. intros a.
    apply post_bind; [apply IHk|]. intros r. apply post_ret.
  - intros cs. apply post_alloc.
Qed.

Lemma post_receive t : post (receive t) Q.
Proof. unfold receive. pose proof post_alloc_tree. post_auto. Qed.

Lemma post_index_child a : post (index_child a) Q.
Proof. unfold index_child. post_auto. Qed.

Lemma post_root_group a : post (root_group a) Q.
Proof. unfold root_group. post_auto. Qed.

Lemma post_Hierarchy : post Hierarchy Q.
Proof.
  unfold Hierarchy, Hierarchy_attach, Hierarchy_is_root, Hierarchy_group.
  post_auto.
Qed.

Lemma post_build_groups {regrouping : Regrouping Q} :
  post (build_groups config) Q.
Proof.
  assert (∀ l, post (modify (put_by_type l)) Q) as Hregroup.
  { intros l w r w' [= <- <-]. apply regroup. }
  unfold build_groups. pose proof post_Hierarchy. pose proof post_root_group.
  post_auto.
Qed.

Lemma post_convert_commit commit :
  post (_convert_commit_to_work_item commit) Q.
Proof. unfold _convert_commit_to_work_item. post_auto. Qed.

(** *** With calls to the collaborators *)

Context {effectful : Effectful Q}.

Lemma post_raise {A} e : post (raise (A := A) e) Q.
Proof. intros w r w' [= <- <-]. apply eff_raise. Qed.

(** The same with the two kinds of steps that need [Effectful]. *)
Ltac post_calls :=
  repeat first
    [ assumption
    | post_step
    | apply eff_external; [intros; reflexivity]
    | apply post_raise
    | match goal with H : _ |- post _ _ => apply H end ].

Lemma post_add p : post (add p) Q.
Proof.
  unfold add, all_getitem. post_calls.
Qed.

Lemma post_get_item_by_id k : post (get_item_by_id k) Q.
Proof.
  unfold get_item_by_id. pose proof post_add.
  post_calls.
Qed.

Lemma post_walk_parents fuel : ∀ cur tf, post (walk_parents fuel cur tf) Q.
Proof.
  pose proof post_get_item_by_id.
  induction fuel as [|fuel IH]; intros cur tf; simpl; post_calls.
Qed.

Lemma post_fetch_parents fuel : post (_fetch_parents config fuel) Q.
Proof.
  unfold _fetch_parents. pose proof post_get_item_by_id.
  pose proof (post_walk_parents fuel). post_calls.
Qed.

Lemma post_summarize_work_item a : post (summarize_work_item config a) Q.
Proof. unfold summarize_work_item. post_calls. Qed.

Lemma post_summary_pass : post (summary_pass config) Q.
Proof.
  unfold summary_pass. pose proof post_summary_candidates.
  pose proof post_summarize_work_item. post_calls.
Qed.

Lemma post_load_github items : post (load_github items) Q.
Proof.
  unfold load_github. pose proof post_receive. pose proof post_add.
  pose proof post_index_child. post_calls.
Qed.

Lemma post_load_devops fuel items : post (load_devops config fuel items) Q.
Proof.
  unfold load_devops. pose proof post_get_item_by_id.
  pose proof (post_fetch_parents fuel). pose proof post_create_other_parent.
  post_calls.
Qed.

Lemma post_get_items_with_details {regrouping : Regrouping Q} fuel :
  post (get_items_with_details config fuel) Q.
Proof.
  unfold get_items_with_details.
  pose proof post_load_github. pose proof (post_load_devops fuel).
  pose proof post_summary_pass. pose proof post_build_groups.
  post_calls.
Qed.

End Posts.

(** *** The calls of a run *)

Section Calls.
Context {Env : Type} {client : PlatformClient Env} {model : Model Env}
        {builtins : Builtins} {loop : EventLoop Env}.
Variable config : Config.
Variable allowed : call → bool.
Implicit Types (w : Work Env) (o : HierarchicalWorkItem).

Lemma calls_within_idle {A} (r : outcome A) w w' :
  calls w' = calls w → calls_within allowed A w r w'.
Proof. intros H. exists []. rewrite app_nil_r. by split. Qed.

#[export] Instance calls_within_compositional :
  Compositional (@calls_within Env allowed).
Proof.
  split; try (intros; by apply calls_within_idle).
  - intros A B a w w1 r w2 (evs1 & Hc1 & H1) (evs2 & Hc2 & H2).
    exists (evs1 ++ evs2). split; [by rewrite Hc2, Hc1, app_assoc|].
    by apply Forall_app.
  - intros A B e w w1 (evs & Hc & H). by exists evs.
  - intros A B h w w1 (evs & Hc & H). by exists evs.
Qed.

#[export] Instance calls_within_regrouping :
  Regrouping (@calls_within Env allowed).
Proof. split. intros. by apply calls_within_idle. Qed.

Lemma post_external_allowed {A} (f : Env → (PyExn + A) * Env) record :
  (∀ x, allowed (record x) = true) →
  post (external f record) (calls_within allowed).
Proof.
  intros Hrec w r w' H. rewrite (external_put_env _ _ _ _ _ H). simpl.
  eexists. split; [done|]. constructor; [apply Hrec|constructor].
Qed.

Lemma post_add_allowed (p : HierarchicalWorkItem) :
  post (add (Env := Env) p) (calls_within allowed).
Proof.
  intros w r w'. pose proof (add_run p w) as H.
  destruct (dict_get (all w) (id p)); rewrite H; intros [= <- <-];
    by apply calls_within_idle.
Qed.

Lemma post_load_github_allowed items :
  post (load_github (Env := Env) items) (calls_within allowed).
Proof.
  unfold load_github.
  apply post_bind; [apply _|apply post_map_m; [apply _|apply post_receive, _]|].
  intros payloads.
  apply post_bind; [apply _|apply post_map_m; [apply _|apply post_add_allowed]|].
  intros roots.
  apply post_bind; [apply _|apply post_put_root_items, _|]. intros _.
  apply post_for_each; [apply _|]. intros a.
  apply post_bind; [apply _|apply post_deref, _|]. intros root_item.
  apply post_for_each; [apply _|]. intros child. apply post_index_child, _.
Qed.

#[export] Instance calls_within_batchwise :
  Batchwise (@calls_within Env allowed).
Proof.
  split. intros A B f l Hf w r w' Hrun.
  assert (moves (λ w w', calls_within allowed unit w (Ok tt) w')
            (gather (map f l))) as Hm.
  { apply gather_moves.
    - intros w0. by apply calls_within_idle.
    - intros w1 w2 w3 H1 H2. exact (comp_seq _ _ tt _ _ _ _ H1 H2).
    - intros x w0 r0 w0' H0. destruct (Hf x _ _ _ H0) as (evs & ? & ?).
      by exists evs. }
  destruct (Hm _ _ _ Hrun) as (evs & ? & ?). by exists evs.
Qed.

Lemma post_summarize_allowed a :
  (item_summary config = true →
   ∀ prompt x, allowed (CallSummarise prompt x) = true) →
  post (summarize_work_item config a) (calls_within allowed).
Proof.
  intros Hallowed. unfold summarize_work_item.
  apply post_bind; [apply _|apply post_deref, _|]. intros o.
  destruct (String.eqb _ _); [apply post_ret, _|].
  destruct (item_summary config) eqn:Hs; simpl; [|apply post_ret, _].
  apply post_bind; [apply _| |].
  { apply post_external_allowed. intros x. by apply Hallowed. }
  intros s. apply post_bind; [apply _|apply post_update, _|].
  intros _. apply post_ret, _.
Qed.

Lemma post_summary_pass_allowed :
  (item_summary config = true →
   ∀ prompt x, allowed (CallSummarise prompt x) = true) →
  post (summary_pass config) (calls_within allowed).
Proof.
  intros Hallowed. unfold summary_pass.
  destruct (item_summary config) eqn:Hs; [|apply post_ret, _].
  apply post_bind; [apply _|apply post_summary_candidates, _|].
  intros candidates.
  apply post_bind; [apply _| |intros _; apply post_ret, _].
  apply (batch (Q := calls_within allowed)). intros a.
  apply post_summarize_allowed. intros _. by apply Hallowed.
Qed.

(** What follows the loading of the items: the summary pass and the
    grouping. *)
Lemma post_after_loading_allowed :
  (item_summary config = true →
   ∀ prompt x, allowed (CallSummarise prompt x) = true) →
  post (do summary_pass config ;; do build_groups config ;;
        gets root_items)
       (calls_within allowed).
Proof.
  intros Hallowed.
  apply post_bind; [apply _|by apply post_summary_pass_allowed|]. intros _.
  apply post_bind; [apply _|apply post_build_groups; apply _|]. intros _.
  apply post_gets, _.
Qed.

End Calls.

(** *** Properties of the groups and of the fetches *)

Section FailFast.
Context {Env : Type} {client : PlatformClient Env} {model : Model Env}
        {builtins : Builtins} {loop : EventLoop Env}.
Implicit Types (w : Work Env) (o : HierarchicalWorkItem).

#[export] Instance keeps_groups_compositional :
  Compositional (@keeps_groups Env).
Proof.
  split; try done. unfold keeps_groups. intros. congruence.
Qed.

#[export] Instance keeps_groups_effectful : Effectful (@keeps_groups Env).
Proof.
  split; [|done]. intros A f record _ w r w'. unfold external, keeps_groups.
  destruct (f (env w)) as [[e|a] e']; by intros [= <- <-].
Qed.

#[export] Instance keeps_groups_batchwise : Batchwise (@keeps_groups Env).
Proof.
  split. intros A B f l Hf.
  apply (gather_moves (λ w w', by_type w' = by_type w)); [done| |exact Hf].
  intros w1 w2 w3 H1 H2. congruence.
Qed.

#[export] Instance no_raise_compositional : Compositional (@no_raise Env).
Proof.
  split; try done. intros A B e w w1 H. by destruct (H e).
Qed.

#[export] Instance no_raise_regrouping : Regrouping (@no_raise Env).
Proof. split. done. Qed.


(** *** The phases of fetches *)

Lemma fetch_phase_idle {A} (r : outcome A) w w' :
  calls w' = calls w → fetch_phase A w r w'.
Proof.
  intros H. exists []. rewrite app_nil_r. split; [done|].
  split; [constructor|]. left. constructor.
Qed.

#[export] Instance fetch_phase_compositional :
  Compositional (@fetch_phase Env).
Proof.
  split; try (intros; by apply fetch_phase_idle).
  - intros A B a w w1 r w2 (evs1 & Hc1 & Hf1 & H1) (evs2 & Hc2 & Hf2 & H2).
    exists (evs1 ++ evs2). split; [by rewrite Hc2, Hc1, app_assoc|].
    split; [by apply Forall_app|].
    destruct H1 as [Hclean1|(? & ? & ? & ? & _ & _ & ?)]; [|done].
    destruct H2 as [Hclean2|(evs0 & k & e & evs3 & -> & Hclean0 & ->)].
    + left. by apply Forall_app.
    + right. exists (evs1 ++ evs0), k, e, evs3. rewrite app_assoc.
      split; [done|]. split; [by apply Forall_app|done].
  - intros A B e w w1 (evs & Hc & Hf & H). exists evs. split; [done|].
    split; [done|].
    destruct H as [?|(evs0 & k & e' & evs1 & -> & ? & [= ->])]; [by left|].
    right. by exists evs0, k, e', evs1.
  - intros A B h w w1 (evs & Hc & Hf & H). exists evs. split; [done|].
    split; [done|].
    destruct H as [?|(? & ? & ? & ? & _ & _ & ?)]; [by left|done].
Qed.





Lemma post_add_fetch (p : HierarchicalWorkItem) :
  post (add (Env := Env) p) fetch_phase.
Proof.
  intros w r w'. pose proof (add_run p w) as H.
  destruct (dict_get (all w) (id p)); rewrite H; intros [= <- <-];
    by apply fetch_phase_idle.
Qed.






End FailFast.


(** ** The commit group *)

Section CommitGroup.
Context {Env : Type} {client : PlatformClient Env} {model : Model Env}
        {builtins : Builtins} {loop : EventLoop Env}.
Variable config : Config.
Implicit Types (w : Work Env) (o : HierarchicalWorkItem).

Lemma has_commit_group_count groups :
  has_commit_group groups = false → commit_groups groups = 0%nat.
Proof.
  unfold has_commit_group, commit_groups. induction groups as [|g l IH]; [done|].
  simpl. fold (is_commit_group g). destruct (is_commit_group g); [done|].
  exact IH.
Qed.

Lemma has_commit_group_pos groups :
  has_commit_group groups = true → (1 ≤ commit_groups groups)%nat.
Proof.
  unfold has_commit_group, commit_groups. induction groups as [|g l IH]; [done|].
  simpl. fold (is_commit_group g). destruct (is_commit_group g); simpl.
  - lia.
  - exact IH.
Qed.

Lemma commit_groups_app l l' :
  commit_groups (l ++ l') = (commit_groups l + commit_groups l')%nat.
Proof. unfold commit_groups. by rewrite List.filter_app, length_app. Qed.

Lemma append_commits_Ok w w' :
  append_commits w = (Ok tt, w') →
  ∃ commit_items,
    by_type w' = by_type w ++ [mkWorkItemGroup "Commit" commit_icon commit_items].
Proof.
  unfold append_commits. intros H.
  apply bind_Ok in H as (commits & w1 & H1 & H).
  apply bind_Ok in H as (commit_items & w2 & H2 & H).
  injection H as <-. exists commit_items. simpl.
  assert (by_type w1 = by_type w) as <-.
  { eapply (eff_external (Q := @keeps_groups Env)); [|exact H1]. done. }
  assert (by_type w2 = by_type w1) as <-; [|done].
  eapply (post_map_m (@keeps_groups Env)); [|exact H2].
  intros commit. apply post_convert_commit. apply _.
Qed.

(** C8.  A run of [generate_ordered_work_items] that returns: let [w1] be
    the state once the groups of the work items are there (the state at
    the call if it has groups, else the state [get_items_with_details]
    leaves).  The returned list is [by_type]; if the flag is set and [w1]
    has no group of type ["Commit"], it is the groups of [w1] followed by
    one ["Commit"] group; otherwise the state is [w1], nothing appended.
    So the run adds no second ["Commit"] group. *)
Theorem commit_group_appended_once fuel w groups w' :
  generate_ordered_work_items config fuel w = (Ok groups, w') →
  ∃ w1,
    (match by_type w with
     | [] => ∃ roots, get_items_with_details config fuel w = (Ok roots, w1)
     | _ :: _ => w1 = w
     end) ∧
    groups = by_type w' ∧
    (if include_commits config && negb (has_commit_group (by_type w1))
     then ∃ commit_items,
            by_type w' =
              by_type w1 ++ [mkWorkItemGroup "Commit" commit_icon commit_items]
     else w' = w1) ∧
    commit_groups (by_type w') =
      Nat.max (commit_groups (by_type w1))
              (if include_commits config then 1 else 0)%nat.
Proof.
  unfold generate_ordered_work_items. intros H.
  apply bind_Ok in H as (g0 & w0 & [= <- <-] & H).
  apply bind_Ok in H as ([] & w1 & H1 & H).
  apply bind_Ok in H as (g1 & w1' & [= <- <-] & H).
  apply bind_Ok in H as ([] & w2 & H2 & [= <- <-]).
  exists w1. split.
  { destruct (by_type w).
    - apply bind_Ok in H1 as (roots & w1' & Hd & [= <-]). by exists roots.
    - by injection H1. }
  split; [done|].
  destruct (include_commits config); simpl in *.
  - destruct (has_commit_group (by_type w1)) eqn:Hhas; simpl in *.
    + injection H2 as <-. split; [done|].
      pose proof (has_commit_group_pos _ Hhas). lia.
    + destruct (append_commits_Ok _ _ H2) as [commit_items Heq].
      split; [by exists commit_items|].
      rewrite Heq, commit_groups_app, (has_commit_group_count _ Hhas). done.
  - injection H2 as <-. split; [done|]. lia.
Qed.

End CommitGroup.


(** ** Grouping *)

Section Grouping.
Context {Env : Type} {client : PlatformClient Env} {model : Model Env}
        {builtins : Builtins} {loop : EventLoop Env}.
Variable config : Config.
Implicit Types (w : Work Env) (o : HierarchicalWorkItem).

Lemma existsb_eqb_In (t : string) (l : list string) :
  existsb (String.eqb t) l = true ↔ In t l.
Proof.
  rewrite existsb_exists. split.
  - intros (x & Hx & Heq). apply String.eqb_eq in Heq. by subst.
  - intros Hin. exists t. split; [done|apply String.eqb_refl].
Qed.

Lemma group_insert_types groups t ic a :
  map group_type (group_insert groups t ic a)
  = seen_step (map group_type groups) t.
Proof.
  unfold seen_step. induction groups as [|g groups IH]; simpl; [done|].
  rewrite (String.eqb_sym t). destruct (String.eqb (group_type g) t); [done|].
  simpl. rewrite IH. by destruct (existsb (String.eqb t) (map group_type groups)).
Qed.

Lemma group_insert_lookup groups t ic a t' :
  group_lookup t' (group_insert groups t ic a)
  = if String.eqb t t' then group_lookup t' groups ++ [a]
    else group_lookup t' groups.
Proof.
  unfold group_lookup. induction groups as [|g groups IH]; simpl.
  - by destruct (String.eqb t t').
  - destruct (String.eqb_spec (group_type g) t) as [Hg|Hg]; simpl.
    + rewrite Hg. by destruct (String.eqb t t').
    + destruct (String.eqb_spec (group_type g) t') as [Hg'|Hg']; [|exact IH].
      destruct (String.eqb_spec t t'); [congruence|done].
Qed.

Lemma grouped_types ty ic roots : ∀ groups,
  map group_type (grouped ty ic roots groups)
  = fold_left seen_step (map ty roots) (map group_type groups).
Proof.
  unfold grouped. induction roots as [|a roots IH]; intros groups; [done|].
  simpl. by rewrite IH, group_insert_types.
Qed.

Lemma grouped_lookup ty ic roots t : ∀ groups,
  group_lookup t (grouped ty ic roots groups)
  = group_lookup t groups ++ List.filter (λ a, String.eqb (ty a) t) roots.
Proof.
  unfold grouped. induction roots as [|a roots IH]; intros groups; simpl.
  - by rewrite app_nil_r.
  - rewrite IH, group_insert_lookup.
    destruct (String.eqb (ty a) t); [by rewrite <- app_assoc|done].
Qed.

Lemma seen_steps_NoDup l : ∀ acc,
  NoDup acc → NoDup (fold_left seen_step l acc).
Proof.
  induction l as [|t l IH]; intros acc Hacc; [done|]. simpl. apply IH.
  unfold seen_step. destruct (existsb (String.eqb t) acc) eqn:Hex; [done|].
  apply NoDup_app. split; [done|]. split; [|apply NoDup_singleton].
  intros x Hx Hx'. apply list_elem_of_singleton in Hx'. subst x.
  apply list_elem_of_In, existsb_eqb_In in Hx. congruence.
Qed.

Lemma seen_steps_In l t : ∀ acc,
  In t (fold_left seen_step l acc) ↔ In t acc ∨ In t l.
Proof.
  induction l as [|t' l IH]; intros acc; simpl; [tauto|].
  rewrite IH. unfold seen_step.
  destruct (existsb (String.eqb t') acc) eqn:Hex.
  - apply existsb_eqb_In in Hex. split; [tauto|].
    intros [?|[<-|?]]; tauto.
  - rewrite in_app_iff. simpl. tauto.
Qed.

Lemma first_seen_example :
  first_seen ["Bug"; "Bug"; "Feature"] = ["Bug"; "Feature"].
Proof. reflexivity. Qed.

Lemma type_at_lookup w a o : heap w !! a = Some o → type_at w a = type o.
Proof. unfold type_at. by intros ->. Qed.

Lemma icon_at_lookup w a o : heap w !! a = Some o → icon_at w a = icon o.
Proof. unfold icon_at. by intros ->. Qed.

Lemma group_of_root_lookup w a o :
  heap w !! a = Some o →
  group_of_root w a = mkWorkItemGroup (type o) (icon o) (children o).
Proof. unfold group_of_root. by intros ->. Qed.

(** The two loops that build groups read the heap and change nothing. *)
Lemma fold_group_reads roots : ∀ groups w groups' w',
  fold_m Hierarchy_group groups roots w = (Ok groups', w') →
  w' = w ∧ groups' = grouped (type_at w) (icon_at w) roots groups ∧
  Forall (λ a, is_Some (heap w !! a)) roots.
Proof.
  induction roots as [|a roots IH]; intros groups w groups' w'; simpl.
  - intros [= <- <-]. repeat split. constructor.
  - unfold bind at 1, Hierarchy_group at 1, bind at 1, deref.
    destruct (heap w !! a) as [o|] eqn:Ho; [|done]. simpl.
    intros H. destruct (IH _ _ _ _ H) as (-> & -> & Hall).
    split; [done|]. split; [|constructor; [by exists o|done]].
    unfold grouped. simpl.
    by rewrite (type_at_lookup _ _ _ Ho), (icon_at_lookup _ _ _ Ho).
Qed.

Lemma map_root_group_reads roots : ∀ w groups w',
  map_m root_group roots w = (Ok groups, w') →
  w' = w ∧ groups = map (group_of_root w) roots ∧
  Forall (λ a, is_Some (heap w !! a)) roots.
Proof.
  induction roots as [|a roots IH]; intros w groups w'; simpl.
  - intros [= <- <-]. repeat split. constructor.
  - unfold bind at 1, root_group at 1, bind at 1, deref.
    destruct (heap w !! a) as [o|] eqn:Ho; [|done]. simpl.
    unfold bind at 1.
    destruct (map_m root_group roots w) as [[gs|?|?] w1] eqn:Hm; [|done..].
    destruct (IH _ _ _ Hm) as (-> & -> & Hall).
    intros [= <- <-]. split; [done|].
    split; [|constructor; [by exists o|done]].
    by rewrite (group_of_root_lookup _ _ _ Ho).
Qed.

Lemma build_groups_github w w' :
  platform config = GITHUB → build_groups config w = (Ok tt, w') →
  w' = put_by_type (map (group_of_root w) (root_items w)) w ∧
  Forall (λ a, is_Some (heap w !! a)) (root_items w).
Proof.
  intros Hp. unfold build_groups. rewrite Hp. simpl.
  unfold bind at 1, gets. intros H.
  apply bind_Ok in H as (groups & w1 & Hm & [= <-]).
  by destruct (map_root_group_reads _ _ _ _ Hm) as (-> & -> & Hall).
Qed.

Lemma is_root_reads :
  reads (Hierarchy_is_root (Env := Env))
        (λ w o, root o || (Z.eqb (parent_id o) 0 && dict_mem (all w) 0)).
Proof.
  intros a w. unfold Hierarchy_is_root, bind, deref.
  by destruct (heap w !! a).
Qed.

Lemma build_groups_devops w w' :
  platform config = AZURE_DEVOPS → build_groups config w = (Ok tt, w') →
  by_type w' = grouped (type_at w') (icon_at w') (root_items w') [] ∧
  Forall (λ a, is_Some (heap w' !! a)) (root_items w').
Proof.
  intros Hp. unfold build_groups. rewrite Hp. simpl. intros H.
  apply bind_Ok in H as ([roots groups] & w1 & Hh & H).
  apply bind_Ok in H as ([] & w2 & [= <-] & [= <-]). simpl.
  unfold Hierarchy in Hh.
  apply bind_Ok in Hh as (values & w0 & [= <- <-] & Hh).
  apply bind_Ok in Hh as ([] & wa & _ & Hh).
  apply bind_Ok in Hh as (roots' & wb & Hf & Hh).
  apply bind_Ok in Hh as (groups' & wc & Hg & [= <- <- <-]).
  destruct (filter_m_reads _ _ _ _ _ _ is_root_reads Hf) as (-> & _ & _).
  by destruct (fold_group_reads _ _ _ _ _ Hg) as (-> & -> & Hall).
Qed.

(** C4, as the code has it.  After a run of [get_items_with_details] that
    returns, the value returned is [root_items], and
    - on Azure DevOps (with [Hierarchy] as the design describes it) the
      labels of the groups are the types of the roots in first-seen order,
      each once, and the group of a type lists the roots of that type in
      encounter order;
    - on GitHub there is one group for each returned root, in order, with
      the type and the icon of the root, listing the children of the
      root. *)
Theorem groups_of_the_roots fuel w roots w' :
  get_items_with_details config fuel w = (Ok roots, w') →
  roots = root_items w' ∧
  Forall (λ a, is_Some (heap w' !! a)) roots ∧
  match platform config with
  | AZURE_DEVOPS =>
      map group_type (by_type w') = first_seen (map (type_at w') roots) ∧
      NoDup (map group_type (by_type w')) ∧
      (∀ t, In t (map group_type (by_type w')) ↔
            ∃ a, In a roots ∧ type_at w' a = t) ∧
      (∀ t, group_lookup t (by_type w')
            = List.filter (λ a, String.eqb (type_at w' a) t) roots)
  | GITHUB => by_type w' = map (group_of_root w') roots
  end.
Proof.
  unfold get_items_with_details. intros H.
  apply bind_Ok in H as (items & w1 & _ & H).
  apply bind_Ok in H as ([] & w2 & _ & H).
  apply bind_Ok in H as ([] & w3 & _ & H).
  apply bind_Ok in H as ([] & w4 & Hb & [= <- <-]).
  split; [done|]. destruct (platform config) eqn:Hp.
  - destruct (build_groups_devops _ _ Hp Hb) as [Hg Hall].
    split; [done|]. rewrite Hg.
    rewrite grouped_types. fold (first_seen (map (type_at w4) (root_items w4))).
    split; [done|]. split; [apply seen_steps_NoDup, NoDup_nil_2|].
    split.
    + intros t. unfold first_seen. rewrite seen_steps_In. simpl.
      rewrite in_map_iff. split.
      * intros [[]|(a & <- & Ha)]. by exists a.
      * intros (a & Ha & <-). right. by exists a.
    + intros t. by rewrite grouped_lookup.
  - destruct (build_groups_github _ _ Hp Hb) as [-> Hall]. done.
Qed.

End Grouping.

(** C4 as stated fails on GitHub: for returned roots of types Bug, Bug and
    Feature the run gives three groups, labelled Bug, Bug and Feature, and
    the first lists the child of the first root, not the roots of type
    Bug. *)
Lemma github_groups_one_per_root :
  ∃ roots w,
    get_items_with_details (client := Fixtures.hub)
      (model := Fixtures.echo_model) (builtins := Fixtures.toy_builtins)
      (loop := Fixtures.in_order)
      Fixtures.github 0 Fixtures.start = (Ok roots, w) ∧
    map (type_at w) roots = ["Bug"; "Bug"; "Feature"] ∧
    map group_type (by_type w) = ["Bug"; "Bug"; "Feature"] ∧
    map group_type (by_type w) ≠ first_seen (map (type_at w) roots) ∧
    ¬ NoDup (map group_type (by_type w)) ∧
    roots = [2; 3; 4]%nat ∧
    map group_items (by_type w) = [[0]; []; [1]]%nat.
Proof.
  eexists _, _. split; [vm_compute; reflexivity|].
  split; [reflexivity|]. split; [reflexivity|]. split; [discriminate|].
  split.
  - intros Hnd. apply NoDup_cons in Hnd as [Hnotin _]. apply Hnotin.
    by left.
  - split; reflexivity.
Qed.


(** ** The summary pass *)

Section SummaryPass.
Context {Env : Type} {client : PlatformClient Env} {model : Model Env}
        {builtins : Builtins} {loop : EventLoop Env}.
Variable config : Config.
Implicit Types (w : Work Env) (o : HierarchicalWorkItem).

Lemma with_summary_twice s s' o :
  with_summary s (with_summary s' o) = with_summary s o.
Proof. done. Qed.

Lemma with_summary_same o : with_summary (summary o) o = o.
Proof. by destruct o as [[] ?]. Qed.

(** One summary: the summariser is called with the prompt of the item and
    its answer is written to the item. *)
Lemma summarize_work_item_Ok a w r w' o :
  item_summary config = true →
  heap w !! a = Some o → lower (type o) ≠ "commit" →
  summarize_work_item config a w = (Ok r, w') →
  ∃ s, heap w' = <[a := with_summary (Some s) o]> (heap w) ∧
       all w' = all w ∧ item_ids w' = item_ids w.
Proof.
  intros Hcfg Ho Hty. unfold summarize_work_item, bind at 1, deref.
  rewrite Ho. apply String.eqb_neq in Hty. rewrite Hty, Hcfg. simpl.
  intros H. apply bind_Ok in H as (s & w1 & Hext & H).
  apply bind_Ok in H as ([] & w2 & Hupd & [= <- <-]).
  unfold external in Hext.
  destruct (summarise (item_prompt config o) (env w)) as [[e|s'] e'];
    [done|]. injection Hext as <- <-.
  rewrite (update_run _ _ _ o) in Hupd by done.
  injection Hupd as <-. by exists s'.
Qed.

Lemma map_summarize l : ∀ w rs w',
  item_summary config = true →
  Forall (λ a, ∃ o, heap w !! a = Some o ∧ lower (type o) ≠ "commit") l →
  map_m (summarize_work_item config) l w = (Ok rs, w') →
  all w' = all w ∧ item_ids w' = item_ids w ∧
  ∀ b o, heap w !! b = Some o →
    ∃ o', heap w' !! b = Some o' ∧ o' = with_summary (summary o') o ∧
          (In b l → ∃ s, summary o' = Some s) ∧
          (¬ In b l → o' = o).
Proof.
  induction l as [|a l IH]; intros w rs w' Hcfg Hall; simpl.
  - intros [= <- <-]. split; [done|]. split; [done|]. intros b o Ho.
    exists o. split; [done|]. split; [by rewrite with_summary_same|].
    split; [done|done].
  - apply Forall_cons in Hall as [(oa & Hoa & Hty) Hall]. intros H.
    apply bind_Ok in H as (r & w1 & Hsum & H).
    apply bind_Ok in H as (rs' & w2 & Hrest & [= <- <-]).
    destruct (summarize_work_item_Ok _ _ _ _ _ Hcfg Hoa Hty Hsum)
      as (s & Hheap & Hall1 & Hids1).
    assert (a < length (heap w))%nat as Hlt by (by eapply lookup_lt_Some).
    destruct (IH w1 rs' w2 Hcfg) as (Hall2 & Hids2 & Hobj); [|done|].
    { eapply Forall_impl; [exact Hall|]. simpl. intros b (ob & Hb & Htb).
      rewrite Hheap. destruct (decide (b = a)) as [->|Hne].
      - rewrite list_lookup_insert_eq by done. eexists. split; [done|].
        assert (ob = oa) as -> by congruence. done.
      - rewrite list_lookup_insert_ne by done. by exists ob. }
    split; [congruence|]. split; [congruence|]. intros b ob Hb.
    destruct (decide (b = a)) as [->|Hne].
    + assert (ob = oa) as -> by congruence.
      destruct (Hobj a (with_summary (Some s) oa))
        as (o' & Ho' & Hfr & Hin & Hout).
      { rewrite Hheap. by apply list_lookup_insert_eq. }
      exists o'. split; [done|]. split; [by rewrite Hfr at 1|].
      split; [|intros Hn; destruct Hn; by left].
      intros _. destruct (in_dec Nat.eq_dec a l) as [Hl|Hl]; [by apply Hin|].
      rewrite (Hout Hl). by exists s.
    + destruct (Hobj b ob) as (o' & Ho' & Hfr & Hin & Hout).
      { rewrite Hheap. by rewrite list_lookup_insert_ne. }
      exists o'. split; [done|]. split; [done|]. split.
      * intros [?|Hl]; [congruence|by apply Hin].
      * intros Hn. apply Hout. intros Hl. apply Hn. by right.
Qed.

Lemma gather_summarize l w rs w' :
  item_summary config = true →
  Forall (λ a, ∃ o, heap w !! a = Some o ∧ lower (type o) ≠ "commit") l →
  gather (map (summarize_work_item config) l) w = (Ok rs, w') →
  all w' = all w ∧ item_ids w' = item_ids w ∧
  ∀ b o, heap w !! b = Some o →
    ∃ o', heap w' !! b = Some o' ∧ o' = with_summary (summary o') o ∧
          (In b l → ∃ s, summary o' = Some s) ∧
          (¬ In b l → o' = o).
Proof.
  intros Hcfg Hall Hg.
  destruct (gather_sequence (summarize_work_item config) l w)
    as (l' & Hperm & Hseq & _).
  destruct (Hseq _ _ Hg) as (rs' & Hrun).
  assert (∀ b, In b l' ↔ In b l) as Hin.
  { intros b. rewrite <- !list_elem_of_In. by rewrite Hperm. }
  destruct (map_summarize l' w rs' w' Hcfg) as (Ha & Hi & Hobj);
    [by rewrite Hperm|done|].
  split; [done|]. split; [done|]. intros b o Ho.
  destruct (Hobj b o Ho) as (o' & Ho' & Hfr & Hyes & Hno).
  exists o'. split; [done|]. split; [done|]. split.
  - intros Hb. apply Hyes. by apply Hin.
  - intros Hb. apply Hno. intros Hb'. apply Hb. by apply Hin.
Qed.

Lemma candidates_spec w a :
  In a (List.filter (holds candidate_test w) (dict_values (all w))) ↔
  In a (dict_values (all w)) ∧
  ∃ o, heap w !! a = Some o ∧ In (id o) (item_ids w) ∧
       lower (type o) ≠ "commit".
Proof.
  rewrite filter_In. unfold holds, candidate_test. split.
  - intros [Hin Ht]. split; [done|].
    destruct (heap w !! a) as [o|]; [|done]. exists o.
    apply andb_true_iff in Ht as [Hid Hty]. split; [done|]. split.
    + apply existsb_exists in Hid as (k & Hk & Heq).
      apply Z.eqb_eq in Heq. by rewrite Heq.
    + intros Heq. by rewrite Heq in Hty.
  - intros [Hin (o & Ho & Hid & Hty)]. split; [done|]. rewrite Ho.
    apply andb_true_iff. split.
    + apply existsb_exists. exists (id o). split; [done|apply Z.eqb_refl].
    + by apply negb_true_iff, String.eqb_neq.
Qed.

(** C5, as the code has it.  The candidates of the summary pass are the
    stored items, in Store order, whose identity is in [item_ids] and whose
    type is not ["commit"] in any letter case; the list is computed
    without any effect, whenever the stored references are valid.  A pass
    that completes writes a summary to each of them and to no other
    object, and changes no other attribute. *)
Theorem summary_candidates_are_the_listed_items w :
  (∀ l w', summary_candidates w = (Ok l, w') →
     w' = w ∧
     ∀ a, In a l ↔
       In a (dict_values (all w)) ∧
       ∃ o, heap w !! a = Some o ∧ In (id o) (item_ids w) ∧
            lower (type o) ≠ "commit") ∧
  (store_ok w → ∃ l, summary_candidates w = (Ok l, w)) ∧
  (∀ w', item_summary config = true →
     summary_pass config w = (Ok tt, w') →
     all w' = all w ∧
     ∀ a o, heap w !! a = Some o →
       ∃ o', heap w' !! a = Some o' ∧
             o' = with_summary (summary o') o ∧
             (In a (dict_values (all w)) → In (id o) (item_ids w) →
              lower (type o) ≠ "commit" → ∃ s, summary o' = Some s) ∧
             (¬ (In a (dict_values (all w)) ∧ In (id o) (item_ids w) ∧
                 lower (type o) ≠ "commit") → o' = o)).
Proof.
  split; [|split].
  - intros l w' H. destruct (summary_candidates_spec _ _ _ H) as [-> Hl].
    split; [done|]. intros a. rewrite (Hl _ eq_refl). apply candidates_spec.
  - intros Hok. eexists. by apply summary_candidates_total.
  - intros w' Hcfg. unfold summary_pass. rewrite Hcfg. intros H.
    apply bind_Ok in H as (l & w1 & Hc & H).
    apply bind_Ok in H as (rs & w2 & Hg & [= <-]).
    destruct (summary_candidates_spec _ _ _ Hc) as [-> Hl].
    specialize (Hl _ eq_refl). subst l.
    assert (Forall (λ a, ∃ o, heap w !! a = Some o ∧ lower (type o) ≠ "commit")
              (List.filter (holds candidate_test w) (dict_values (all w))))
      as Hcand.
    { apply List.Forall_forall. intros a Ha.
      apply candidates_spec in Ha as (_ & o & Ho & _ & Hty). by exists o. }
    destruct (gather_summarize _ _ _ _ Hcfg Hcand Hg) as (Hall & _ & Hobj).
    split; [done|]. intros a o Ho.
    destruct (Hobj a o Ho) as (o' & Ho' & Hfr & Hin & Hout).
    exists o'. split; [done|]. split; [done|]. split.
    + intros H1 H2 H3. apply Hin, candidates_spec. split; [done|].
      by exists o.
    + intros Hn. apply Hout. intros Hc'.
      apply candidates_spec in Hc' as (H1 & o1 & Ho1 & H2 & H3).
      assert (o1 = o) as -> by congruence. by apply Hn.
Qed.

End SummaryPass.

(** ** Examples *)

Lemma create_other_parent_buckets_orphans_witness :
  platform Fixtures.azure ≠ GITHUB ∧
  store_ok Fixtures.after_resolution ∧
  orphans Fixtures.after_resolution = [1%nat] ∧
  ∃ w' b (other : HierarchicalWorkItem),
    _create_other_parent Fixtures.azure Fixtures.after_resolution = (Ok tt, w') ∧
    dict_get (all w') 0 = Some b ∧ heap w' !! b = Some other ∧
    children other = [1%nat].
Proof.
  assert (platform Fixtures.azure ≠ GITHUB) as Hp by discriminate.
  assert (store_ok Fixtures.after_resolution) as Hok.
  { repeat constructor; eexists; reflexivity. }
  assert (orphans Fixtures.after_resolution ≠ []) as Hne by discriminate.
  split; [exact Hp|]. split; [exact Hok|]. split; [reflexivity|].
  destruct (create_other_parent_buckets_orphans Fixtures.azure
              Fixtures.after_resolution Hp Hok Hne)
    as (w' & b & other & Hrun & Hget & Hb & _ & _ & _ & _ & _ & Hch & _).
  exists w', b, other. repeat split; assumption.
Defined.

Lemma create_other_parent_frame_witness :
  store_ok Fixtures.after_resolution ∧
  ∃ w', _create_other_parent Fixtures.azure Fixtures.after_resolution
        = (Ok tt, w') ∧
        ∃ o' : HierarchicalWorkItem, heap w' !! 1%nat = Some o' ∧
              o' = with_parent_id (parent_id o')
                     (flat (Fixtures.item 4 "Bug" false true 0)).
Proof.
  assert (store_ok Fixtures.after_resolution) as Hok.
  { repeat constructor; eexists; reflexivity. }
  split; [exact Hok|].
  destruct (create_other_parent_frame Fixtures.azure
              Fixtures.after_resolution Hok) as (w' & Hrun & Hframe & _).
  exists w'. split; [exact Hrun|].
  destruct (Hframe 1%nat (flat (Fixtures.item 4 "Bug" false true 0)) eq_refl)
    as (o' & Ho' & Heq & _).
  exists o'. split; assumption.
Defined.

Lemma chain_client_always_found top :
  always_found (client := Fixtures.chain_client top).
Proof. intros k e. by eexists _, _. Qed.

Lemma chain_client_parents_within :
  parents_within (client := Fixtures.chain_client 3) [2; 3].
Proof.
  intros k e wi e' [= <- <-]. simpl.
  destruct (Z.ltb_spec 0 k), (Z.ltb_spec k 3); simpl; auto.
  assert (k = 1 ∨ k = 2) as [->| ->] by lia; auto.
Qed.

Lemma fetch_parents_closes_store_witness :
  platform Fixtures.azure = AZURE_DEVOPS ∧
  always_found (client := Fixtures.chain_client 3) ∧
  parents_within (client := Fixtures.chain_client 3) [2; 3] ∧
  store_ok Fixtures.unresolved ∧
  ∃ w', _fetch_parents (client := Fixtures.chain_client 3)
    (loop := Fixtures.in_order) Fixtures.azure 4
          Fixtures.unresolved = (Ok tt, w') ∧ closed w'.
Proof.
  assert (store_ok Fixtures.unresolved) as Hok.
  { repeat constructor; eexists; reflexivity. }
  split; [reflexivity|]. split; [apply chain_client_always_found|].
  split; [apply chain_client_parents_within|]. split; [exact Hok|].
  apply (proj2 (fetch_parents_closes_store (client := Fixtures.chain_client 3)
                  Fixtures.azure eq_refl (chain_client_always_found 3))
           [2; 3] 4%nat Fixtures.unresolved chain_client_parents_within Hok).
  simpl. lia.
Defined.

Lemma groups_of_the_roots_witness :
  ∃ roots w',
    get_items_with_details (client := Fixtures.devops)
      (model := Fixtures.echo_model) (builtins := Fixtures.toy_builtins)
      (loop := Fixtures.in_order)
      Fixtures.azure 10 Fixtures.start = (Ok roots, w') ∧
    map group_type (by_type w') = first_seen (map (type_at w') roots) ∧
    map group_type (by_type w') = ["Bug"; "Epic"; "Other"].
Proof.
  eassert (get_items_with_details (client := Fixtures.devops)
      (model := Fixtures.echo_model) (builtins := Fixtures.toy_builtins)
      (loop := Fixtures.in_order)
      Fixtures.azure 10 Fixtures.start = (Ok _, _)) as Hrun
    by (vm_compute; reflexivity).
  eexists _, _. split; [exact Hrun|].
  destruct (groups_of_the_roots Fixtures.azure _ _ _ _ Hrun)
    as (_ & _ & Htypes & _).
  split; [exact Htypes|reflexivity].
Defined.



Lemma commit_group_appended_once_witness :
  ∃ groups w' (w1 : Work nat),
    generate_ordered_work_items (client := Fixtures.hub)
      (model := Fixtures.echo_model) (builtins := Fixtures.toy_builtins)
      (loop := Fixtures.in_order)
      Fixtures.github 0 Fixtures.start = (Ok groups, w') ∧
    map group_type groups = ["Bug"; "Bug"; "Feature"; "Commit"] ∧
    commit_groups (by_type w') =
      Nat.max (commit_groups (by_type w1))
              (if include_commits Fixtures.github then 1 else 0)%nat.
Proof.
  eassert (generate_ordered_work_items (client := Fixtures.hub)
      (model := Fixtures.echo_model) (builtins := Fixtures.toy_builtins)
      (loop := Fixtures.in_order)
      Fixtures.github 0 Fixtures.start = (Ok _, _)) as Hrun
    by (vm_compute; reflexivity).
  destruct (commit_group_appended_once Fixtures.github _ _ _ _ Hrun)
    as (w1 & _ & _ & _ & Hcount).
  eexists _, _, w1. split; [exact Hrun|]. split; [reflexivity|exact Hcount].
Defined.

Lemma summary_candidates_are_the_listed_items_witness :
  store_ok Fixtures.after_resolution ∧
  item_summary Fixtures.azure = true ∧
  (∃ l, summary_candidates Fixtures.after_resolution
        = (Ok l, Fixtures.after_resolution)) ∧
  ∃ w' (o' : HierarchicalWorkItem),
    summary_pass (model := Fixtures.echo_model)
      (builtins := Fixtures.toy_builtins) (loop := Fixtures.in_order)
      Fixtures.azure
      Fixtures.after_resolution = (Ok tt, w') ∧
    heap w' !! 2%nat = Some o' ∧
    o' = flat (Fixtures.item 2 "Feature" false false 3).
Proof.
  assert (store_ok Fixtures.after_resolution) as Hok.
  { repeat constructor; eexists; reflexivity. }
  eassert (summary_pass (model := Fixtures.echo_model)
      (builtins := Fixtures.toy_builtins) (loop := Fixtures.in_order)
      Fixtures.azure
      Fixtures.after_resolution = (Ok tt, _)) as Hrun
    by (vm_compute; reflexivity).
  destruct (summary_candidates_are_the_listed_items
              (model := Fixtures.echo_model)
              (builtins := Fixtures.toy_builtins)
              (loop := Fixtures.in_order) Fixtures.azure
              Fixtures.after_resolution) as (_ & Htotal & Hpass).
  split; [exact Hok|]. split; [reflexivity|]. split; [exact (Htotal Hok)|].
  destruct (Hpass _ eq_refl Hrun) as [_ Hobj].
  destruct (Hobj 2%nat (flat (Fixtures.item 2 "Feature" false false 3))
              eq_refl) as (o' & Ho' & _ & _ & Hout).
  eexists _, o'. split; [exact Hrun|]. split; [exact Ho'|].
  apply Hout. intros (_ & Hid & _). simpl in Hid.
  destruct Hid as [|[|[]]]; discriminate.
Defined.


(** * Further properties *)

(** ** Strings *)

Lemma split_nonempty c s : split c s ≠ [].
Proof.
  destruct s as [|a s]; simpl; [done|].
  destruct (Ascii.eqb a c); [done|]. by destruct (split c s).
Qed.

Lemma split_no_char c s : has_char c s = false → split c s = [s].
Proof.
  induction s as [|a s IH]; simpl; [done|].
  destruct (Ascii.eqb a c); [done|]. simpl. intros H. by rewrite IH.
Qed.

Lemma split_app c a b :
  has_char c a = false →
  split c (a +:+ String c b) = a :: split c b.
Proof.
  induction a as [|x a IH]; simpl.
  - by rewrite Ascii.eqb_refl.
  - destruct (Ascii.eqb x c); [done|]. simpl. intros H. by rewrite IH.
Qed.

Lemma rstrip_no_char c s : has_char c s = false → rstrip c s = s.
Proof.
  induction s as [|a s IH]; simpl; [done|].
  destruct (Ascii.eqb a c); [done|]. simpl. intros H. rewrite (IH H).
  by destruct s.
Qed.

Lemma rstrip_app c a b :
  b ≠ EmptyString → has_char c b = false → rstrip c (a +:+ b) = a +:+ b.
Proof.
  intros Hb Hc. induction a as [|x a IH]; simpl.
  - by apply rstrip_no_char.
  - rewrite IH. change (String x a +:+ b) with (String x (a +:+ b)).
    destruct (a +:+ b) eqn:E; [|done].
    destruct a; simpl in E; [by destruct Hb|done].
Qed.

Lemma lstrip_first c s :
  s ≠ EmptyString → has_char c s = false → ∀ t, lstrip c (s +:+ t) = s +:+ t.
Proof.
  destruct s as [|a s]; [done|]. simpl. intros _ H t.
  by destruct (Ascii.eqb a c).
Qed.

Lemma append_assoc (a b c : string) : (a +:+ b) +:+ c = a +:+ b +:+ c.
Proof.
  induction a as [|x a IH]; [done|].
  change (String x ((a +:+ b) +:+ c) = String x (a +:+ b +:+ c)).
  by rewrite IH.
Qed.

Lemma length_append (a b : string) :
  String.length (a +:+ b) = (String.length a + String.length b)%nat.
Proof.
  induction a as [|x a IH]; [done|].
  change (S (String.length (a +:+ b))
          = S (String.length a + String.length b)).
  by rewrite IH.
Qed.

Lemma strip_two first second :
  first ≠ EmptyString → second ≠ EmptyString →
  has_char "/" first = false → has_char "/" second = false →
  strip "/" ("/" +:+ first +:+ "/" +:+ second) = first +:+ "/" +:+ second.
Proof.
  intros Hf Hs Hcf Hcs. unfold strip.
  change ("/" +:+ first +:+ "/" +:+ second)
    with (String "/" (first +:+ "/" +:+ second)).
  cbn [lstrip]. rewrite Ascii.eqb_refl, (lstrip_first _ _ Hf Hcf).
  rewrite <- append_assoc. by apply rstrip_app.
Qed.

(** The parts of the path [/first/second]. *)
Lemma path_parts_two first second parsed_url :
  path parsed_url = "/" +:+ first +:+ "/" +:+ second →
  first ≠ EmptyString → second ≠ EmptyString →
  has_char "/" first = false → has_char "/" second = false →
  path_parts parsed_url = [first; second].
Proof.
  intros Hpath Hf Hs Hcf Hcs. unfold path_parts. rewrite Hpath.
  rewrite strip_two by done.
  change (first +:+ "/" +:+ second) with (first +:+ String "/" second).
  rewrite split_app by done. by rewrite split_no_char.
Qed.

Lemma endswith_split s suffix :
  endswith s suffix = true → ∃ pre, s = pre +:+ suffix.
Proof.
  induction s as [|a s IH]; cbn [endswith].
  - rewrite orb_false_r. intros H. apply String.eqb_eq in H. by exists "".
  - intros H. apply orb_true_iff in H as [H|H].
    + apply String.eqb_eq in H. by exists "".
    + destruct (IH H) as [pre ->]. by exists (String a pre).
Qed.

Lemma endswith_append pre suffix : endswith (pre +:+ suffix) suffix = true.
Proof.
  induction pre as [|a pre IH].
  - change ("" +:+ suffix) with suffix.
    destruct suffix; cbn [endswith]; by rewrite String.eqb_refl.
  - change (endswith (String a (pre +:+ suffix)) suffix = true).
    cbn [endswith]. rewrite IH. apply orb_true_r.
Qed.

Lemma append_inj_tail (a b c d : string) :
  String.length b = String.length d → a +:+ b = c +:+ d → b = d.
Proof.
  revert c. induction a as [|x a IH]; intros [|y c] Hlen Heq.
  - done.
  - exfalso. apply (f_equal String.length) in Heq.
    change ("" +:+ b) with b in Heq. rewrite length_append in Heq.
    simpl in Heq. lia.
  - exfalso. apply (f_equal String.length) in Heq.
    change ("" +:+ d) with d in Heq. rewrite length_append in Heq.
    simpl in Heq. lia.
  - change (String x (a +:+ b) = String y (c +:+ d)) in Heq.
    injection Heq as _ Heq. by apply (IH c).
Qed.

(** Two suffixes of one string, of which the longer does not end with
    the shorter, cannot both hold. *)
Lemma endswith_clash s suffix cut rest other :
  suffix = cut +:+ rest → String.length rest = String.length other →
  rest ≠ other →
  endswith s suffix = true → endswith s other = false.
Proof.
  intros -> Hlen Hne Hs. destruct (endswith s other) eqn:Ho; [|done].
  apply endswith_split in Hs as [pre ->].
  apply endswith_split in Ho as [pre' Heq].
  rewrite <- append_assoc in Heq. by apply append_inj_tail in Heq.
Qed.

Lemma endswith_clash_longer s suffix cut rest other :
  other = cut +:+ rest → String.length rest = String.length suffix →
  rest ≠ suffix →
  endswith s suffix = true → endswith s other = false.
Proof.
  intros -> Hlen Hne Hs. destruct (endswith s (cut +:+ rest)) eqn:Ho; [|done].
  apply endswith_split in Hs as [pre ->].
  apply endswith_split in Ho as [pre' Heq].
  rewrite <- append_assoc in Heq. apply append_inj_tail in Heq; [|done].
  by destruct Hne.
Qed.

Lemma prefix_refl s : String.prefix s s = true.
Proof.
  induction s as [|a s IH]; [done|]. simpl.
  by destruct (ascii_dec a a).
Qed.

Lemma contains_append pre sub : contains sub (pre +:+ sub) = true.
Proof.
  induction pre as [|a pre IH].
  - change ("" +:+ sub) with sub.
    destruct sub; cbn [contains]; [done|]. by rewrite prefix_refl.
  - change (contains sub (String a (pre +:+ sub)) = true).
    cbn [contains]. rewrite IH. apply orb_true_r.
Qed.

Lemma split_two_app c pre suffix x y r :
  split c suffix = x :: y :: r →
  ∃ x' y' r', split c (pre +:+ suffix) = x' :: y' :: r'.
Proof.
  intros Hs. induction pre as [|a pre (x' & y' & r' & IH)].
  - by exists x, y, r.
  - change (String a pre +:+ suffix) with (String a (pre +:+ suffix)).
    simpl. rewrite IH. destruct (Ascii.eqb a c); by eexists _, _, _.
Qed.

(** ** [parse_project] *)

Section ParseProjectFacts.
Variable urlparse : string → ParseResult.
Variable unquote : string → string.
Implicit Types (args : ProjectArgs).

Lemma get_github_info_two url parsed_url owner repo :
  path parsed_url = "/" +:+ owner +:+ "/" +:+ repo →
  owner ≠ EmptyString → repo ≠ EmptyString →
  has_char "/" owner = false → has_char "/" repo = false →
  get_github_info url parsed_url
  = inr (owner +:+ "/" +:+ repo, owner, "https://api.github.com").
Proof.
  intros Hpath Ho Hr Hco Hcr. unfold get_github_info.
  by rewrite (path_parts_two owner repo _ Hpath).
Qed.

(** X1.  A GitHub address [https://github.com/owner/repo]: the project
    reference is [owner/repo], the organisation [owner]; every other
    argument is carried over. *)
Theorem parse_project_github args owner repo :
  netloc (urlparse (arg_url args)) = "github.com" →
  path (urlparse (arg_url args)) = "/" +:+ owner +:+ "/" +:+ repo →
  owner ≠ EmptyString → repo ≠ EmptyString →
  has_char "/" owner = false → has_char "/" repo = false →
  parse_project urlparse unquote args
  = inr (project_of args (owner +:+ "/" +:+ repo) owner
           "https://api.github.com" GITHUB).
Proof.
  intros Hnet Hpath Ho Hr Hco Hcr. unfold parse_project.
  rewrite Hnet. simpl String.eqb.
  by rewrite (get_github_info_two _ _ owner repo).
Qed.

(** X2.  A GitHub address whose path has a single segment is refused. *)
Theorem parse_project_github_single_segment args :
  netloc (urlparse (arg_url args)) = "github.com" →
  has_char "/" (strip "/" (path (urlparse (arg_url args)))) = false →
  parse_project urlparse unquote args
  = inl ("Invalid GitHub URL: " +:+ arg_url args).
Proof.
  intros Hnet Hc. unfold parse_project, get_github_info, path_parts.
  rewrite Hnet. simpl String.eqb. by rewrite (split_no_char _ _ Hc).
Qed.

(** X3.  An address [https://dev.azure.com/org/project], and any other host
    that ends in [dev.azure.com]: the project is the second segment of
    the path, unquoted, the organisation the first, and the client made
    for the project is an Azure DevOps client with these, the query, the
    token and the repository name. *)
Theorem parse_project_azure_devops args pre org project :
  netloc (urlparse (arg_url args)) = pre +:+ "dev.azure.com" →
  path (urlparse (arg_url args)) = "/" +:+ org +:+ "/" +:+ project →
  org ≠ EmptyString → project ≠ EmptyString →
  has_char "/" org = false → has_char "/" project = false →
  ∃ p,
    parse_project urlparse unquote args = inr p ∧
    p = project_of args (unquote project) org "https://dev.azure.com/"
          AZURE_DEVOPS ∧
    _create_platform_client p =
      DevOpsPlatformClient
        (DevOpsConfig.mk "https://dev.azure.com/" org (unquote project)
           (arg_query args) (arg_access_token args) (arg_repo_name args)).
Proof.
  intros Hnet Hpath Ho Hr Hco Hcr. set (pu := urlparse (arg_url args)) in *.
  assert (String.eqb (netloc pu) "github.com" = false) as Hgh.
  { apply String.eqb_neq. intros Heq. rewrite Heq in Hnet.
    apply (f_equal String.length) in Hnet. rewrite length_append in Hnet.
    simpl in Hnet. lia. }
  assert (endswith (netloc pu) "azure.com" = true) as Haz.
  { rewrite Hnet. change "dev.azure.com" with ("dev." +:+ "azure.com").
    rewrite <- append_assoc. apply endswith_append. }
  assert (contains "dev.azure.com" (netloc pu) = true) as Hin.
  { rewrite Hnet. apply contains_append. }
  eexists. split; [|split; [reflexivity|reflexivity]].
  unfold parse_project, get_azure_devops_info. fold pu.
  rewrite Hgh, Haz, Hin. cbn [andb].
  by rewrite (path_parts_two org project _ Hpath).
Qed.

(** X4.  Every host that ends in [visualstudio.com] is accepted, whatever the
    path: the two length tests of [get_old_azure_devops_info] never fire.
    The organisation is the first label of the host and the project the
    first segment of the path, even when it is empty. *)
Theorem parse_project_visualstudio_accepts args :
  endswith (netloc (urlparse (arg_url args))) "visualstudio.com" = true →
  ∃ organization label rest segment segments,
    split "." (netloc (urlparse (arg_url args)))
      = organization :: label :: rest ∧
    path_parts (urlparse (arg_url args)) = segment :: segments ∧
    parse_project urlparse unquote args
    = inr (project_of args (unquote segment) organization
             ("https://" +:+ organization +:+ ".visualstudio.com")
             AZURE_DEVOPS).
Proof.
  intros Hend. set (pu := urlparse (arg_url args)) in *.
  assert (String.eqb (netloc pu) "github.com" = false) as Hgh.
  { apply String.eqb_neq. intros Heq.
    apply endswith_split in Hend as [pre Hpre]. rewrite Heq in Hpre.
    apply (f_equal String.length) in Hpre. rewrite length_append in Hpre.
    simpl in Hpre. lia. }
  assert (endswith (netloc pu) "azure.com" = false) as Haz.
  { by apply (endswith_clash _ "visualstudio.com" "visuals" "tudio.com"). }
  destruct (endswith_split _ _ Hend) as [pre Hpre].
  destruct (split_two_app "." pre "visualstudio.com" "visualstudio" "com" [])
    as (organization & label & rest & Hsplit); [done|].
  rewrite <- Hpre in Hsplit.
  destruct (path_parts pu) as [|segment segments] eqn:Hparts.
  { by destruct (split_nonempty "/" (strip "/" (path pu))). }
  exists organization, label, rest, segment, segments.
  split; [done|]. split; [done|].
  unfold parse_project, get_old_azure_devops_info. fold pu.
  by rewrite Hgh, Haz, Hend, Hsplit, Hparts.
Qed.

(** X5.  A host under [github.com] other than [github.com] itself (such as
    [www.github.com]) is not recognised. *)
Theorem parse_project_github_subdomain_refused args sub :
  netloc (urlparse (arg_url args)) = sub +:+ ".github.com" →
  parse_project urlparse unquote args
  = inl ("Unable to determine platform from URL: " +:+ arg_url args).
Proof.
  intros Hnet. set (pu := urlparse (arg_url args)) in *.
  assert (endswith (netloc pu) ".github.com" = true) as Hend.
  { rewrite Hnet. apply endswith_append. }
  assert (String.eqb (netloc pu) "github.com" = false) as Hgh.
  { apply String.eqb_neq. intros Heq. rewrite Heq in Hnet.
    apply (f_equal String.length) in Hnet. rewrite length_append in Hnet.
    simpl in Hnet. lia. }
  assert (endswith (netloc pu) "azure.com" = false) as Haz.
  { by apply (endswith_clash _ ".github.com" ".g" "ithub.com"). }
  assert (endswith (netloc pu) "visualstudio.com" = false) as Hvs.
  { by apply (endswith_clash_longer _ ".github.com" "visua" "lstudio.com"). }
  unfold parse_project. fold pu. by rewrite Hgh, Haz, Hvs.
Qed.

End ParseProjectFacts.

(** ** The keywords of [get_commits] *)

Lemma fill_lookup key v (kwargs : gmap string string) k :
  fill key v kwargs !! k =
  match kwargs !! k with
  | Some x => Some x
  | None => if decide (k = key) then truthy v else None
  end.
Proof.
  unfold fill. destruct (kwargs !! key) as [x|] eqn:Hkey.
  - destruct (kwargs !! k) eqn:Hk; [done|].
    destruct (decide (k = key)) as [->|]; [congruence|done].
  - destruct (truthy v) as [s|].
    + destruct (decide (k = key)) as [->|Hne].
      * by rewrite lookup_insert_eq, Hkey.
      * rewrite lookup_insert_ne by done. by destruct (kwargs !! k).
    + destruct (kwargs !! k) eqn:Hk; [done|]. by destruct (decide (k = key)).
Qed.

Lemma commit_kwargs_lookup config (kwargs : gmap string string) k :
  commit_kwargs config kwargs !! k =
  match kwargs !! k with
  | Some x => Some x
  | None =>
      if decide (k = "from_tag") then truthy (GitHubConfig.from_tag config)
      else if decide (k = "to_tag") then truthy (GitHubConfig.to_tag config)
      else None
  end.
Proof.
  unfold commit_kwargs. rewrite !fill_lookup.
  destruct (kwargs !! k); [done|].
  destruct (decide (k = "from_tag")) as [->|]; [|done].
  destruct (truthy _); [done|]. by destruct (decide _).
Qed.

(** X6.  What [get_commits] passes on: a keyword of the caller is never
    replaced; [from_tag] and [to_tag] the caller left out come from the
    configuration when it has a non-empty value for them; no other key is
    added.  Passing the result through again changes nothing. *)
Theorem commit_kwargs_fills_missing_tags config (kwargs : gmap string string) :
  (∀ k, commit_kwargs config kwargs !! k =
        match kwargs !! k with
        | Some x => Some x
        | None =>
            if decide (k = "from_tag") then truthy (GitHubConfig.from_tag config)
            else if decide (k = "to_tag") then truthy (GitHubConfig.to_tag config)
            else None
        end) ∧
  commit_kwargs config (commit_kwargs config kwargs)
  = commit_kwargs config kwargs.
Proof.
  split; [apply commit_kwargs_lookup|]. apply map_eq. intros k.
  rewrite commit_kwargs_lookup.
  destruct (commit_kwargs config kwargs !! k) eqn:E; [done|].
  rewrite commit_kwargs_lookup in E. by destruct (kwargs !! k).
Qed.

(** ** From the project address to the GitHub client *)

(** X7.  For a GitHub address the client is a GitHub client for the repository
    [owner/repo] of the address, whatever [repo_name] was given, with the
    given token; and when [Work] asks it for the commits, the API receives
    the two tags that are not empty and no other keyword. *)
Theorem github_project_client urlparse unquote args owner repo :
  netloc (urlparse (arg_url args)) = "github.com" →
  path (urlparse (arg_url args)) = "/" +:+ owner +:+ "/" +:+ repo →
  owner ≠ EmptyString → repo ≠ EmptyString →
  has_char "/" owner = false → has_char "/" repo = false →
  ∃ project c,
    parse_project urlparse unquote args = inr project ∧
    _create_platform_client project = GitHubPlatformClient c ∧
    GitHubConfig.repo_name c = owner +:+ "/" +:+ repo ∧
    GitHubConfig.access_token c = arg_access_token args ∧
    (∀ Env (api : GitHubAPI Env),
       ∃ kwargs,
         get_commits (PlatformClient := github_client c)
           = api_get_commits kwargs ∧
         ∀ k, kwargs !! k =
              if decide (k = "from_tag") then truthy (Some (arg_from_tag args))
              else if decide (k = "to_tag") then truthy (Some (arg_to_tag args))
              else None).
Proof.
  intros Hnet Hpath Ho Hr Hco Hcr. eexists _, _.
  split.
  { unfold parse_project. rewrite Hnet. simpl String.eqb.
    by rewrite (get_github_info_two _ _ owner repo). }
  split; [done|]. split; [done|]. split; [done|].
  intros Env api. eexists. split; [done|]. intros k.
  by rewrite commit_kwargs_lookup, lookup_empty.
Qed.

(** ** Relations kept along a run *)

Section Moves.
Context {Env : Type} {loop : EventLoop Env}.
Variable R : Work Env → Work Env → Prop.
Hypothesis R_refl : ∀ w, R w w.
Hypothesis R_trans : ∀ w1 w2 w3, R w1 w2 → R w2 w3 → R w1 w3.

Lemma moves_ret {A} (a : A) : moves R (ret a).
Proof. intros w r w' [= <- <-]. apply R_refl. Qed.

Lemma moves_gets {A} (f : Work Env → A) : moves R (gets f).
Proof. intros w r w' [= <- <-]. apply R_refl. Qed.

Lemma moves_raise {A} e : moves R (raise (A := A) e).
Proof. intros w r w' [= <- <-]. apply R_refl. Qed.

Lemma moves_halt {A} h : moves R (halt_with (A := A) h).
Proof. intros w r w' [= <- <-]. apply R_refl. Qed.

Lemma moves_deref a : moves R (deref a).
Proof.
  intros w r w'. unfold deref.
  destruct (heap w !! a); intros [= <- <-]; apply R_refl.
Qed.

Lemma moves_bind {A B} (m : M Env A) (f : A → M Env B) :
  moves R m → (∀ a, moves R (f a)) → moves R (bind m f).
Proof.
  intros Hm Hf w r w'. unfold bind.
  destruct (m w) as [[a|e|h] w1] eqn:E.
  - intros H. eapply R_trans; [apply (Hm _ _ _ E)|apply (Hf _ _ _ _ H)].
  - intros [= <- <-]. apply (Hm _ _ _ E).
  - intros [= <- <-]. apply (Hm _ _ _ E).
Qed.

Lemma moves_for_each {A} (l : list A) (body : A → M Env unit) :
  (∀ x, moves R (body x)) → moves R (for_each l body).
Proof.
  intros Hb. induction l as [|x l IH]; simpl; [apply moves_ret|].
  apply moves_bind; [apply Hb|]. intros _. apply IH.
Qed.

Lemma moves_fold_m {A B} (f : B → A → M Env B) (l : list A) :
  (∀ b x, moves R (f b x)) → ∀ b, moves R (fold_m f b l).
Proof.
  intros Hf. induction l as [|x l IH]; intros b; simpl; [apply moves_ret|].
  apply moves_bind; [apply Hf|]. apply IH.
Qed.

Lemma moves_map_m {A B} (f : A → M Env B) (l : list A) :
  (∀ x, moves R (f x)) → moves R (map_m f l).
Proof.
  intros Hf. induction l as [|x l IH]; simpl; [apply moves_ret|].
  apply moves_bind; [apply Hf|]. intros y.
  apply moves_bind; [apply IH|]. intros ys. apply moves_ret.
Qed.

Lemma moves_gather_map {A B} (f : A → M Env B) (l : list A) :
  (∀ x, moves R (f x)) → moves R (gather (map f l)).
Proof. by apply gather_moves. Qed.

End Moves.

(** One step of a proof that a relation is kept. *)
Ltac moves_step :=
  lazymatch goal with
  | |- ∀ _, _ => intro
  | |- moves _ (bind _ _) => apply moves_bind
  | |- moves _ (ret _) => apply moves_ret
  | |- moves _ (gets _) => apply moves_gets
  | |- moves _ (raise _) => apply moves_raise
  | |- moves _ (halt_with _) => apply moves_halt
  | |- moves _ (deref _) => apply moves_deref
  | |- moves _ (for_each _ _) => apply moves_for_each
  | |- moves _ (fold_m _ _ _) => apply moves_fold_m
  | |- moves _ (map_m _ _) => apply moves_map_m
  | |- moves _ (gather (map _ _)) =>
      apply moves_gather_map
  | |- moves _ (if ?b then _ else _) => destruct b
  | |- moves _ (match ?x with _ => _ end) => destruct x
  | |- moves _ (let _ := _ in _) => cbv zeta
  end.

Ltac moves_auto :=
  repeat first
    [ assumption
    | moves_step
    | match goal with H : _ |- moves _ _ => apply H end ].

(** ** Additions only *)

Section OnlyAdds.
Context {Env : Type} {client : PlatformClient Env} {model : Model Env}
        {builtins : Builtins} {loop : EventLoop Env}.
Variable config : Config.
Implicit Types (w : Work Env) (o : HierarchicalWorkItem).

Lemma only_adds_refl w : only_adds w w.
Proof. split; [apply grows_refl|done]. Qed.

Lemma only_adds_trans w1 w2 w3 :
  only_adds w1 w2 → only_adds w2 w3 → only_adds w1 w3.
Proof.
  intros (Hg1 & Hr1 & Hb1 & Hi1) (Hg2 & Hr2 & Hb2 & Hi2).
  split; [by eapply grows_trans|]. repeat split; congruence.
Qed.

Lemma only_adds_put_env e c w : only_adds w (put_env e c w).
Proof.
  split; [|done]. split; exists []; simpl; by rewrite app_nil_r.
Qed.

Lemma moves_external {A} (f : Env → (PyExn + A) * Env) record :
  moves only_adds (external f record).
Proof.
  intros w r w' H. rewrite (external_put_env _ _ _ _ _ H).
  apply only_adds_put_env.
Qed.

Lemma moves_add (p : HierarchicalWorkItem) :
  moves only_adds (add (Env := Env) p).
Proof.
  intros w r w'. pose proof (add_run p w) as H.
  destruct (dict_get (all w) (id p)); rewrite H; intros [= <- <-].
  - apply only_adds_refl.
  - split; [|done]. split; simpl; eauto.
Qed.

Lemma moves_get_item_by_id k : moves only_adds (get_item_by_id k).
Proof.
  unfold get_item_by_id.
  pose proof only_adds_refl. pose proof only_adds_trans.
  pose proof @moves_external. pose proof moves_add. moves_auto.
Qed.

Lemma moves_walk_parents fuel :
  ∀ cur tf, moves only_adds (walk_parents fuel cur tf).
Proof.
  pose proof only_adds_refl. pose proof only_adds_trans.
  pose proof moves_get_item_by_id.
  induction fuel as [|fuel IH]; intros cur tf; simpl; moves_auto.
Qed.

(** X11.  Whatever the client answers and however the run ends, the parent
    resolution only adds: the objects and the Store entries there were are
    as before, new ones come after them, and the roots, the groups and the
    listed identities are not assigned.  So every identity found in the
    Store before is found after, at the same object. *)
Theorem fetch_parents_only_adds fuel w r w' :
  _fetch_parents config fuel w = (r, w') →
  only_adds w w' ∧
  (∀ k a, dict_get (all w) k = Some a → dict_get (all w') k = Some a) ∧
  (∀ a o, heap w !! a = Some o → heap w' !! a = Some o).
Proof.
  intros Hrun.
  assert (only_adds w w') as Hadds.
  { revert w r w' Hrun. change (moves only_adds (_fetch_parents config fuel)).
    unfold _fetch_parents.
    pose proof only_adds_refl. pose proof only_adds_trans.
    pose proof moves_get_item_by_id. pose proof (moves_walk_parents fuel).
    moves_auto. }
  split; [done|]. destruct Hadds as [Hg _]. split.
  - intros k a Hget. destruct Hg as [_ [d ->]].
    by rewrite dict_get_app, Hget.
  - intros a o. by apply grows_lookup.
Qed.

End OnlyAdds.

(** ** The keys of the Store *)

Section Keyed.
Context {Env : Type} {client : PlatformClient Env} {model : Model Env}
        {builtins : Builtins} {loop : EventLoop Env}.
Variable config : Config.
Implicit Types (w : Work Env) (o : HierarchicalWorkItem).

Lemma keeps_keyed_refl w : keeps_keyed w w.
Proof. by intros ?. Qed.

Lemma keeps_keyed_trans w1 w2 w3 :
  keeps_keyed w1 w2 → keeps_keyed w2 w3 → keeps_keyed w1 w3.
Proof. unfold keeps_keyed. tauto. Qed.

Lemma keyed_store_ok w : keyed w → store_ok w.
Proof.
  intros Hk. apply List.Forall_forall. intros a Ha.
  apply in_map_iff in Ha as ([k a'] & <- & Hin).
  destruct (Hk _ _ Hin) as (o & Ho & _). by exists o.
Qed.

Lemma keyed_put_env e c w : keyed w → keyed (put_env e c w).
Proof. done. Qed.

Lemma keyed_put_root_items l w : keyed w → keyed (put_root_items l w).
Proof. done. Qed.

Lemma keyed_put_by_type l w : keyed w → keyed (put_by_type l w).
Proof. done. Qed.

Lemma keyed_put_item_ids l w : keyed w → keyed (put_item_ids l w).
Proof. done. Qed.

Lemma keyed_alloc o w : keyed w → keyed (put_heap (heap w ++ [o]) w).
Proof.
  intros Hk k a Hin. destruct (Hk _ _ Hin) as (o' & Ho' & Hid).
  exists o'. split; [|done]. simpl. by apply lookup_app_l_Some.
Qed.

Lemma keyed_update a (f : HierarchicalWorkItem → HierarchicalWorkItem) o w :
  (∀ o, id (f o) = id o) → heap w !! a = Some o →
  keyed w → keyed (put_heap (<[a := f o]> (heap w)) w).
Proof.
  intros Hf Ho Hk k a' Hin. destruct (Hk _ _ Hin) as (o' & Ho' & Hid).
  simpl. destruct (decide (a = a')) as [<-|Hne].
  - exists (f o). rewrite list_lookup_insert_eq by by eapply lookup_lt_Some.
    split; [done|]. rewrite Hf. congruence.
  - exists o'. by rewrite list_lookup_insert_ne.
Qed.

Lemma dict_set_In {V} (d : dict V) k v k' v' :
  In (k', v') (dict_set d k v) → (k', v') = (k, v) ∨ In (k', v') d.
Proof.
  induction d as [|[k0 v0] d IH]; simpl.
  - intros [[= -> ->]|[]]. by left.
  - destruct (Z.eqb_spec k0 k) as [->|Hne]; simpl.
    + intros [[= -> ->]|Hin]; [by left|right; by right].
    + intros [Heq|Hin]; [right; by left|].
      destruct (IH Hin); [by left|right; by right].
Qed.

Lemma keyed_set k a o w :
  heap w !! a = Some o → id o = k →
  keyed w → keyed (put_all (dict_set (all w) k a) w).
Proof.
  intros Ho Hid Hk k' a' Hin. simpl in Hin.
  apply dict_set_In in Hin as [[= -> ->]|Hin]; [by exists o|].
  by apply Hk.
Qed.

Lemma moves_keyed_external {A} (f : Env → (PyExn + A) * Env) record :
  moves (Env := Env) keeps_keyed (external f record).
Proof.
  intros w r w' H. rewrite (external_put_env _ _ _ _ _ H).
  exact (keyed_put_env _ _ _).
Qed.

Lemma moves_keyed_consult {A} (f : Env → (PyExn + A) * Env) :
  moves (Env := Env) keeps_keyed (consult f).
Proof.
  intros w r w' H. rewrite (consult_put_env _ _ _ _ H).
  exact (keyed_put_env _ _ _).
Qed.

Lemma moves_keyed_alloc o : moves (Env := Env) keeps_keyed (alloc (Env := Env) o).
Proof. intros w r w' [= <- <-]. exact (keyed_alloc _ _). Qed.

Lemma moves_keyed_update a (f : HierarchicalWorkItem → HierarchicalWorkItem) :
  (∀ o, id (f o) = id o) → moves (Env := Env) keeps_keyed (update (Env := Env) a f).
Proof.
  intros Hf w r w'. unfold update, bind, deref.
  destruct (heap w !! a) as [o|] eqn:Ho; intros [= <- <-];
    [|apply keeps_keyed_refl].
  exact (keyed_update a f o w Hf Ho).
Qed.

Lemma moves_keyed_add (p : HierarchicalWorkItem) :
  moves (Env := Env) keeps_keyed (add (Env := Env) p).
Proof.
  intros w r w'. pose proof (add_run p w) as H.
  destruct (dict_get (all w) (id p)) eqn:Hget; rewrite H; intros [= <- <-].
  - apply keeps_keyed_refl.
  - intros Hk k a Hin. simpl in Hin.
    apply in_app_or in Hin as [Hin|[[= <- <-]|[]]].
    + destruct (Hk _ _ Hin) as (o & Ho & Hid). exists o.
      split; [|done]. simpl. by apply lookup_app_l_Some.
    + exists p. split; [|done]. simpl. apply lookup_alloc.
Qed.

Lemma moves_keyed_modify (f : Work Env → Work Env) :
  (∀ w, keyed w → keyed (f w)) → moves (Env := Env) keeps_keyed (modify f).
Proof. intros Hf w r w' [= <- <-]. exact (Hf w). Qed.

Lemma moves_keyed_index_child a : moves (Env := Env) keeps_keyed (index_child (Env := Env) a).
Proof.
  intros w r w'. unfold index_child, bind, deref.
  destruct (heap w !! a) as [o|] eqn:Ho; intros [= <- <-];
    [|apply keeps_keyed_refl].
  intros Hk. apply keyed_put_item_ids. by apply (keyed_set _ _ o).
Qed.

Lemma moves_keyed_alloc_tree : ∀ t, moves (Env := Env) keeps_keyed (alloc_tree (Env := Env) t).
Proof.
  fix IH 1. intros [wi kids]. simpl.
  apply moves_bind; [apply keeps_keyed_trans| |].
  - induction kids as [|k kids IHk];
      [apply moves_ret, keeps_keyed_refl|].
    apply moves_bind; [apply keeps_keyed_trans|apply IH|]. intros a.
    apply moves_bind; [apply keeps_keyed_trans|apply IHk|]. intros r.
    apply moves_ret, keeps_keyed_refl.
  - intros cs. apply moves_keyed_alloc.
Qed.

Lemma moves_keyed_create_other_parent :
  moves (Env := Env) keeps_keyed (_create_other_parent config).
Proof.
  intros w r w' Hrun Hk. pose proof (keyed_store_ok _ Hk) as Hok.
  destruct (Platform_eqb (platform config) GITHUB) eqn:Hp.
  { unfold _create_other_parent in Hrun. rewrite Hp in Hrun.
    by injection Hrun as <- <-. }
  destruct (orphans w) as [|x l] eqn:Hor.
  { rewrite (create_other_parent_idle config w Hok) in Hrun by by right.
    by injection Hrun as <- <-. }
  destruct (create_other_parent_run config w) as (h & Hrun' & Hlen & Hb & Hold);
    [by destruct (platform config)|done|by rewrite Hor|].
  rewrite Hrun' in Hrun. injection Hrun as <- <-.
  intros k a Hin. simpl in *.
  apply dict_set_In in Hin as [[= -> ->]|Hin].
  - eexists. by split.
  - destruct (Hk _ _ Hin) as (o & Ho & Hid).
    rewrite (Hold _ _ Ho). eexists. split; [done|].
    by destruct (bool_decide _).
Qed.

Ltac keyed_auto :=
  pose proof keeps_keyed_refl; pose proof keeps_keyed_trans;
  pose proof @moves_keyed_external; pose proof @moves_keyed_consult;
  pose proof moves_keyed_add; pose proof moves_keyed_alloc;
  pose proof moves_keyed_index_child; pose proof moves_keyed_alloc_tree;
  moves_auto.

Lemma moves_keyed_get_item_by_id k : moves (Env := Env) keeps_keyed (get_item_by_id k).
Proof. unfold get_item_by_id. keyed_auto. Qed.

Lemma moves_keyed_walk_parents fuel :
  ∀ cur tf, moves (Env := Env) keeps_keyed (walk_parents fuel cur tf).
Proof.
  pose proof moves_keyed_get_item_by_id.
  induction fuel as [|fuel IH]; intros cur tf; simpl; keyed_auto.
Qed.

Lemma moves_keyed_fetch_parents fuel :
  moves (Env := Env) keeps_keyed (_fetch_parents config fuel).
Proof.
  unfold _fetch_parents. pose proof moves_keyed_get_item_by_id.
  pose proof (moves_keyed_walk_parents fuel). keyed_auto.
Qed.

Lemma moves_keyed_load_devops fuel items :
  moves (Env := Env) keeps_keyed (load_devops config fuel items).
Proof.
  unfold load_devops. pose proof moves_keyed_get_item_by_id.
  pose proof (moves_keyed_fetch_parents fuel).
  pose proof moves_keyed_create_other_parent.
  apply moves_bind; [apply keeps_keyed_trans| |].
  { apply moves_keyed_modify. intros w. apply keyed_put_item_ids. }
  keyed_auto.
Qed.

Lemma moves_keyed_load_github items :
  moves (Env := Env) keeps_keyed (load_github (Env := Env) items).
Proof.
  unfold load_github, receive.
  assert (∀ l, moves (Env := Env) keeps_keyed (modify (put_root_items (Env := Env) l))).
  { intros l. apply moves_keyed_modify. intros w. apply keyed_put_root_items. }
  keyed_auto.
Qed.

Lemma moves_keyed_summarize_work_item a :
  moves (Env := Env) keeps_keyed (summarize_work_item config a).
Proof.
  unfold summarize_work_item.
  assert (∀ s, moves (Env := Env) keeps_keyed (update (Env := Env) a (with_summary s))).
  { intros s. by apply moves_keyed_update. }
  keyed_auto.
Qed.

Lemma moves_keyed_summary_pass : moves (Env := Env) keeps_keyed (summary_pass config).
Proof.
  unfold summary_pass, summary_candidates.
  pose proof moves_keyed_summarize_work_item.
  assert (∀ l, moves (Env := Env) keeps_keyed (filter_m (is_candidate (Env := Env)) l)).
  { intros l w r w' Hrun.
    destruct (filter_m_reads _ _ _ _ _ _ is_candidate_reads Hrun) as [-> _].
    apply keeps_keyed_refl. }
  keyed_auto.
Qed.

Lemma moves_keyed_append_commits : moves (Env := Env) keeps_keyed append_commits.
Proof.
  unfold append_commits, _convert_commit_to_work_item.
  assert (∀ l : Work Env → list WorkItemGroup,
            moves (Env := Env) keeps_keyed (modify (λ w, put_by_type (l w) w))).
  { intros l. apply moves_keyed_modify. intros w. apply keyed_put_by_type. }
  keyed_auto.
Qed.

End Keyed.

Section KeyedRuns.
Context {Env : Type} {client : PlatformClient Env} {model : Model Env}
        {builtins : Builtins} {loop : EventLoop Env}
        {queries : QueryClient Env}.
Variable config : Config.
Implicit Types (w : Work Env) (o : HierarchicalWorkItem).

Lemma moves_keyed_get_items_from_query query_id :
  moves (Env := Env) keeps_keyed (get_items_from_query query_id).
Proof.
  unfold get_items_from_query.
  pose proof keeps_keyed_refl (Env := Env).
  pose proof keeps_keyed_trans (Env := Env).
  pose proof @moves_keyed_consult Env. pose proof moves_keyed_add (Env := Env).
  moves_auto.
Qed.

Lemma moves_keyed_details_github fuel :
  platform config = GITHUB →
  moves (Env := Env) keeps_keyed (get_items_with_details config fuel).
Proof.
  intros Hp. unfold get_items_with_details, build_groups. rewrite Hp.
  cbn [Platform_eqb].
  pose proof keeps_keyed_refl (Env := Env).
  pose proof keeps_keyed_trans (Env := Env).
  pose proof @moves_keyed_external Env.
  pose proof moves_keyed_load_github (Env := Env).
  pose proof (moves_keyed_summary_pass config).
  assert (∀ l, moves (Env := Env) keeps_keyed (modify (put_by_type l))).
  { intros l. apply moves_keyed_modify. intros w. apply keyed_put_by_type. }
  unfold root_group. moves_auto.
Qed.

(** X10.  The Store stays keyed: if every key of the Store is the identity of
    the object stored under it, this is so after a query for work items,
    after the loading of the Azure DevOps branch (the fetches, the parent
    resolution and the orphan bucket), after the summary pass, and after a
    whole run on GitHub, whatever the collaborators answer and however the
    run ends. *)
Theorem store_stays_keyed :
  (∀ query_id w (r : outcome (list ref)) w',
     get_items_from_query query_id w = (r, w') → keyed w → keyed w') ∧
  (∀ fuel items w (r : outcome unit) w',
     load_devops config fuel items w = (r, w') → keyed w → keyed w') ∧
  (∀ w (r : outcome unit) w',
     summary_pass config w = (r, w') → keyed w → keyed w') ∧
  (platform config = GITHUB →
   ∀ fuel w (r : outcome (list WorkItemGroup)) w',
     generate_ordered_work_items config fuel w = (r, w') →
     keyed w → keyed w').
Proof.
  split; [intros q; apply moves_keyed_get_items_from_query|].
  split; [intros fuel items; apply moves_keyed_load_devops|].
  split; [apply moves_keyed_summary_pass|].
  intros Hp fuel. change (moves (Env := Env) keeps_keyed
                            (generate_ordered_work_items config fuel)).
  unfold generate_ordered_work_items.
  pose proof keeps_keyed_refl (Env := Env).
  pose proof keeps_keyed_trans (Env := Env).
  pose proof (moves_keyed_details_github fuel Hp).
  pose proof moves_keyed_append_commits (Env := Env).
  moves_auto.
Qed.

(** *** [get_items_from_query] *)

Lemma map_add_run (items : list WorkItem) : ∀ w,
  ∃ refs w',
    map_m (λ item, add (flat item)) items w = (Ok refs, w') ∧
    only_adds w w' ∧ env w' = env w ∧ calls w' = calls w ∧
    Forall2 (λ item a, dict_get (all w') (id item) = Some a) items refs ∧
    (∀ k, dict_mem (all w') k = true ↔
          dict_mem (all w) k = true ∨ ∃ item, In item items ∧ id item = k).
Proof.
  induction items as [|item items IH]; intros w.
  - exists [], w. split; [done|]. split; [apply only_adds_refl|].
    split; [done|]. split; [done|]. split; [constructor|].
    intros k. split; [by left|]. by intros [?|(? & [] & _)].
  - assert (∃ a w1, add (flat item) w = (Ok a, w1) ∧ only_adds w w1 ∧
              env w1 = env w ∧ calls w1 = calls w ∧
              dict_get (all w1) (id item) = Some a ∧
              (∀ k, dict_mem (all w1) k = true ↔
                    dict_mem (all w) k = true ∨ id item = k))
      as (a & w1 & Hadd & Hadds1 & He1 & Hc1 & Hget1 & Hmem1).
    { pose proof (add_run (flat item) w) as H. simpl in H.
      destruct (dict_get (all w) (id item)) as [a|] eqn:Hget.
      - exists a, w. split; [done|]. split; [apply only_adds_refl|].
        split; [done|]. split; [done|]. split; [done|].
        intros k. split; [by left|].
        intros [?|<-]; [done|]. unfold dict_mem. by rewrite Hget.
      - eexists _, _. split; [exact H|].
        split; [by apply (moves_add _ _ _ _ H)|].
        split; [done|]. split; [done|]. simpl. split.
        { rewrite dict_get_app, Hget. simpl. by rewrite Z.eqb_refl. }
        intros k. unfold dict_mem. rewrite dict_get_app. simpl. split.
        + destruct (dict_get (all w) k); [by left|].
          destruct (Z.eqb_spec (id item) k); [by right|done].
        + intros [Hk|<-].
          * by destruct (dict_get (all w) k).
          * rewrite Z.eqb_refl. by destruct (dict_get (all w) (id item)). }
    destruct (IH w1) as (refs & w' & Hrun & Hadds & He & Hc & Hall & Hmem).
    exists (a :: refs), w'. split.
    { simpl. rewrite (bind_run _ _ _ _ _ Hadd), (bind_run _ _ _ _ _ Hrun).
      done. }
    split; [by eapply only_adds_trans|].
    split; [congruence|]. split; [congruence|]. split.
    + constructor; [|done]. destruct Hadds as [[_ [d ->]] _].
      by rewrite dict_get_app, Hget1.
    + intros k. rewrite Hmem, Hmem1. split.
      * intros [[?|<-]|(x & Hx & <-)]; [by left| |].
        -- right. exists item. split; [by left|done].
        -- right. exists x. split; [by right|done].
      * intros [?|(x & [<-|Hx] & <-)]; [left; by left|left; by right|].
        right. by exists x.
Qed.

(** X8.  A query the client answers: every returned item is looked up by its
    identity and stored if it is new, and the references come back in the
    order of the reply.  Afterwards each reference is the Store entry of
    its item's identity; the entries there were are kept (a stored item is
    not replaced by the one of the reply); the keys are the old ones and
    the identities of the reply; nothing else of the engine changes and no
    call is recorded. *)
Theorem get_items_from_query_stores query_id w items e' :
  get_work_items_from_query query_id (env w) = (inr items, e') →
  ∃ refs w',
    get_items_from_query query_id w = (Ok refs, w') ∧
    Forall2 (λ (item : WorkItem) a, dict_get (all w') (id item) = Some a)
      items refs ∧
    (∀ k a, dict_get (all w) k = Some a → dict_get (all w') k = Some a) ∧
    (∀ a o, heap w !! a = Some o → heap w' !! a = Some o) ∧
    (∀ k, dict_mem (all w') k = true ↔
          dict_mem (all w) k = true ∨ ∃ item, In item items ∧ id item = k) ∧
    only_adds w w' ∧ env w' = e' ∧ calls w' = calls w.
Proof.
  intros Hq. unfold get_items_from_query.
  destruct (map_add_run items (put_env e' (calls w) w))
    as (refs & w' & Hrun & Hadds & He & Hc & Hall & Hmem).
  exists refs, w'. split.
  { unfold bind at 1, consult. rewrite Hq. exact Hrun. }
  split; [done|]. destruct Hadds as (Hg & Hr & Hb & Hi). split.
  { intros k a Hget. destruct Hg as [_ [d ->]]. simpl.
    by rewrite dict_get_app, Hget. }
  split; [intros a o; by apply (grows_lookup _ _ _ _ Hg)|].
  split; [done|]. split; [|done]. by split.
Qed.

Lemma map_add_known (items : list WorkItem) : ∀ refs w,
  Forall2 (λ (item : WorkItem) a, dict_get (all w) (id item) = Some a)
    items refs →
  map_m (λ item, add (flat item)) items w = (Ok refs, w).
Proof.
  induction items as [|item items IH]; intros refs w Hall.
  - by apply Forall2_nil_inv_l in Hall as ->.
  - apply Forall2_cons_inv_l in Hall as (a & refs' & Ha & Hall & ->).
    simpl. rewrite (bind_run _ _ _ _ _ (add_present w (flat item) a Ha)).
    by rewrite (bind_run _ _ _ _ _ (IH _ _ Hall)).
Qed.

(** X9.  Asking twice gives the same: after a query that returned, a query
    with the same reply returns the same references and leaves the
    engine as it is (only the outside world moves); and a query the
    client fails raises the client's exception, the engine as before. *)
Theorem get_items_from_query_again query_id w refs w' :
  get_items_from_query query_id w = (Ok refs, w') →
  ∃ items,
    (get_work_items_from_query query_id (env w)).1 = inr items ∧
    (∀ query_id' e'',
       get_work_items_from_query query_id' (env w') = (inr items, e'') →
       get_items_from_query query_id' w'
       = (Ok refs, put_env e'' (calls w') w')) ∧
    (∀ query_id' e e'',
       get_work_items_from_query query_id' (env w') = (inl e, e'') →
       get_items_from_query query_id' w'
       = (Raise e, put_env e'' (calls w') w')).
Proof.
  unfold get_items_from_query at 1. intros Hrun.
  apply bind_Ok in Hrun as (items & w1 & Hq & Hrun).
  unfold consult in Hq.
  destruct (get_work_items_from_query query_id (env w)) as [[e|items'] e1]
    eqn:Hreply; [done|].
  injection Hq as -> <-. exists items. split; [done|].
  destruct (map_add_run items (put_env e1 (calls w) w))
    as (refs' & w'' & Hrun' & _ & _ & _ & Hall & _).
  rewrite Hrun in Hrun'. injection Hrun' as <- <-. split.
  - intros q e'' Hq. unfold get_items_from_query, bind at 1, consult.
    rewrite Hq. by apply map_add_known.
  - intros q e e'' Hq. unfold get_items_from_query, bind, consult.
    by rewrite Hq.
Qed.

End KeyedRuns.

Section GitHubCalls.
Context {Env : Type} {client : PlatformClient Env} {model : Model Env}
        {builtins : Builtins} {loop : EventLoop Env}.
Variable config : Config.
Implicit Types (w : Work Env) (o : HierarchicalWorkItem).

Lemma post_details_github fuel :
  platform config = GITHUB →
  post (get_items_with_details config fuel)
       (calls_within (github_call config)).
Proof.
  intros Hp. unfold get_items_with_details. rewrite Hp. cbn [Platform_eqb].
  apply post_bind; [apply _|by apply post_external_allowed|]. intros items.
  apply post_bind; [apply _|apply post_load_github_allowed|]. intros _.
  apply post_after_loading_allowed. intros Hs prompt x. exact Hs.
Qed.

(** X13.  On GitHub a run never fetches a single item: the calls it adds are the
    query for the work items, calls of the summariser (only when item
    summaries are enabled) and the request for the commits (only when
    commits are included), whatever the collaborators answer and however
    the run ends. *)
Theorem github_run_fetches_no_single_item fuel w
    (r : outcome (list WorkItemGroup)) w' :
  platform config = GITHUB →
  generate_ordered_work_items config fuel w = (r, w') →
  ∃ evs, calls w' = calls w ++ evs ∧
    Forall (λ c, github_call config c = true) evs ∧
    fetch_calls evs = 0%nat.
Proof.
  intros Hp Hrun.
  assert (calls_within (github_call config) _ w r w') as (evs & Hc & Hall).
  { revert w r w' Hrun.
    change (post (generate_ordered_work_items config fuel)
                 (calls_within (github_call config))).
    unfold generate_ordered_work_items.
    apply post_bind; [apply _|apply post_gets, _|]. intros groups.
    apply post_bind; [apply _| |].
    { destruct groups; [|apply post_ret, _].
      apply post_bind; [apply _|by apply post_details_github|].
      intros _. apply post_ret, _. }
    intros _. apply post_bind; [apply _|apply post_gets, _|]. intros groups'.
    apply post_bind; [apply _| |intros _; apply post_gets, _].
    destruct (include_commits config) eqn:Hi; simpl; [|apply post_ret, _].
    destruct (has_commit_group groups'); simpl; [apply post_ret, _|].
    unfold append_commits.
    apply post_bind; [apply _| |].
    { apply post_external_allowed. intros x. exact Hi. }
    intros commits. apply post_bind; [apply _| |].
    { apply post_map_m; [apply _|]. intros c. apply post_convert_commit, _. }
    intros commit_items w1 r1 w2 [= <- <-]. by apply calls_within_idle. }
  exists evs. split; [done|]. split; [done|].
  unfold fetch_calls. clear Hc. induction Hall as [|c l Hc _ IH]; [done|].
  simpl. by destruct c.
Qed.

End GitHubCalls.

(** ** The fetches of the parent resolution *)

Lemma concat_slices {A} (ids : list A) (step : nat) :
  (0 < step)%nat →
  concat (map (λ i, slice ids i (i + step)) (py_range 0 (length ids) step))
  = ids.
Proof.
  intros Hstep. unfold py_range, slice. rewrite Nat.sub_0_r.
  set (m := ((length ids + step - 1) / step)%nat).
  assert (∀ n, concat (map (λ i, take (i + step - i) (drop i ids))
                         (map (λ j, (0 + j * step)%nat) (seq 0 n)))
               = take (n * step) ids) as Hchunks.
  { induction n as [|n IH]; [done|].
    rewrite seq_S, !map_app, concat_app, IH. simpl. rewrite app_nil_r.
    replace (n * step + step - n * step)%nat with step by lia.
    rewrite take_take_drop. f_equal. lia. }
  rewrite Hchunks. apply take_ge. unfold m.
  pose proof (Nat.div_mod_eq (length ids + step - 1) step) as Hdm.
  pose proof (Nat.mod_upper_bound (length ids + step - 1) step) as Hub.
  nia.
Qed.

Section FetchCount.
Context {Env : Type} {client : PlatformClient Env} {model : Model Env}
        {builtins : Builtins} {loop : EventLoop Env}.
Variable config : Config.
Implicit Types (w : Work Env) (o : HierarchicalWorkItem).

Lemma dict_mem_keys {V} (d0 d : dict V) k :
  In k (map fst d) → dict_mem (d0 ++ d) k = true.
Proof.
  intros Hin. unfold dict_mem. rewrite dict_get_app.
  destruct (dict_get d0 k); [done|].
  induction d as [|[k' v] d IH]; [done|]. simpl in *.
  destruct (Z.eqb_spec k' k); [done|]. destruct Hin; [done|by apply IH].
Qed.

Lemma dict_mem_app_false {V} (d d' : dict V) k :
  dict_mem (d ++ d') k = false → dict_mem d k = false.
Proof.
  intros H. destruct (dict_mem d k) eqn:E; [|done].
  by rewrite (dict_mem_app _ d' _ E) in H.
Qed.

Lemma climbed_refl w : climbed w [] w.
Proof.
  split; [exists []; by rewrite app_nil_r|].
  split; [by rewrite app_nil_r|]. split; constructor.
Qed.

Lemma climbed_trans w ks1 w1 ks2 w2 :
  climbed w ks1 w1 → climbed w1 ks2 w2 → climbed w (ks1 ++ ks2) w2.
Proof.
  intros ((d1 & Ha1 & Hk1) & Hc1 & Hn1 & Hf1) ((d2 & Ha2 & Hk2) & Hc2 & Hn2 & Hf2).
  rewrite List.Forall_forall in Hf1, Hf2. split; [|split; [|split]].
  - exists (d1 ++ d2). rewrite Ha2, Ha1, app_assoc, map_app.
    by rewrite Hk1, Hk2.
  - unfold fetches. by rewrite Hc2, Hc1, map_app, app_assoc.
  - apply NoDup_app. split; [done|]. split; [|done].
    intros k Hin1 Hin2. apply list_elem_of_In in Hin1, Hin2.
    specialize (Hf2 _ Hin2). rewrite Ha1 in Hf2.
    rewrite dict_mem_keys in Hf2; [done|]. by rewrite Hk1.
  - apply List.Forall_forall. intros k Hin.
    apply in_app_or in Hin as [Hin|Hin]; [by apply Hf1|].
    specialize (Hf2 _ Hin). rewrite Ha1 in Hf2.
    by apply dict_mem_app_false in Hf2.
Qed.

Lemma climbed_stored w ks w' k :
  climbed w ks w' → In k ks → dict_mem (all w') k = true.
Proof.
  intros ((d & -> & <-) & _) Hin. by apply dict_mem_keys.
Qed.

(** One fetch of an identity that is not stored. *)
Lemma get_item_by_id_climbs k w :
  always_found → dict_mem (all w) k = false →
  ∃ w', get_item_by_id k w = (Ok (length (heap w)), w') ∧ climbed w [k] w'.
Proof.
  intros Hfound Hmem. destruct (Hfound k (env w)) as (wi & e' & Hget & Hid).
  rewrite (get_item_by_id_run _ _ _ _ Hget).
  eexists. rewrite add_absent.
  2:{ simpl. rewrite Hid. unfold dict_mem in Hmem.
      by destruct (dict_get (all w) k). }
  split; [done|]. simpl. rewrite Hid.
  split; [by exists [(k, length (heap w))]|]. split; [done|].
  split; [apply NoDup_singleton|]. by constructor.
Qed.

(** One fetch of an identity that is stored. *)
Lemma get_item_by_id_again k w :
  always_found → dict_mem (all w) k = true →
  ∃ a e', get_item_by_id k w =
            (Ok a, put_env e' (calls w ++ fetches [k]) w).
Proof.
  intros Hfound Hmem. destruct (Hfound k (env w)) as (wi & e' & Hget & Hid).
  rewrite (get_item_by_id_run _ _ _ _ Hget).
  apply dict_mem_get in Hmem as [a Ha].
  exists a, e'. apply add_present. simpl. by rewrite Hid.
Qed.

Lemma walk_parents_climbs fuel : ∀ cur tf w tf' w',
  always_found →
  walk_parents fuel cur tf w = (Ok tf', w') →
  ∃ ks, climbed w ks w' ∧ tf' = tf ∪ list_to_set ks.
Proof.
  induction fuel as [|fuel IH]; intros cur tf w tf' w' Hfound; [done|].
  simpl. unfold bind at 1, deref.
  destruct (heap w !! cur) as [o|] eqn:Ho; [|done].
  unfold bind at 1, gets.
  destruct (negb (Z.eqb (parent_id o) 0)
            && negb (dict_mem (all w) (parent_id o)))
    eqn:Hc.
  - apply andb_true_iff in Hc as [Hnz Hmem].
    apply negb_true_iff in Hmem.
    destruct (get_item_by_id_climbs _ _ Hfound Hmem) as (w2 & Hrun & Hcl).
    rewrite (bind_run _ _ _ _ _ Hrun). intros Hwalk.
    destruct (IH _ _ _ _ _ Hfound Hwalk) as (ks & Hcl2 & ->).
    exists (parent_id o :: ks). split.
    + by apply (climbed_trans _ [parent_id o] w2).
    + set_solver.
  - unfold ret. intros [= <- <-]. exists []. split; [apply climbed_refl|].
    set_solver.
Qed.

Lemma fold_walk_climbs fuel : ∀ items tf w tf' w',
  always_found →
  fold_m (λ to_fetch item, walk_parents fuel item to_fetch) tf items w
    = (Ok tf', w') →
  ∃ ks, climbed w ks w' ∧ tf' = tf ∪ list_to_set ks.
Proof.
  induction items as [|a items IH]; intros tf w tf' w' Hfound.
  - simpl. unfold ret. intros [= <- <-]. exists [].
    split; [apply climbed_refl|]. set_solver.
  - simpl. intros Hrun. apply bind_Ok in Hrun as (tf1 & w1 & Hwalk & Hrest).
    destruct (walk_parents_climbs _ _ _ _ _ _ Hfound Hwalk) as (ks1 & Hcl1 & ->).
    destruct (IH _ _ _ _ Hfound Hrest) as (ks2 & Hcl2 & ->).
    exists (ks1 ++ ks2). split; [by eapply climbed_trans|]. set_solver.
Qed.

Lemma map_again (batch : list Z) : ∀ w,
  always_found →
  Forall (λ k, dict_mem (all w) k = true) batch →
  ∃ l e', map_m get_item_by_id batch w =
            (Ok l, put_env e' (calls w ++ fetches batch) w).
Proof.
  induction batch as [|k batch IH]; intros w Hfound Hall.
  - exists [], (env w). simpl. rewrite app_nil_r. by destruct w.
  - apply Forall_cons in Hall as [Hk Hall].
    destruct (get_item_by_id_again _ _ Hfound Hk) as (a & e1 & Hrun).
    destruct (IH (put_env e1 (calls w ++ fetches [k]) w) Hfound Hall)
      as (l & e2 & Hrun2).
    exists (a :: l), e2. simpl. rewrite (bind_run _ _ _ _ _ Hrun).
    rewrite (bind_run _ _ _ _ _ Hrun2). unfold ret. f_equal.
    unfold put_env. simpl. by rewrite <- app_assoc.
Qed.

(** A batch of fetches of stored identities: each is fetched once, in the
    order of completion. *)
Lemma gather_again (batch : list Z) w :
  always_found →
  Forall (λ k, dict_mem (all w) k = true) batch →
  ∃ batch' l e', batch' ≡ₚ batch ∧
    gather (map get_item_by_id batch) w =
      (Ok l, put_env e' (calls w ++ fetches batch') w).
Proof.
  intros Hfound Hall.
  destruct (gather_sequence get_item_by_id batch w)
    as (batch' & Hperm & _ & Hrun).
  destruct (map_again batch' w Hfound) as (bs' & e' & Hseq).
  { by rewrite Hperm. }
  destruct (Hrun _ _ Hseq) as (bs & Hg). by exists batch', bs, e'.
Qed.

Lemma batches_again (ids : list Z) (starts : list nat) : ∀ w,
  always_found →
  Forall (λ k, dict_mem (all w) k = true) ids →
  ∃ again e',
    again ≡ₚ concat (map (λ i, slice ids i (i + batch_size)) starts) ∧
    for_each starts (λ i,
      let batch := slice ids i (i + batch_size) in
      do gather (map get_item_by_id batch) ;; ret tt) w
    = (Ok tt, put_env e' (calls w ++ fetches again) w).
Proof.
  induction starts as [|i starts IH]; intros w Hfound Hall.
  - exists [], (env w). split; [done|]. simpl. rewrite app_nil_r.
    by destruct w.
  - destruct (gather_again (slice ids i (i + batch_size)) w Hfound)
      as (batch' & l & e1 & Hperm & Hrun).
    { unfold slice. apply List.Forall_forall. intros k Hk.
      rewrite List.Forall_forall in Hall. apply Hall.
      apply list_elem_of_In. apply list_elem_of_In in Hk.
      by apply subseteq_take, subseteq_drop in Hk. }
    destruct (IH (put_env e1 (calls w ++ fetches batch') w) Hfound Hall)
      as (again & e2 & Hperm2 & Hrun2).
    assert ((do gather (map get_item_by_id (slice ids i (i + batch_size))) ;;
             ret tt) w
            = (Ok tt, put_env e1 (calls w ++ fetches batch') w)) as Hb.
    { by rewrite (bind_run _ _ _ _ _ Hrun). }
    exists (batch' ++ again), e2. split.
    { simpl. by rewrite Hperm, Hperm2. }
    cbn [for_each]. rewrite (bind_run _ _ _ _ _ Hb).
    etransitivity; [exact Hrun2|]. f_equal. unfold put_env, fetches. simpl.
    by rewrite map_app, app_assoc.
Qed.

(** X12.  Every parent the resolution adds is fetched twice.  With a client that
    finds every identity, a completed resolution on Azure DevOps stores
    the missing ancestors [ks], each once and none of them stored before,
    and its calls are the fetches of [ks] in the order of the climb
    followed by the fetches of the same identities once more, in the order
    of the set (the batches). *)
Theorem fetch_parents_fetches_twice fuel w w' :
  platform config = AZURE_DEVOPS → always_found →
  _fetch_parents config fuel w = (Ok tt, w') →
  ∃ ks d again,
    all w' = all w ++ d ∧ map fst d = ks ∧ NoDup ks ∧
    Forall (λ k, dict_mem (all w) k = false) ks ∧
    again ≡ₚ ks ∧
    calls w' = calls w ++ fetches ks ++ fetches again ∧
    fetch_calls (fetches ks ++ fetches again) = (2 * length ks)%nat.
Proof.
  intros Hp Hfound. unfold _fetch_parents. rewrite Hp. simpl.
  unfold bind at 1, gets. intros Hrun.
  apply bind_Ok in Hrun as (tf & w1 & Hfold & Hbatch).
  destruct (fold_walk_climbs _ _ _ _ _ _ Hfound Hfold) as (ks & Hcl & ->).
  set (tf := (∅ ∪ list_to_set ks : gset Z)) in *.
  destruct (batches_again (elements tf)
              (py_range 0 (length (elements tf)) batch_size) w1 Hfound)
    as (again & e2 & Hagain & Hrun2).
  { apply List.Forall_forall. intros k Hk.
    apply list_elem_of_In, elem_of_elements in Hk.
    apply (climbed_stored _ _ _ _ Hcl). apply list_elem_of_In. set_solver. }
  pose proof (eq_trans (eq_sym Hbatch) Hrun2) as [= ->].
  rewrite concat_slices in Hagain by (unfold batch_size; lia).
  assert (again ≡ₚ ks) as Hperm.
  { destruct Hcl as (_ & _ & Hnd & _). rewrite Hagain. unfold tf.
    rewrite (left_id_L ∅ (∪)). by apply elements_list_to_set. }
  destruct Hcl as ((d & Hd & Hks) & Hc & Hnd & Hf).
  exists ks, d, again. simpl.
  split; [done|]. split; [done|]. split; [done|]. split; [done|].
  split; [done|]. split; [by rewrite Hc, <- app_assoc|].
  unfold fetch_calls, fetches. rewrite <- map_app.
  assert (∀ l, length (List.filter is_fetch
                 (map (λ k, CallGetWorkItemById k None) l)) = length l) as Hlen.
  { induction l as [|k l IH]; simpl; [done|]. by rewrite IH. }
  rewrite Hlen, length_app. rewrite (Permutation_length Hperm). lia.
Qed.

End FetchCount.

(** ** A second run *)

Section Again.
Context {Env : Type} {client : PlatformClient Env} {model : Model Env}
        {builtins : Builtins} {loop : EventLoop Env}.
Variable config : Config.
Implicit Types (w : Work Env) (o : HierarchicalWorkItem).

Lemma has_commit_group_last groups items :
  has_commit_group (groups ++ [mkWorkItemGroup "Commit" commit_icon items])
  = true.
Proof.
  unfold has_commit_group. rewrite existsb_app. simpl. apply orb_true_r.
Qed.

(** X14.  The groups are computed once.  A run of [generate_ordered_work_items]
    that returned a list that is not empty (as always when the commits
    are included) is followed by runs that return the same list without a
    call to a collaborator and without a change of state. *)
Theorem generate_again_is_idle fuel w groups w' :
  generate_ordered_work_items config fuel w = (Ok groups, w') →
  (include_commits config = true → groups ≠ []) ∧
  (groups ≠ [] →
   ∀ fuel', generate_ordered_work_items config fuel' w' = (Ok groups, w')).
Proof.
  unfold generate_ordered_work_items. intros H.
  apply bind_Ok in H as (g0 & w0 & [= <- <-] & H).
  apply bind_Ok in H as ([] & w1 & H1 & H).
  apply bind_Ok in H as (g1 & w1' & [= <- <-] & H).
  apply bind_Ok in H as ([] & w2 & H2 & [= <- <-]).
  assert (include_commits config = true →
          has_commit_group (by_type w2) = true) as Hhas.
  { intros Hi. rewrite Hi in H2. simpl in H2.
    destruct (has_commit_group (by_type w1)) eqn:E; simpl in H2.
    - by injection H2 as <-.
    - destruct (append_commits_Ok _ _ H2) as [items ->].
      apply has_commit_group_last. }
  split.
  { intros Hi Hnil. specialize (Hhas Hi). by rewrite Hnil in Hhas. }
  intros Hne fuel'. unfold bind at 1, gets.
  destruct (by_type w2) as [|g l] eqn:Hg; [done|]. unfold bind at 1, ret.
  unfold bind at 1, gets. rewrite Hg.
  destruct (include_commits config); [rewrite Hhas by done|];
    cbn [andb negb]; unfold bind, ret, gets; by rewrite Hg.
Qed.

(** *** The orphan bucket and the identity 0 *)

Lemma dict_get_In {V} (d : dict V) k v : dict_get d k = Some v → In (k, v) d.
Proof.
  induction d as [|[k' v'] d IH]; simpl; [done|].
  destruct (Z.eqb_spec k' k) as [->|Hne].
  - intros [= ->]. by left.
  - intros H. right. by apply IH.
Qed.

(** X15.  An item stored under the identity 0 is displaced by the orphan
    bucket: when the bucket is created, the Store holds the bucket under
    0, not the item, and the item is not among the children of the
    bucket either. *)
Theorem other_parent_displaces_identity_zero w x :
  platform config ≠ GITHUB → keyed w → orphans w ≠ [] →
  dict_get (all w) 0 = Some x →
  ∃ w' b (other : HierarchicalWorkItem),
    _create_other_parent config w = (Ok tt, w') ∧
    dict_get (all w') 0 = Some b ∧ b ≠ x ∧
    heap w' !! b = Some other ∧ type other = "Other" ∧
    children other = orphans w ∧ ¬ In x (children other).
Proof.
  intros Hp Hk Hor Hx. pose proof (keyed_store_ok _ Hk) as Hok.
  destruct (create_other_parent_run config w Hp Hok Hor)
    as (h & Hrun & Hlen & Hb & Hold).
  destruct (Hk _ _ (dict_get_In _ _ _ Hx)) as (o & Ho & Hid).
  eexists _, (length (heap w)), _. split; [exact Hrun|]. simpl.
  split; [by rewrite dict_get_set|].
  split; [apply lookup_lt_Some in Ho; lia|].
  split; [exact Hb|]. split; [done|]. split; [done|]. simpl.
  intros Hin. apply orphans_spec in Hin as (_ & o' & Ho' & _ & Hne).
  congruence.
Qed.

End Again.

(** ** The identities listed on GitHub *)

Section Listed.
Context {Env : Type}.
Implicit Types (w : Work Env) (o : HierarchicalWorkItem).

Lemma same_item_ids_refl w : same_item_ids w w.
Proof. done. Qed.

Lemma same_item_ids_trans w1 w2 w3 :
  same_item_ids w1 w2 → same_item_ids w2 w3 → same_item_ids w1 w3.
Proof. unfold same_item_ids. congruence. Qed.

Lemma moves_ids_alloc o : moves same_item_ids (alloc (Env := Env) o).
Proof. by intros w r w' [= <- <-]. Qed.

Lemma moves_ids_add (p : HierarchicalWorkItem) :
  moves same_item_ids (add (Env := Env) p).
Proof.
  intros w r w'. pose proof (add_run p w) as H.
  by destruct (dict_get (all w) (id p)); rewrite H; intros [= <- <-].
Qed.

Lemma moves_ids_alloc_tree :
  ∀ t, moves same_item_ids (alloc_tree (Env := Env) t).
Proof.
  fix IH 1. intros [wi kids]. simpl.
  apply moves_bind; [apply same_item_ids_trans| |].
  - induction kids as [|k kids IHk];
      [apply moves_ret, same_item_ids_refl|].
    apply moves_bind; [apply same_item_ids_trans|apply IH|]. intros a.
    apply moves_bind; [apply same_item_ids_trans|apply IHk|]. intros r.
    apply moves_ret, same_item_ids_refl.
  - intros cs. apply moves_ids_alloc.
Qed.

Lemma index_child_run c w w' :
  index_child c w = (Ok tt, w') →
  ∃ o, heap w !! c = Some o ∧
       w' = put_item_ids (item_ids w ++ [id o])
              (put_all (dict_set (all w) (id o) c) w).
Proof.
  unfold index_child, bind, deref.
  destruct (heap w !! c) as [o|]; [|done]. intros [= <-]. by exists o.
Qed.

Lemma index_children_run (cs : list ref) : ∀ w w',
  for_each cs index_child w = (Ok tt, w') →
  heap w' = heap w ∧ root_items w' = root_items w ∧
  item_ids w' =
    item_ids w ++
    omap (λ c, (λ x : HierarchicalWorkItem, id x) <$> heap w !! c) cs.
Proof.
  induction cs as [|c cs IH]; intros w w'.
  - intros [= <-]. by rewrite app_nil_r.
  - simpl. intros H. apply bind_Ok in H as ([] & w1 & H1 & H).
    apply index_child_run in H1 as (o & Ho & ->).
    destruct (IH _ _ H) as (Hh & Hr & Hi). simpl in *.
    split; [done|]. split; [done|]. rewrite Ho. simpl.
    by rewrite Hi, <- app_assoc.
Qed.

Lemma child_ids_heap w w' (l : list ref) :
  heap w' = heap w → map (child_ids w') l = map (child_ids w) l.
Proof.
  intros Hh. apply map_ext. intros b. unfold child_ids. by rewrite Hh.
Qed.

Lemma index_roots_run (roots : list ref) : ∀ w w',
  for_each roots (λ a,
    root_item <- deref a ;;
    for_each (children root_item) index_child) w = (Ok tt, w') →
  heap w' = heap w ∧ root_items w' = root_items w ∧
  item_ids w' = item_ids w ++ concat (map (child_ids w) roots).
Proof.
  induction roots as [|a roots IH]; intros w w'.
  - intros [= <-]. by rewrite app_nil_r.
  - simpl. intros H. apply bind_Ok in H as ([] & w1 & H1 & H).
    unfold bind, deref in H1. unfold child_ids at 1.
    destruct (heap w !! a) as [o|]; [|done].
    destruct (index_children_run _ _ _ H1) as (Hh1 & Hr1 & Hi1).
    destruct (IH _ _ H) as (Hh & Hr & Hi).
    split; [congruence|]. split; [congruence|].
    rewrite Hi, Hi1, <- app_assoc, (child_ids_heap _ _ _ Hh1). done.
Qed.

(** X16.  On GitHub the listed identities are those of the children: a
    completed loading of the returned roots assigns the roots and appends
    to [item_ids] the identities of the children of each root, root by
    root and child by child, and nothing else.  (The identity of a root
    is listed only if a child carries it.) *)
Theorem github_lists_the_children items w w' :
  load_github items w = (Ok tt, w') →
  item_ids w' = item_ids w ++ concat (map (child_ids w') (root_items w')).
Proof.
  unfold load_github. intros H.
  apply bind_Ok in H as (payloads & w1 & H1 & H).
  apply bind_Ok in H as (roots & w2 & H2 & H).
  apply bind_Ok in H as ([] & w3 & [= <-] & H).
  assert (item_ids w1 = item_ids w) as Hi1.
  { refine (moves_map_m same_item_ids same_item_ids_refl
              same_item_ids_trans _ _ _ _ _ _ H1).
    intros t. unfold receive.
    apply moves_bind; [apply same_item_ids_trans| |].
    - apply moves_map_m;
        [apply same_item_ids_refl|apply same_item_ids_trans|].
      apply moves_ids_alloc_tree.
    - intros cs. apply moves_ret, same_item_ids_refl. }
  assert (item_ids w2 = item_ids w1) as Hi2.
  { refine (moves_map_m same_item_ids same_item_ids_refl
              same_item_ids_trans _ _ _ _ _ _ H2).
    apply moves_ids_add. }
  destruct (index_roots_run _ _ _ H) as (Hh & Hr & Hi).
  rewrite Hi, Hr, (child_ids_heap _ _ _ Hh). simpl. by rewrite Hi2, Hi1.
Qed.

End Listed.


(** ** Further examples *)

Lemma parse_project_github_witness :
  parse_project Samples.urlparse Samples.unquote
    (Samples.args "https://github.com/octo/weaver" "v1" "")
  = inr (project_of (Samples.args "https://github.com/octo/weaver" "v1" "")
           "octo/weaver" "octo" "https://api.github.com" GITHUB).
Proof.
  exact (parse_project_github Samples.urlparse Samples.unquote
           (Samples.args "https://github.com/octo/weaver" "v1" "")
           "octo" "weaver" eq_refl eq_refl
           ltac:(discriminate) ltac:(discriminate) eq_refl eq_refl).
Defined.

Lemma parse_project_github_single_segment_witness :
  parse_project Samples.urlparse Samples.unquote
    (Samples.args "https://github.com/octo/" "" "")
  = inl "Invalid GitHub URL: https://github.com/octo/".
Proof.
  exact (parse_project_github_single_segment Samples.urlparse Samples.unquote
           (Samples.args "https://github.com/octo/" "" "") eq_refl eq_refl).
Defined.

Lemma parse_project_azure_devops_witness :
  ∃ p,
    parse_project Samples.urlparse Samples.unquote
      (Samples.args "https://dev.azure.com/contoso/Web%20Shop" "" "") = inr p ∧
    Project.ref_ p = "Web Shop" ∧
    _create_platform_client p =
      DevOpsPlatformClient
        (DevOpsConfig.mk "https://dev.azure.com/" "contoso" "Web Shop"
           "query-1" "token" "elsewhere").
Proof.
  destruct (parse_project_azure_devops Samples.urlparse Samples.unquote
              (Samples.args "https://dev.azure.com/contoso/Web%20Shop" "" "")
              "" "contoso" "Web%20Shop" eq_refl eq_refl
              ltac:(discriminate) ltac:(discriminate) eq_refl eq_refl)
    as (p & Hparse & Hp & Hclient).
  exists p. split; [exact Hparse|]. split; [by rewrite Hp|exact Hclient].
Defined.

(** The address of an organisation, without a path, gives a project with
    the empty name. *)
Lemma parse_project_visualstudio_accepts_witness :
  ∃ p,
    parse_project Samples.urlparse Samples.unquote
      (Samples.args "https://contoso.visualstudio.com" "" "") = inr p ∧
    Project.ref_ p = "" ∧
    PlatformInfo.organization (Project.platform p) = "contoso".
Proof.
  destruct (parse_project_visualstudio_accepts Samples.urlparse
              Samples.unquote
              (Samples.args "https://contoso.visualstudio.com" "" "") eq_refl)
    as (org & label & rest & segment & segments & Hsplit & Hparts & Hparse).
  injection Hsplit as <- _ _. injection Hparts as <- _.
  eexists. split; [exact Hparse|]. by split.
Defined.

Lemma parse_project_github_subdomain_refused_witness :
  parse_project Samples.urlparse Samples.unquote
    (Samples.args "https://www.github.com/octo/weaver" "" "")
  = inl "Unable to determine platform from URL: https://www.github.com/octo/weaver".
Proof.
  exact (parse_project_github_subdomain_refused Samples.urlparse
           Samples.unquote
           (Samples.args "https://www.github.com/octo/weaver" "" "")
           "www" eq_refl).
Defined.

(** The repository comes from the address, not from [repo_name], and the
    empty [to_tag] is not passed on. *)
Lemma github_project_client_witness :
  ∃ project c,
    parse_project Samples.urlparse Samples.unquote
      (Samples.args "https://github.com/octo/weaver" "v1" "") = inr project ∧
    _create_platform_client project = GitHubPlatformClient c ∧
    GitHubConfig.repo_name c = "octo/weaver" ∧
    commit_kwargs c ∅ = {[ "from_tag" := "v1" ]}.
Proof.
  destruct (github_project_client Samples.urlparse Samples.unquote
              (Samples.args "https://github.com/octo/weaver" "v1" "")
              "octo" "weaver" eq_refl eq_refl
              ltac:(discriminate) ltac:(discriminate) eq_refl eq_refl)
    as (project & c & Hparse & Hclient & Hrepo & _ & _).
  exists project, c. split; [exact Hparse|]. split; [exact Hclient|].
  split; [exact Hrepo|].
  injection Hparse as <-. injection Hclient as <-. reflexivity.
Defined.

Lemma get_items_from_query_stores_witness :
  ∃ w',
    get_items_from_query (queries := Samples.query_client Samples.reply)
      "q" Samples.one_stored = (Ok [1%nat; 0%nat; 1%nat], w') ∧
    heap w' = [flat (Fixtures.item 7 "Bug" false false 0);
               flat (Fixtures.item 8 "Task" false false 0)] ∧
    only_adds Samples.one_stored w'.
Proof.
  destruct (get_items_from_query_stores
              (queries := Samples.query_client Samples.reply)
              "q" Samples.one_stored Samples.reply 1%nat eq_refl)
    as (refs & w' & Hrun & _ & _ & _ & _ & Hadds & _).
  assert (get_items_from_query (queries := Samples.query_client Samples.reply)
            "q" Samples.one_stored = (Ok [1%nat; 0%nat; 1%nat],
              mkWork [flat (Fixtures.item 7 "Bug" false false 0);
                      flat (Fixtures.item 8 "Task" false false 0)]
                     [(7, 0%nat); (8, 1%nat)] [] [] [] 1%nat [])) as Hrun'
    by (vm_compute; reflexivity).
  rewrite Hrun' in Hrun. injection Hrun as <- <-.
  eexists. split; [exact Hrun'|]. split; [reflexivity|exact Hadds].
Defined.

Lemma get_items_from_query_again_witness :
  ∃ w',
    get_items_from_query (queries := Samples.query_client Samples.reply)
      "q" Samples.one_stored = (Ok [1%nat; 0%nat; 1%nat], w') ∧
    get_items_from_query (queries := Samples.query_client Samples.reply)
      "q" w' = (Ok [1%nat; 0%nat; 1%nat], put_env 2%nat (calls w') w').
Proof.
  eassert (get_items_from_query
             (queries := Samples.query_client Samples.reply)
             "q" Samples.one_stored = (Ok [1%nat; 0%nat; 1%nat], _)) as Hrun
    by (vm_compute; reflexivity).
  destruct (get_items_from_query_again
              (queries := Samples.query_client Samples.reply) _ _ _ _ Hrun)
    as (items & Hitems & Hagain & _).
  injection Hitems as <-.
  eexists. split; [exact Hrun|]. exact (Hagain "q" 2%nat eq_refl).
Defined.

Lemma store_stays_keyed_witness :
  keyed Fixtures.start ∧
  ∃ groups w',
    generate_ordered_work_items (client := Fixtures.hub)
      (model := Fixtures.echo_model) (builtins := Fixtures.toy_builtins)
      (loop := Fixtures.in_order)
      Fixtures.github 0 Fixtures.start = (Ok groups, w') ∧
    length (all w') = 5%nat ∧ keyed w'.
Proof.
  assert (keyed Fixtures.start) as Hk by (intros k a []).
  eassert (generate_ordered_work_items (client := Fixtures.hub)
      (model := Fixtures.echo_model) (builtins := Fixtures.toy_builtins)
      (loop := Fixtures.in_order)
      Fixtures.github 0 Fixtures.start = (Ok _, _)) as Hrun
    by (vm_compute; reflexivity).
  split; [exact Hk|]. eexists _, _. split; [exact Hrun|].
  split; [reflexivity|].
  exact (proj2 (proj2 (proj2
           (store_stays_keyed (client := Fixtures.hub)
              (model := Fixtures.echo_model)
              (builtins := Fixtures.toy_builtins)
              (queries := Samples.query_client []) Fixtures.github)))
           eq_refl _ _ _ _ Hrun Hk).
Defined.

Lemma fetch_parents_only_adds_witness :
  ∃ w',
    _fetch_parents (client := Fixtures.failing)
      (loop := Fixtures.in_order) Fixtures.azure 4
      Fixtures.unresolved = (Raise (External "timeout"), w') ∧
    only_adds Fixtures.unresolved w' ∧
    dict_get (all w') 1 = Some 0%nat.
Proof.
  eassert (_fetch_parents (client := Fixtures.failing)
    (loop := Fixtures.in_order) Fixtures.azure 4
      Fixtures.unresolved = (Raise _, _)) as Hrun
    by (vm_compute; reflexivity).
  destruct (fetch_parents_only_adds (client := Fixtures.failing)
              Fixtures.azure _ _ _ _ Hrun) as (Hadds & Hget & _).
  eexists. split; [exact Hrun|]. split; [exact Hadds|].
  exact (Hget 1 0%nat eq_refl).
Defined.

Lemma fetch_parents_fetches_twice_witness :
  ∃ w',
    _fetch_parents (client := Fixtures.chain_client 3)
      (loop := Fixtures.in_order) Fixtures.azure 4
      Fixtures.unresolved = (Ok tt, w') ∧
    ∃ ks again,
      map fst (all w') = 1 :: ks ∧ again ≡ₚ ks ∧
      calls w' = fetches ks ++ fetches again ∧
      fetch_calls (calls w') = 4%nat.
Proof.
  eassert (_fetch_parents (client := Fixtures.chain_client 3)
    (loop := Fixtures.in_order) Fixtures.azure 4
      Fixtures.unresolved = (Ok tt, _)) as Hrun
    by (vm_compute; reflexivity).
  destruct (fetch_parents_fetches_twice (client := Fixtures.chain_client 3)
              Fixtures.azure _ _ _ eq_refl (chain_client_always_found 3) Hrun)
    as (ks & d & again & Hall & Hks & _ & _ & Hperm & Hcalls & _).
  eexists. split; [exact Hrun|]. exists ks, again.
  split; [by rewrite Hall, map_app, Hks|]. split; [exact Hperm|].
  split; [exact Hcalls|reflexivity].
Defined.

Lemma github_run_fetches_no_single_item_witness :
  ∃ groups w',
    generate_ordered_work_items (client := Fixtures.hub)
      (model := Fixtures.echo_model) (builtins := Fixtures.toy_builtins)
      (loop := Fixtures.in_order)
      Fixtures.github 0 Fixtures.start = (Ok groups, w') ∧
    ∃ evs, calls w' = calls Fixtures.start ++ evs ∧
      Forall (λ c, github_call Fixtures.github c = true) evs ∧
      fetch_calls evs = 0%nat.
Proof.
  eassert (generate_ordered_work_items (client := Fixtures.hub)
      (model := Fixtures.echo_model) (builtins := Fixtures.toy_builtins)
      (loop := Fixtures.in_order)
      Fixtures.github 0 Fixtures.start = (Ok _, _)) as Hrun
    by (vm_compute; reflexivity).
  eexists _, _. split; [exact Hrun|].
  exact (github_run_fetches_no_single_item Fixtures.github _ _ _ _
           eq_refl Hrun).
Defined.

Lemma generate_again_is_idle_witness :
  ∃ groups w',
    generate_ordered_work_items (client := Fixtures.hub)
      (model := Fixtures.echo_model) (builtins := Fixtures.toy_builtins)
      (loop := Fixtures.in_order)
      Fixtures.github 0 Fixtures.start = (Ok groups, w') ∧
    generate_ordered_work_items (client := Fixtures.hub)
      (model := Fixtures.echo_model) (builtins := Fixtures.toy_builtins)
      (loop := Fixtures.in_order)
      Fixtures.github 0 w' = (Ok groups, w').
Proof.
  eassert (generate_ordered_work_items (client := Fixtures.hub)
      (model := Fixtures.echo_model) (builtins := Fixtures.toy_builtins)
      (loop := Fixtures.in_order)
      Fixtures.github 0 Fixtures.start = (Ok _, _)) as Hrun
    by (vm_compute; reflexivity).
  destruct (generate_again_is_idle Fixtures.github _ _ _ _ Hrun)
    as [Hne Hagain].
  eexists _, _. split; [exact Hrun|]. exact (Hagain (Hne eq_refl) 0%nat).
Defined.

Lemma other_parent_displaces_identity_zero_witness :
  keyed Samples.zero_stored ∧
  ∃ w' b (other : HierarchicalWorkItem),
    _create_other_parent Fixtures.azure Samples.zero_stored = (Ok tt, w') ∧
    dict_get (all w') 0 = Some b ∧ b ≠ 0%nat ∧
    heap w' !! b = Some other ∧ children other = [1%nat].
Proof.
  assert (keyed Samples.zero_stored) as Hk.
  { intros k a [[= <- <-]|[[= <- <-]|[]]]; by eexists. }
  split; [exact Hk|].
  destruct (other_parent_displaces_identity_zero (Env := nat)
              Fixtures.azure Samples.zero_stored 0%nat
              ltac:(discriminate) Hk ltac:(discriminate) eq_refl)
    as (w' & b & other & Hrun & Hget & Hne & Hb & _ & Hch & _).
  exists w', b, other. repeat split; assumption.
Defined.

Lemma github_lists_the_children_witness :
  ∃ w',
    load_github Fixtures.roots3 Fixtures.start = (Ok tt, w') ∧
    map fst (all w') = [1; 2; 3; 11; 31] ∧
    item_ids w' = [11; 31].
Proof.
  eassert (load_github (Env := nat) Fixtures.roots3 Fixtures.start
           = (Ok tt, _)) as Hrun
    by (vm_compute; reflexivity).
  pose proof (github_lists_the_children _ _ _ Hrun) as Hids.
  eexists. split; [exact Hrun|]. split; [reflexivity|].
  rewrite Hids. reflexivity.
Defined.
